(** * Safe query execution, pagination and caching engine

    A shallow embedding of [src/services/queryExecutionService.js],
    [src/services/cacheService.js] and the two collaborators they call
    ([src/config/redis.js], the [query] method of the database
    configuration), together with the properties of the specification
    that concern them.

    Conventions of the embedding.
    - A JavaScript string is a [text], a list of code units.  Code units
      are the 256 values of [ascii] (the Latin-1 range); the character
      tables below ([toLowerCase], white space, word characters, the
      case folding of [/i]) are the ECMAScript ones restricted to it.
    - A JavaScript number is a [num]: an integer or [NaN], which is what
      [parseInt] produces.  Fractions and the loss of precision above
      2^53 are outside the model.
    - [async] functions are run to completion one after the other; a
      method is a function from the state of the process and of its
      collaborators (the [world]) to an outcome and a new state.
    - The logger is silent and never raises. *)

From Stdlib Require Import ZArith List Ascii String Bool Lia DecimalString.
From Stdlib Require DecimalPos DecimalZ.
From stdpp Require Import gmap strings list.
Import ListNotations.

Set Warnings "-register-all".

Local Open Scope Z_scope.

(** ** Text *)

Abbreviation text := (list ascii).

(** A string literal of the source. *)
Definition txt (s : string) : text := list_ascii_of_string s.

Definition code (c : ascii) : N := N_of_ascii c.

Definition in_range (lo hi : N) (c : ascii) : bool :=
  ((lo <=? code c) && (code c <=? hi))%N.

Definition is_upper (c : ascii) : bool := in_range 65 90 c.
Definition is_lower (c : ascii) : bool := in_range 97 122 c.
Definition is_digit (c : ascii) : bool := in_range 48 57 c.

(** [\w] of a pattern without the [u] flag: [[A-Za-z0-9_]]. *)
Definition is_word (c : ascii) : bool :=
  is_upper c || is_lower c || is_digit c || (code c =? 95)%N.

(** White space and line terminators, as [String.prototype.trim] and
    [\s] see them: TAB, LF, VT, FF, CR, SPACE and NBSP. *)
Definition is_space (c : ascii) : bool :=
  in_range 9 13 c || (code c =? 32)%N || (code c =? 160)%N.

(** Line terminators, which [.] does not match. *)
Definition is_newline (c : ascii) : bool :=
  (code c =? 10)%N || (code c =? 13)%N.

(** [String.prototype.toLowerCase] on one code unit: A-Z, and the
    Latin-1 capitals U+00C0..U+00DE except the multiplication sign. *)
Definition lower_char (c : ascii) : ascii :=
  if is_upper c || (in_range 192 222 c && negb (code c =? 215)%N)
  then ascii_of_N (code c + 32) else c.

(** The [Canonicalize] operation of a pattern with the [i] flag and
    without the [u] flag: the upper-case mapping when it is a single code
    unit, never from a non-ASCII code unit to an ASCII one.  U+00B5 and
    U+00FF have their capitals outside Latin-1 and stay alone in their
    class. *)
Definition canonicalize (c : ascii) : ascii :=
  if is_lower c || (in_range 224 254 c && negb (code c =? 247)%N)
  then ascii_of_N (code c - 32) else c.

Definition toLowerCase (s : text) : text := map lower_char s.

Fixpoint trimStart (s : text) : text :=
  match s with
  | c :: s' => if is_space c then trimStart s' else s
  | [] => []
  end.

Definition trimEnd (s : text) : text := rev (trimStart (rev s)).

Definition trim (s : text) : text := trimEnd (trimStart s).

Definition ascii_eqb (a b : ascii) : bool := Ascii.eqb a b.

(** The double quote, U+0022. *)
Definition dquote : ascii := ascii_of_N 34.

(** A literal of the source that contains double quotes, written here
    with single quotes in their place. *)
Definition txtq (s : string) : text :=
  map (fun c => if ascii_eqb c "'" then dquote else c) (txt s).

Fixpoint startsWith (p s : text) : bool :=
  match p, s with
  | [], _ => true
  | a :: p', b :: s' => ascii_eqb a b && startsWith p' s'
  | _ :: _, [] => false
  end.

(** [String.prototype.includes]. *)
Fixpoint includes (p s : text) : bool :=
  startsWith p s ||
  match s with
  | [] => false
  | _ :: s' => includes p s'
  end.

(** ** Numbers

    A number of the source is a double.  The model carries the integers
    and [NaN] and computes with them exactly, which is the arithmetic of
    the source on the integers [Number.isSafeInteger] accepts, those of
    magnitude below 2^53: there the differences, products, rounded-up
    quotients and decimal forms of doubles are the exact ones.  A
    statement that depends on the value of a number is made within that
    bound. *)

Inductive num : Type :=
| Int (z : Z)
| NaN.

(** [Number.isSafeInteger] *)
Definition safe_integer (z : Z) : Prop := Z.abs z < 2 ^ 53.

Definition num_ltb (a b : num) : bool :=
  match a, b with
  | Int x, Int y => x <? y
  | _, _ => false
  end.

Definition num_gtb (a b : num) : bool := num_ltb b a.

(** [a - b] and [a * b], the exact ones: those of the source where the
    operands and the result are safe integers, rounded by it beyond. *)
Definition num_sub (a b : num) : num :=
  match a, b with
  | Int x, Int y => Int (x - y)
  | _, _ => NaN
  end.

Definition num_mul (a b : num) : num :=
  match a, b with
  | Int x, Int y => Int (x * y)
  | _, _ => NaN
  end.

(** [Math.min]. *)
Definition num_min (a b : num) : num :=
  match a, b with
  | Int x, Int y => Int (Z.min x y)
  | _, _ => NaN
  end.

(** [Math.ceil (a / b)], used with a divisor between 1 and 100: the
    exact ceiling, which is what the source computes from the rounded
    quotient where [a] is a safe integer. *)
Definition num_ceil_div (a b : num) : num :=
  match a, b with
  | Int x, Int y => if y =? 0 then NaN else Int (- ((- x) / y))
  | _, _ => NaN
  end.

(** The decimal form a template literal gives a number: all the digits
    of the integer, which is the form the source gives a safe integer
    (beyond, it gives the shortest digits that read back, and an
    exponent from 1e21). *)
Definition show_Z (z : Z) : text :=
  txt (NilZero.string_of_int (Z.to_int z)).

Definition show_num (n : num) : text :=
  match n with
  | Int z => show_Z z
  | NaN => txt "NaN"
  end.

Definition digit_value (c : ascii) : Z := Z.of_N (code c) - 48.

(** [parseInt] on a run of decimal digits, most significant first. *)
Definition digits_value (ds : text) : Z :=
  fold_left (fun acc c => 10 * acc + digit_value c) ds 0.

(** ** Regular expressions

    The patterns of the source are transcribed into the syntax [re] and
    run by a backtracking matcher in continuation-passing style, the way
    ECMAScript defines pattern matching: alternatives are tried left to
    right, quantifiers are greedy, and the first successful path wins. *)

Inductive cclass : Type :=
| CLit (c : ascii)        (* a literal character *)
| CLitI (c : ascii)       (* a literal character under the [i] flag *)
| CSpace                  (* [\s] *)
| CDigit                  (* [\d] *)
| CDot.                   (* [.] *)

Definition cmatch (cl : cclass) (x : ascii) : bool :=
  match cl with
  | CLit c => ascii_eqb x c
  | CLitI c => ascii_eqb (canonicalize x) (canonicalize c)
  | CSpace => is_space x
  | CDigit => is_digit x
  | CDot => negb (is_newline x)
  end.

Inductive re : Type :=
| RChar (cl : cclass)
| REmpty
| RSeq (r1 r2 : re)
| RAlt (r1 r2 : re)
| RStar (cl : cclass)     (* [cl*] *)
| RGroup (r : re)         (* a capturing group *)
| RWordB                  (* [\b] *)
| REnd.                   (* [$] *)

Definition RPlus (cl : cclass) : re := RSeq (RChar cl) (RStar cl).
Definition ROpt (r : re) : re := RAlt r REmpty.

Fixpoint RLit (s : text) : re :=
  match s with
  | [] => REmpty
  | c :: s' => RSeq (RChar (CLit c)) (RLit s')
  end.

Fixpoint RLitI (s : text) : re :=
  match s with
  | [] => REmpty
  | c :: s' => RSeq (RChar (CLitI c)) (RLitI s')
  end.

Fixpoint RAlts (rs : list re) : re :=
  match rs with
  | [] => REmpty
  | [r] => r
  | r :: rs' => RAlt r (RAlts rs')
  end.

(** The matcher state: the character before the current position (for
    [\b]), the input still to read, and the captures closed so far. *)
Record mstate : Type := MState {
  ms_prev : option ascii;
  ms_rest : text;
  ms_caps : list text
}.

Definition opt_is_word (o : option ascii) : bool :=
  match o with
  | Some c => is_word c
  | None => false
  end.

Definition at_boundary (p : option ascii) (s : text) : bool :=
  xorb (opt_is_word p) (opt_is_word (head s)).

Fixpoint star_loop {A} (cl : cclass) (p : option ascii) (s : text)
    (k : option ascii -> text -> option A) : option A :=
  match s with
  | x :: s' =>
      if cmatch cl x then
        match star_loop cl (Some x) s' k with
        | Some a => Some a
        | None => k p s
        end
      else k p s
  | [] => k p s
  end.

Fixpoint mt {A} (r : re) (st : mstate) (k : mstate -> option A) : option A :=
  match r with
  | RChar cl =>
      match ms_rest st with
      | x :: s' => if cmatch cl x then k (MState (Some x) s' (ms_caps st)) else None
      | [] => None
      end
  | REmpty => k st
  | RSeq r1 r2 => mt r1 st (fun st1 => mt r2 st1 k)
  | RAlt r1 r2 =>
      match mt r1 st k with
      | Some a => Some a
      | None => mt r2 st k
      end
  | RStar cl =>
      star_loop cl (ms_prev st) (ms_rest st)
        (fun p s => k (MState p s (ms_caps st)))
  | RGroup r1 =>
      mt r1 st (fun st1 =>
        let n := (length (ms_rest st) - length (ms_rest st1))%nat in
        k (MState (ms_prev st1) (ms_rest st1)
                  (ms_caps st1 ++ [firstn n (ms_rest st)])))
  | RWordB => if at_boundary (ms_prev st) (ms_rest st) then k st else None
  | REnd => match ms_rest st with [] => k st | _ :: _ => None end
  end.

(** The result of [RegExp.prototype.exec]: the text before the match,
    the text after it and the captures. *)
Record rmatch : Type := RMatch {
  m_before : text;
  m_after : text;
  m_groups : list text
}.

(** Start positions are tried from left to right, the end of the input
    included. *)
Fixpoint exec_from (r : re) (before : text) (p : option ascii) (s : text)
    : option rmatch :=
  match mt r (MState p s []) Some with
  | Some st => Some (RMatch before (ms_rest st) (ms_caps st))
  | None =>
      match s with
      | [] => None
      | x :: s' => exec_from r (before ++ [x]) (Some x) s'
      end
  end.

Definition exec (r : re) (s : text) : option rmatch := exec_from r [] None s.

(** [RegExp.prototype.test]. *)
Definition test (r : re) (s : text) : bool :=
  match exec r s with Some _ => true | None => false end.

(** [s.replace(r, '')] for a pattern without the [g] flag. *)
Definition replace_empty (r : re) (s : text) : text :=
  match exec r s with
  | Some m => m_before m ++ m_after m
  | None => s
  end.

(** [(s.match(/c/g) || []).length] for a single literal character. *)
Definition count_char (c : ascii) (s : text) : nat :=
  length (filter (fun x => ascii_eqb x c) s).

(** ** Outcomes *)

Inductive exn : Type :=
| Error (message : text)
| TypeError (message : text).

Definition exn_message (e : exn) : text :=
  match e with
  | Error m => m
  | TypeError m => m
  end.

Inductive outcome (A : Type) : Type :=
| Ok (a : A)
| Throw (e : exn).
Arguments Ok {A} a.
Arguments Throw {A} e.

(** ** The validator ([validateQuery]) *)

Definition blacklistedKeywords : list text :=
  map txt
    ["insert"; "update"; "delete"; "drop"; "create"; "alter"; "truncate";
     "grant"; "revoke"; "exec"; "execute"; "call"; "declare"; "set";
     "use"; "backup"; "restore"; "shutdown"; "xp_"; "sp_"; "fn_";
     "openrowset"; "opendatasource"; "bulk"; "into"; "outfile";
     "dumpfile"; "load_file"; "pg_"; "mysql";
     "performance_schema"; "sys"]%string.

(** [new RegExp(`\\b${keyword}\\b`, 'i')] *)
Definition keyword_regex (keyword : text) : re :=
  RSeq RWordB (RSeq (RLitI keyword) RWordB).

Definition injectionPatterns : list re :=
  [ (* /;\s*(drop|delete|update|insert|create|alter)/i *)
    RSeq (RChar (CLitI ";")) (RSeq (RStar CSpace)
      (RGroup (RAlts (map (fun k => RLitI (txt k))
         ["drop"; "delete"; "update"; "insert"; "create"; "alter"]%string))));
    (* /union\s+select/i *)
    RSeq (RLitI (txt "union")) (RSeq (RPlus CSpace) (RLitI (txt "select")));
    (* /\/\*.*\*\// *)
    RSeq (RLit (txt "/*")) (RSeq (RStar CDot) (RLit (txt "*/")));
    (* /--\s/ *)
    RSeq (RLit (txt "--")) (RChar CSpace);
    (* /#/ *)
    RLit (txt "#");
    (* /xp_cmdshell/i *)
    RLitI (txt "xp_cmdshell");
    (* /sp_executesql/i *)
    RLitI (txt "sp_executesql") ].

Definition validateQuery (sql : text) : outcome unit :=
  let trimmedSQL := toLowerCase (trim sql) in
  if negb (startsWith (txt "select") trimmedSQL) then
    Throw (Error (txt "Only SELECT statements are allowed"))
  else
    match find (fun keyword => test (keyword_regex keyword) trimmedSQL)
               blacklistedKeywords with
    | Some keyword =>
        Throw (Error (txt "Forbidden keyword detected: " ++ keyword))
    | None =>
        if existsb (fun pattern => test pattern sql) injectionPatterns then
          Throw (Error (txt "Potential SQL injection detected"))
        else if (10000 <? Z.of_nat (length sql)) then
          Throw (Error (txt "Query too long"))
        else if negb (Nat.eqb (count_char "(" sql) (count_char ")" sql)) then
          Throw (Error (txt "Unbalanced parentheses in query"))
        else Ok tt
    end.

(** ** The pagination rewriter ([addPaginationToSQL]) *)

(** [/;+$/] *)
Definition semicolonsRegex : re := RSeq (RPlus (CLit ";")) REnd.

(** [/\s+LIMIT\s+(\d+)(\s+OFFSET\s+\d+)?$/i] *)
Definition limitRegex : re :=
  RSeq (RPlus CSpace) (RSeq (RLitI (txt "LIMIT")) (RSeq (RPlus CSpace)
    (RSeq (RGroup (RPlus CDigit))
      (RSeq (ROpt (RGroup (RSeq (RPlus CSpace) (RSeq (RLitI (txt "OFFSET"))
                     (RSeq (RPlus CSpace) (RPlus CDigit))))))
            REnd)))).

Fixpoint text_eqb (a b : text) : bool :=
  match a, b with
  | [], [] => true
  | x :: a', y :: b' => ascii_eqb x y && text_eqb a' b'
  | _, _ => false
  end.

(** [process.env.X || fallback]: an unset or empty variable gives the
    fallback. *)
Definition env_or (v : option text) (fallback : text) : text :=
  match v with
  | Some (c :: s) => c :: s
  | _ => fallback
  end.

Definition hex_digit_value (c : ascii) : option Z :=
  if is_digit c then Some (Z.of_N (code c) - 48)
  else if in_range 97 102 c then Some (Z.of_N (code c) - 87)
  else if in_range 65 70 c then Some (Z.of_N (code c) - 55)
  else None.

Definition dec_digit_value (c : ascii) : option Z :=
  if is_digit c then Some (digit_value c) else None.

(** The longest run of digits in the given radix at the head of a text,
    [None] when there is none. *)
Fixpoint parse_digits (radix : Z) (dv : ascii -> option Z) (s : text)
    (acc : option Z) : option Z :=
  match s with
  | c :: s' =>
      match dv c with
      | Some d =>
          parse_digits radix dv s'
            (Some (radix * match acc with Some a => a | None => 0 end + d))
      | None => acc
      end
  | [] => acc
  end.

(** [parseInt] of a string, no radix given: white space, a sign, a
    [0x] prefix for hexadecimal, then digits.  The value is the exact
    one, which the source returns where it is a safe integer and rounds
    to a double beyond. *)
Definition parseInt (s : text) : num :=
  let s := trimStart s in
  let '(neg, s) :=
    match s with
    | c :: s' =>
        if ascii_eqb c "-" then (true, s')
        else if ascii_eqb c "+" then (false, s')
        else (false, s)
    | [] => (false, s)
    end in
  let magnitude :=
    match s with
    | z :: x :: s' =>
        if ascii_eqb z "0" && (ascii_eqb x "x" || ascii_eqb x "X")
        then parse_digits 16 hex_digit_value s' None
        else parse_digits 10 dec_digit_value s None
    | _ => parse_digits 10 dec_digit_value s None
    end in
  match magnitude with
  | Some m => Int (if neg then - m else m)
  | None => NaN
  end.

Definition addPaginationToSQL (DB_TYPE : option text) (sql : text)
    (limit offset : num) : text :=
  let dbType := env_or DB_TYPE (txt "postgresql") in
  let cleanSQL := replace_empty semicolonsRegex (trim sql) in
  let limitMatch := exec limitRegex cleanSQL in
  let '(finalLimit, cleanSQL) :=
    match limitMatch with
    | Some m =>
        let existingLimit := parseInt (nth 0 (m_groups m) []) in
        (num_min existingLimit limit, replace_empty limitRegex cleanSQL)
    | None => (limit, cleanSQL)
    end in
  if text_eqb dbType (txt "postgresql")
  then cleanSQL ++ txt " LIMIT " ++ show_num finalLimit
                ++ txt " OFFSET " ++ show_num offset
  else cleanSQL ++ txt " LIMIT " ++ show_num offset
                ++ txt ", " ++ show_num finalLimit.

(** The statement [getTotalCount] sends. *)
Definition countSQL (originalSQL : text) : text :=
  let cleanSQL := replace_empty semicolonsRegex (trim originalSQL) in
  txt "SELECT COUNT(*) as total_count FROM (" ++ cleanSQL
    ++ txt ") as count_query".

(** ** JavaScript values and JSON *)

Inductive jsval : Type :=
| JUndef
| JNull
| JBool (b : bool)
| JNum (z : Z)
| JNaN
| JStr (s : text)
| JArr (items : list jsval)
| JObj (props : list (text * jsval)).

(** Truthiness, for [if (v)], [a || b] and [!!v]. *)
Definition truthy (v : jsval) : bool :=
  match v with
  | JUndef | JNull => false
  | JBool b => b
  | JNum z => negb (z =? 0)
  | JNaN => false
  | JStr s => match s with [] => false | _ => true end
  | JArr _ | JObj _ => true
  end.

Definition js_or (a b : jsval) : jsval := if truthy a then a else b.

Fixpoint assoc (k : text) (props : list (text * jsval)) : option jsval :=
  match props with
  | [] => None
  | (k', v) :: rest => if text_eqb k k' then Some v else assoc k rest
  end.

(** [v.name] for a name that is not an index or [length]: [TypeError] on
    [null] and [undefined], [undefined] where the property is absent. *)
Definition get_prop (v : jsval) (name : text) : outcome jsval :=
  match v with
  | JUndef | JNull =>
      Throw (TypeError (txt "Cannot read properties of null or undefined"))
  | JObj props => Ok (match assoc name props with Some x => x | None => JUndef end)
  | _ => Ok JUndef
  end.

(** [v?.name]. *)
Definition get_prop_opt (v : jsval) (name : text) : jsval :=
  match get_prop v name with
  | Ok x => x
  | Throw _ => JUndef
  end.

(** Writing a property: replaced in place when present, added last
    otherwise. *)
Fixpoint set_assoc (k : text) (v : jsval) (props : list (text * jsval))
    : list (text * jsval) :=
  match props with
  | [] => [(k, v)]
  | (k', v') :: rest =>
      if text_eqb k k' then (k, v) :: rest else (k', v') :: set_assoc k v rest
  end.

Fixpoint join (sep : text) (parts : list text) : text :=
  match parts with
  | [] => []
  | [p] => p
  | p :: rest => p ++ sep ++ join sep rest
  end.

(** [String(v)]. *)
Fixpoint to_string (v : jsval) : text :=
  match v with
  | JUndef => txt "undefined"
  | JNull => txt "null"
  | JBool true => txt "true"
  | JBool false => txt "false"
  | JNum z => show_Z z
  | JNaN => txt "NaN"
  | JStr s => s
  | JArr items =>
      join (txt ",")
        (map (fun x => match x with
                       | JUndef | JNull => []
                       | _ => to_string x
                       end) items)
  | JObj _ => txt "[object Object]"
  end.

Definition hex_char (n : N) : ascii :=
  if (n <? 10)%N then ascii_of_N (48 + n) else ascii_of_N (87 + n).

(** The quoting of [JSON.stringify]. *)
Definition json_escape (c : ascii) : text :=
  if ascii_eqb c dquote then ["\"%char; dquote]
  else if ascii_eqb c "\" then txt "\\"
  else if (code c =? 8)%N then txt "\b"
  else if (code c =? 12)%N then txt "\f"
  else if (code c =? 10)%N then txt "\n"
  else if (code c =? 13)%N then txt "\r"
  else if (code c =? 9)%N then txt "\t"
  else if (code c <? 32)%N
       then txt "\u00" ++ [hex_char (code c / 16); hex_char (code c mod 16)]
  else [c].

Definition json_quote (s : text) : text :=
  [dquote] ++ flat_map json_escape s ++ [dquote].

(** [JSON.stringify]; [None] is the [undefined] it returns for
    [undefined] itself.  Inside an array [undefined] is written [null],
    inside an object the property is left out; [NaN] is written
    [null]. *)
Fixpoint stringify (v : jsval) : option text :=
  match v with
  | JUndef => None
  | JNull => Some (txt "null")
  | JBool true => Some (txt "true")
  | JBool false => Some (txt "false")
  | JNum z => Some (show_Z z)
  | JNaN => Some (txt "null")
  | JStr s => Some (json_quote s)
  | JArr items =>
      Some ([ "["%char ]
            ++ join (txt ",")
                 (map (fun x => match stringify x with
                                | Some t => t
                                | None => txt "null"
                                end) items)
            ++ [ "]"%char ])
  | JObj props =>
      Some ([ "{"%char ]
            ++ join (txt ",")
                 (flat_map (fun kv => match stringify (snd kv) with
                                      | Some t => [json_quote (fst kv) ++ [":"%char] ++ t]
                                      | None => []
                                      end) props)
            ++ [ "}"%char ])
  end.

(** [JSON.parse].  The parser reads the JSON grammar with two limits of
    the model: a number with a fraction or an exponent, and a [\u]
    escape above U+00FF, denote values the model does not have and are
    refused. *)

Definition is_json_ws (c : ascii) : bool :=
  (code c =? 32)%N || (code c =? 9)%N || (code c =? 10)%N || (code c =? 13)%N.

Fixpoint skip_json_ws (s : text) : text :=
  match s with
  | c :: s' => if is_json_ws c then skip_json_ws s' else s
  | [] => []
  end.

Definition hex4 (a b c d : ascii) : option Z :=
  match hex_digit_value a, hex_digit_value b, hex_digit_value c, hex_digit_value d with
  | Some x, Some y, Some z, Some w => Some (((x * 16 + y) * 16 + z) * 16 + w)
  | _, _, _, _ => None
  end.

Definition simple_escape (e : ascii) : option ascii :=
  if ascii_eqb e dquote then Some dquote
  else if ascii_eqb e "\" then Some "\"%char
  else if ascii_eqb e "/" then Some "/"%char
  else if ascii_eqb e "b" then Some (ascii_of_N 8)
  else if ascii_eqb e "f" then Some (ascii_of_N 12)
  else if ascii_eqb e "n" then Some (ascii_of_N 10)
  else if ascii_eqb e "r" then Some (ascii_of_N 13)
  else if ascii_eqb e "t" then Some (ascii_of_N 9)
  else None.

(** The body of a string, after its opening quote: the characters read
    and the input after the closing quote. *)
Fixpoint parse_json_string (s : text) (acc : text) : option (text * text) :=
  match s with
  | [] => None
  | c :: s1 =>
      if ascii_eqb c dquote then Some (acc, s1)
      else if ascii_eqb c "\" then
        match s1 with
        | [] => None
        | e :: s2 =>
            if ascii_eqb e "u" then
              match s2 with
              | h1 :: h2 :: h3 :: h4 :: s3 =>
                  match hex4 h1 h2 h3 h4 with
                  | Some n =>
                      if n <? 256
                      then parse_json_string s3 (acc ++ [ascii_of_N (Z.to_N n)])
                      else None
                  | None => None
                  end
              | _ => None
              end
            else
              match simple_escape e with
              | Some x => parse_json_string s2 (acc ++ [x])
              | None => None
              end
        end
      else if (code c <? 32)%N then None
      else parse_json_string s1 (acc ++ [c])
  end.

Fixpoint span_digits (s : text) : text * text :=
  match s with
  | c :: s' =>
      if is_digit c then let '(ds, r) := span_digits s' in (c :: ds, r)
      else ([], s)
  | [] => ([], [])
  end.

(** An integer literal (an optional minus sign, then a single zero or a
    run of digits that does not start with zero), not followed by a
    fraction or an exponent. *)
Definition parse_json_number (s : text) : option (jsval * text) :=
  let '(neg, s1) :=
    match s with
    | "-"%char :: s' => (true, s')
    | _ => (false, s)
    end in
  let '(ds, r) := span_digits s1 in
  let integral :=
    match ds with
    | [] => false
    | "0"%char :: _ :: _ => false
    | _ => true
    end in
  let continues :=
    match r with
    | c :: _ => ascii_eqb c "." || ascii_eqb c "e" || ascii_eqb c "E"
    | [] => false
    end in
  if integral && negb continues
  then Some (JNum (if neg then - digits_value ds else digits_value ds), r)
  else None.

Definition parse_json_literal (s : text) : option (jsval * text) :=
  if startsWith (txt "null") s then Some (JNull, skipn 4 s)
  else if startsWith (txt "true") s then Some (JBool true, skipn 4 s)
  else if startsWith (txt "false") s then Some (JBool false, skipn 5 s)
  else parse_json_number s.

Fixpoint parse_value (fuel : nat) (s : text) : option (jsval * text) :=
  match fuel with
  | O => None
  | S fuel =>
      match skip_json_ws s with
      | [] => None
      | c :: s1 =>
          if ascii_eqb c "[" then
            match skip_json_ws s1 with
            | "]"%char :: s2 => Some (JArr [], s2)
            | _ => parse_items fuel s1 []
            end
          else if ascii_eqb c "{" then
            match skip_json_ws s1 with
            | "}"%char :: s2 => Some (JObj [], s2)
            | _ => parse_members fuel s1 []
            end
          else if ascii_eqb c dquote then
            match parse_json_string s1 [] with
            | Some (str, s2) => Some (JStr str, s2)
            | None => None
            end
          else parse_json_literal (c :: s1)
      end
  end
with parse_items (fuel : nat) (s : text) (acc : list jsval)
    : option (jsval * text) :=
  match fuel with
  | O => None
  | S fuel =>
      match parse_value fuel s with
      | Some (v, s1) =>
          match skip_json_ws s1 with
          | c :: s2 =>
              if ascii_eqb c "," then parse_items fuel s2 (acc ++ [v])
              else if ascii_eqb c "]" then Some (JArr (acc ++ [v]), s2)
              else None
          | [] => None
          end
      | None => None
      end
  end
with parse_members (fuel : nat) (s : text) (acc : list (text * jsval))
    : option (jsval * text) :=
  match fuel with
  | O => None
  | S fuel =>
      match skip_json_ws s with
      | q :: s1 =>
          if negb (ascii_eqb q dquote) then None else
          match parse_json_string s1 [] with
          | Some (key, s2) =>
              match skip_json_ws s2 with
              | ":"%char :: s3 =>
                  match parse_value fuel s3 with
                  | Some (v, s4) =>
                      match skip_json_ws s4 with
                      | c :: s5 =>
                          if ascii_eqb c ","
                          then parse_members fuel s5 (set_assoc key v acc)
                          else if ascii_eqb c "}"
                          then Some (JObj (set_assoc key v acc), s5)
                          else None
                      | [] => None
                      end
                  | None => None
                  end
              | _ => None
              end
          | None => None
          end
      | _ => None
      end
  end.

(** [None] is the [SyntaxError] of [JSON.parse].  Two units of fuel per
    character cover every chain of calls. *)
Definition JSON_parse (s : text) : option jsval :=
  match parse_value (2 * length s + 2) s with
  | Some (v, r) => match skip_json_ws r with [] => Some v | _ :: _ => None end
  | None => None
  end.

(** ** MD5, for the cache key ([crypto.createHash('md5')]) *)

Definition md5_shifts : list Z :=
  [7; 12; 17; 22; 7; 12; 17; 22; 7; 12; 17; 22; 7; 12; 17; 22;
   5; 9; 14; 20; 5; 9; 14; 20; 5; 9; 14; 20; 5; 9; 14; 20;
   4; 11; 16; 23; 4; 11; 16; 23; 4; 11; 16; 23; 4; 11; 16; 23;
   6; 10; 15; 21; 6; 10; 15; 21; 6; 10; 15; 21; 6; 10; 15; 21].

Definition md5_K : list Z :=
  [3614090360; 3905402710; 606105819; 3250441966; 4118548399; 1200080426;
   2821735955; 4249261313; 1770035416; 2336552879; 4294925233; 2304563134;
   1804603682; 4254626195; 2792965006; 1236535329; 4129170786; 3225465664;
   643717713; 3921069994; 3593408605; 38016083; 3634488961; 3889429448;
   568446438; 3275163606; 4107603335; 1163531501; 2850285829; 4243563512;
   1735328473; 2368359562; 4294588738; 2272392833; 1839030562; 4259657740;
   2763975236; 1272893353; 4139469664; 3200236656; 681279174; 3936430074;
   3572445317; 76029189; 3654602809; 3873151461; 530742520; 3299628645;
   4096336452; 1126891415; 2878612391; 4237533241; 1700485571; 2399980690;
   4293915773; 2240044497; 1873313359; 4264355552; 2734768916; 1309151649;
   4149444226; 3174756917; 718787259; 3951481745].

Definition w32 (z : Z) : Z := z mod 2 ^ 32.

Definition rotl32 (x c : Z) : Z :=
  w32 (Z.lor (Z.shiftl x c) (Z.shiftr x (32 - c))).

Definition not32 (x : Z) : Z := Z.lxor x (2 ^ 32 - 1).

Definition nthZ (l : list Z) (i : Z) : Z := nth (Z.to_nat i) l 0.

Definition md5_round (M : list Z) (st : Z * Z * Z * Z) (i : Z)
    : Z * Z * Z * Z :=
  let '(A, B, C, D) := st in
  let '(F, g) :=
    if i <? 16 then (Z.lor (Z.land B C) (Z.land (not32 B) D), i)
    else if i <? 32 then
      (Z.lor (Z.land D B) (Z.land (not32 D) C), (5 * i + 1) mod 16)
    else if i <? 48 then (Z.lxor (Z.lxor B C) D, (3 * i + 5) mod 16)
    else (Z.lxor C (Z.lor B (not32 D)), (7 * i) mod 16) in
  let F := w32 (F + A + nthZ md5_K i + nthZ M g) in
  (D, w32 (B + rotl32 F (nthZ md5_shifts i)), B, C).

Definition md5_chunk (st : Z * Z * Z * Z) (M : list Z) : Z * Z * Z * Z :=
  let '(a0, b0, c0, d0) := st in
  let '(A, B, C, D) :=
    fold_left (md5_round M) (map Z.of_nat (seq 0 64)) st in
  (w32 (a0 + A), w32 (b0 + B), w32 (c0 + C), w32 (d0 + D)).

(** Little-endian 32-bit words of a byte sequence. *)
Fixpoint le_words (bytes : list Z) : list Z :=
  match bytes with
  | b0 :: b1 :: b2 :: b3 :: rest =>
      (b0 + 256 * (b1 + 256 * (b2 + 256 * b3))) :: le_words rest
  | _ => []
  end.

Fixpoint chunks16 (fuel : nat) (ws : list Z) : list (list Z) :=
  match fuel, ws with
  | S fuel, _ :: _ => firstn 16 ws :: chunks16 fuel (skipn 16 ws)
  | _, _ => []
  end.

Definition le_bytes (n : nat) (z : Z) : list Z :=
  map (fun i => (z / 256 ^ Z.of_nat i) mod 256) (seq 0 n).

Definition md5_pad (msg : list Z) : list Z :=
  let len := Z.of_nat (length msg) in
  msg ++ [128] ++ repeat 0 (Z.to_nat ((55 - len) mod 64))
      ++ le_bytes 8 ((8 * len) mod 2 ^ 64).

Definition md5 (msg : list Z) : list Z :=
  let ws := le_words (md5_pad msg) in
  let '(a, b, c, d) :=
    fold_left md5_chunk (chunks16 (length ws) ws)
      (1732584193, 4023233417, 2562383102, 271733878) in
  le_bytes 4 a ++ le_bytes 4 b ++ le_bytes 4 c ++ le_bytes 4 d.

Definition hex_byte (b : Z) : text :=
  [hex_char (Z.to_N (b / 16)); hex_char (Z.to_N (b mod 16))].

(** The UTF-8 bytes [hash.update] takes from a string. *)
Definition utf8 (s : text) : list Z :=
  flat_map (fun c =>
    let n := Z.of_N (code c) in
    if n <? 128 then [n] else [192 + n / 64; 128 + n mod 64]) s.

Definition md5_hex (s : text) : text := flat_map hex_byte (md5 (utf8 s)).

Definition js_of_num (n : num) : jsval :=
  match n with
  | Int z => JNum z
  | NaN => JNaN
  end.

(** ** The process and its collaborators *)

Record metrics : Type := Metrics {
  hits : Z;
  misses : Z;
  errors : Z;
  totalRequests : Z
}.

(** A column as the driver describes it. *)
Record field : Type := Field {
  f_name : jsval;
  f_dataTypeID : jsval;
  f_type : jsval
}.

(** What the database driver returns for a statement: the rows, and the
    columns when it reports them. *)
Record dbresult : Type := DbResult {
  db_rows : list jsval;
  db_fields : option (list field)
}.

(** The state a request runs in.  [driver] is the answer of the
    connection pool to each statement and [sent] the statements it has
    received, oldest first; each of them takes [latency] milliseconds of
    the clock [now].  [store] is the content of the Redis server (expiry
    is not modelled: an entry stays until it is deleted), [client_up]
    tells whether its commands succeed. *)
Record world : Type := World {
  DB_TYPE : option text;
  driver : text -> outcome dbresult;
  sent : list text;
  now : Z;
  latency : Z;
  isConnected : bool;
  client_up : bool;
  store : gmap text text;
  cache_metrics : metrics
}.

Definition with_sent (w : world) (l : list text) (t : Z) : world :=
  World (DB_TYPE w) (driver w) l t (latency w) (isConnected w)
        (client_up w) (store w) (cache_metrics w).

Definition with_store (w : world) (m : gmap text text) : world :=
  World (DB_TYPE w) (driver w) (sent w) (now w) (latency w) (isConnected w)
        (client_up w) m (cache_metrics w).

Definition with_metrics (w : world) (m : metrics) : world :=
  World (DB_TYPE w) (driver w) (sent w) (now w) (latency w) (isConnected w)
        (client_up w) (store w) m.

(** Computations that read and change the world and may raise. *)
Definition M (A : Type) : Type := world -> outcome A * world.

Definition ret {A} (a : A) : M A := fun w => (Ok a, w).

Definition throw {A} (e : exn) : M A := fun w => (Throw e, w).

Definition bind {A B} (m : M A) (f : A -> M B) : M B :=
  fun w =>
    match m w with
    | (Ok a, w') => f a w'
    | (Throw e, w') => (Throw e, w')
    end.

(** [try { m } catch (e) { h e }] *)
Definition try_catch {A} (m : M A) (h : exn -> M A) : M A :=
  fun w =>
    match m w with
    | (Ok a, w') => (Ok a, w')
    | (Throw e, w') => h e w'
    end.

Definition lift {A} (o : outcome A) : M A := fun w => (o, w).

Definition read {A} (f : world -> A) : M A := fun w => (Ok (f w), w).

Definition when (b : bool) (m : M unit) : M unit := if b then m else ret tt.

Declare Scope m_scope.
Delimit Scope m_scope with M.
Notation "x <- m ;; k" := (bind m (fun x => k))
  (at level 100, m at next level, right associativity) : m_scope.
Notation "m ;;; k" := (bind m (fun _ => k))
  (at level 100, right associativity) : m_scope.
Local Open Scope m_scope.

(** [Date.now()] *)
Definition Date_now : M Z := read now.

(** *** The database ([DatabaseConfig.query]) *)

Definition database_query (statement : text) : M dbresult :=
  fun w =>
    let dbType := env_or (DB_TYPE w) (txt "postgresql") in
    if text_eqb dbType (txt "postgresql") || text_eqb dbType (txt "mysql")
    then (driver w statement,
          with_sent w (sent w ++ [statement]) (now w + latency w))
    else (Throw (Error (txt "Unsupported database type: " ++ dbType)), w).

(** *** The Redis wrapper ([RedisConfig]) *)

Definition client_get (key : text) : M (option text) :=
  fun w =>
    if client_up w then (Ok (store w !! key), w)
    else (Throw (Error (txt "The client is closed")), w).

Definition client_del (key : text) : M unit :=
  fun w =>
    if client_up w then (Ok tt, with_store w (delete key (store w)))
    else (Throw (Error (txt "The client is closed")), w).

Definition client_setEx (key : text) (ttl : Z) (value : text) : M unit :=
  fun w =>
    if client_up w then (Ok tt, with_store w (<[key := value]> (store w)))
    else (Throw (Error (txt "The client is closed")), w).

Definition redis_get (key : text) : M jsval :=
  try_catch
    (connected <- read isConnected ;;
     if negb connected then ret JNull
     else
       value <- client_get key ;;
       match value with
       | Some (c :: s) =>
           match JSON_parse (c :: s) with
           | Some v => ret v
           | None => client_del key ;;; ret JNull
           end
       | _ => ret JNull
       end)
    (fun _ => ret JNull).

Definition redis_set (key : text) (value : jsval) (ttl : Z) : M bool :=
  try_catch
    (connected <- read isConnected ;;
     if negb connected then ret false
     else
       match stringify value with
       | Some serialized => client_setEx key ttl serialized ;;; ret true
       | None => throw (TypeError (txt "Invalid argument type"))
       end)
    (fun _ => ret false).

Definition redis_del (key : text) : M bool :=
  try_catch
    (connected <- read isConnected ;;
     if negb connected then ret false
     else client_del key ;;; ret true)
    (fun _ => ret false).

(** ** The cache layer ([CacheService]) *)

Record get_options : Type := GetOptions {
  fallback : jsval;
  trackMetrics : bool;
  parseJSON : bool
}.

(** [options = {}] *)
Definition get_defaults : get_options := GetOptions JNull true true.

Record set_options : Type := SetOptions {
  compress : bool;
  maxSize : Z;
  stringifyJSON : bool
}.

Definition set_defaults : set_options := SetOptions false (1024 * 1024) true.

Definition bump_hits : M unit := fun w =>
  let m := cache_metrics w in
  (Ok tt, with_metrics w (Metrics (hits m + 1) (misses m) (errors m) (totalRequests m))).

Definition bump_misses : M unit := fun w =>
  let m := cache_metrics w in
  (Ok tt, with_metrics w (Metrics (hits m) (misses m + 1) (errors m) (totalRequests m))).

Definition bump_errors : M unit := fun w =>
  let m := cache_metrics w in
  (Ok tt, with_metrics w (Metrics (hits m) (misses m) (errors m + 1) (totalRequests m))).

Definition bump_totalRequests : M unit := fun w =>
  let m := cache_metrics w in
  (Ok tt, with_metrics w (Metrics (hits m) (misses m) (errors m) (totalRequests m + 1))).

(** [this.del(key)] inside [CacheService.get].  The class declares [get],
    [set], [getOrSet], [mget], [mset], [delPattern], [getStats],
    [resetStats], [warmCache] and [healthCheck], and nothing adds to its
    instance: [this.del] is [undefined], and calling it raises. *)
Definition this_del (key : text) : M unit :=
  throw (TypeError (txt "this.del is not a function")).

(** [value !== null] *)
Definition not_null (v : jsval) : bool :=
  match v with
  | JNull => false
  | _ => true
  end.

Definition cache_get (key : text) (options : get_options) : M jsval :=
  bump_totalRequests ;;;
  try_catch
    (value <- redis_get key ;;
     if not_null value then
       when (trackMetrics options) bump_hits ;;;
       match parseJSON options, value with
       | true, JStr s =>
           match JSON_parse s with
           | Some v => ret v
           | None =>
               (* Auto-cleanup corrupted cache entry *)
               this_del key ;;;
               when (trackMetrics options) bump_errors ;;;
               ret (fallback options)
           end
       | _, _ => ret value
       end
     else
       when (trackMetrics options) bump_misses ;;;
       ret (fallback options))
    (fun _ =>
       when (trackMetrics options) bump_errors ;;;
       ret (fallback options)).

(** [v.length]: [TypeError] on [null] and [undefined], [None] where the
    value has no such property. *)
Definition js_length (v : jsval) : outcome (option Z) :=
  match v with
  | JUndef | JNull =>
      Throw (TypeError (txt "Cannot read properties of null or undefined"))
  | JStr s => Ok (Some (Z.of_nat (length s)))
  | JArr items => Ok (Some (Z.of_nat (length items)))
  | _ => Ok None
  end.

Section Services.

(** [zlib.gzipSync(s).toString('base64')], a function of the platform. *)
Variable gzip_base64 : text -> text.

Definition zlib_gzip_base64 (v : jsval) : outcome jsval :=
  match v with
  | JStr s => Ok (JStr (gzip_base64 s))
  | _ => Throw (TypeError (txt "The argument must be of type string or a Buffer"))
  end.

Definition cache_set (key : text) (value : jsval) (ttl : Z)
    (options : set_options) : M bool :=
  try_catch
    (let serializedValue :=
       if stringifyJSON options
       then match stringify value with Some t => JStr t | None => JUndef end
       else value in
     len <- lift (js_length serializedValue) ;;
     (* Check size and optionally compress *)
     if match len with Some n => maxSize options <? n | None => false end then
       if compress options then
         compressed <- lift (zlib_gzip_base64 serializedValue) ;;
         redis_set (key ++ txt ":compressed") compressed ttl ;;;
         ret true
       else ret false
     else
       redis_set key serializedValue ttl ;;;
       ret true)
    (fun _ => ret false).

(** ** The executor ([QueryExecutionService]) *)

Definition cachePrefix : text := txt "query:result:".
Definition cacheTTL : Z := 300.
Definition defaultPageSize : Z := 50.

Record query_options : Type := QueryOptions {
  opt_page : option num;
  opt_pageSize : option num;
  opt_useCache : option bool;
  opt_dryRun : option bool
}.

Record pagination : Type := Pagination {
  pg_page : num;
  pg_pageSize : num;
  pg_totalRows : num;
  pg_totalPages : num;
  pg_hasNextPage : bool;
  pg_hasPreviousPage : bool
}.

Record metadata : Type := Metadata {
  md_executionTime : Z;
  md_rowCount : Z;
  md_fields : list (jsval * jsval)      (* name and type of each column *)
}.

Record QueryResult : Type := MkQueryResult {
  qr_rows : list jsval;
  qr_pagination : pagination;
  qr_metadata : metadata;
  qr_fromCache : bool
}.

Record cost : Type := Cost {
  startupCost : option jsval;
  totalCost : jsval;
  estimatedRows : jsval
}.

Record ExplainResult : Type := MkExplainResult {
  explainPlan : option (list jsval);
  isValid : bool;
  estimatedCost : option cost;
  explainError : option text;
  warnings : list text
}.

(** What [executeQuery] resolves to: a fresh result, a cached object
    with [fromCache] set, or the outcome of a dry run. *)
Inductive response : Type :=
| Fresh (r : QueryResult)
| Cached (v : jsval)
| Explained (e : ExplainResult).

(** The object a result is, as [JSON.stringify] meets it. *)
Definition js_of_result (r : QueryResult) : jsval :=
  let p := qr_pagination r in
  let m := qr_metadata r in
  JObj
    [ (txt "rows", JArr (qr_rows r));
      (txt "pagination",
       JObj [ (txt "page", js_of_num (pg_page p));
              (txt "pageSize", js_of_num (pg_pageSize p));
              (txt "totalRows", js_of_num (pg_totalRows p));
              (txt "totalPages", js_of_num (pg_totalPages p));
              (txt "hasNextPage", JBool (pg_hasNextPage p));
              (txt "hasPreviousPage", JBool (pg_hasPreviousPage p)) ]);
      (txt "metadata",
       JObj [ (txt "executionTime", JNum (md_executionTime m));
              (txt "rowCount", JNum (md_rowCount m));
              (txt "fields",
               JArr (map (fun f => JObj [ (txt "name", fst f);
                                          (txt "type", snd f) ])
                         (md_fields m))) ]);
      (txt "fromCache", JBool (qr_fromCache r)) ].

Definition generateCacheKey (sql : text) (page pageSize : num) : text :=
  let queryHash :=
    md5_hex (sql ++ txt ":" ++ show_num page ++ txt ":" ++ show_num pageSize) in
  cachePrefix ++ queryHash.

Definition getTotalCount (originalSQL : text) : M num :=
  try_catch
    (result <- database_query (countSQL originalSQL) ;;
     let row := hd JUndef (db_rows result) in
     lower <- lift (get_prop row (txt "total_count")) ;;
     v <- (if truthy lower then ret lower
           else upper <- lift (get_prop row (txt "TOTAL_COUNT")) ;;
                ret (js_or upper (JNum 0))) ;;
     ret (parseInt (to_string v)))
    (fun _ => ret (Int 0)).

(** [result.fields?.map(field => ({ name, type })) || []] *)
Definition normalize_fields (fields : option (list field))
    : list (jsval * jsval) :=
  match fields with
  | Some fs => map (fun f => (f_name f, js_or (f_dataTypeID f) (f_type f))) fs
  | None => []
  end.

Definition executeWithPagination (sql : text) (page pageSize : num)
    : M QueryResult :=
  startTime <- Date_now ;;
  (* Validate pagination parameters *)
  let page := if num_ltb page (Int 1) then Int 1 else page in
  let pageSize :=
    if num_ltb pageSize (Int 1) || num_gtb pageSize (Int 100)
    then Int defaultPageSize else pageSize in
  let offset := num_mul (num_sub page (Int 1)) pageSize in
  dbType <- read DB_TYPE ;;
  let paginatedSQL := addPaginationToSQL dbType sql pageSize offset in
  try_catch
    (result <- database_query paginatedSQL ;;
     totalCount <- getTotalCount sql ;;
     endTime <- Date_now ;;
     let executionTime := endTime - startTime in
     let fields := normalize_fields (db_fields result) in
     ret (MkQueryResult
            (db_rows result)
            (Pagination page pageSize totalCount
               (num_ceil_div totalCount pageSize)
               (num_ltb page (num_ceil_div totalCount pageSize))
               (num_gtb page (Int 1)))
            (Metadata executionTime (Z.of_nat (length (db_rows result))) fields)
            false))
    (fun error =>
       throw (Error (txt "Query execution failed: " ++ exn_message error))).

Definition default_cost : cost := Cost None (JNum 0) (JNum 0).

Definition extractCostFromPlan (planRows : list jsval) : cost :=
  match planRows with
  | first :: _ =>
      let parsed :=
        match first with
        | JStr s => JSON_parse s
        | _ => Some first
        end in
      match parsed with
      | None => default_cost
      | Some plan =>
          match get_prop plan (txt "Plan") with
          | Throw _ => default_cost
          | Ok thePlan =>
              if truthy thePlan then
                (* PostgreSQL format *)
                Cost (Some (get_prop_opt thePlan (txt "Startup Cost")))
                     (get_prop_opt thePlan (txt "Total Cost"))
                     (get_prop_opt thePlan (txt "Plan Rows"))
              else
                let query_block := get_prop_opt plan (txt "query_block") in
                if truthy query_block then
                  (* MySQL format *)
                  let cost_info := get_prop_opt query_block (txt "cost_info") in
                  Cost None
                       (js_or (get_prop_opt cost_info (txt "eval_cost")) (JNum 0))
                       (js_or (get_prop_opt cost_info (txt "read_cost")) (JNum 0))
                else default_cost
          end
      end
  | [] => default_cost
  end.

Definition analyzeExecutionPlan (planRows : list jsval) : list text :=
  match stringify (JArr planRows) with
  | None => []
  | Some serialized =>
      let planText := toLowerCase serialized in
      (if includes (txt "seq scan") planText || includes (txt "table scan") planText
       then [txt "Query performs full table scan - consider adding indexes"]
       else [])
      ++ (if includes (txt "nested loop") planText && includes (txt "large") planText
          then [txt "Query uses nested loops on large datasets - performance may be slow"]
          else [])
      ++ (if includes (txt "sort") planText && includes (txt "disk") planText
          then [txt "Query requires disk-based sorting - consider optimizing"]
          else [])
  end.

Definition explainQuery (sql : text) : M ExplainResult :=
  try_catch
    (env <- read DB_TYPE ;;
     let dbType := env_or env (txt "postgresql") in
     explainSQL <-
       (if text_eqb dbType (txt "postgresql")
        then ret (txt "EXPLAIN (FORMAT JSON, ANALYZE false) " ++ sql)
        else if text_eqb dbType (txt "mysql")
        then ret (txt "EXPLAIN FORMAT=JSON " ++ sql)
        else throw (Error (txt "Explain not supported for database type: "
                             ++ dbType))) ;;
     result <- database_query explainSQL ;;
     ret (MkExplainResult
            (Some (db_rows result))
            true
            (Some (extractCostFromPlan (db_rows result)))
            None
            (analyzeExecutionPlan (db_rows result))))
    (fun error =>
       ret (MkExplainResult None false None (Some (exn_message error))
              [txt "Query validation failed"])).

(** The own enumerable properties a spread copies. *)
Definition own_props (v : jsval) : list (text * jsval) :=
  match v with
  | JObj props => props
  | JArr items =>
      map (fun iv => (show_Z (Z.of_nat (fst iv)), snd iv))
          (combine (seq 0 (length items)) items)
  | JStr s =>
      map (fun ic => (show_Z (Z.of_nat (fst ic)), JStr [snd ic]))
          (combine (seq 0 (length s)) s)
  | _ => []
  end.

Definition executeQuery (sql : text) (options : query_options) : M response :=
  try_catch
    (let page := default (Int 1) (opt_page options) in
     let pageSize := default (Int defaultPageSize) (opt_pageSize options) in
     let useCache := default true (opt_useCache options) in
     let dryRun := default false (opt_dryRun options) in
     let uncached : M response :=
       if dryRun then
         (* Dry run - explain plan only *)
         e <- explainQuery sql ;;
         ret (Explained e)
       else
         (* Execute the actual query *)
         result <- executeWithPagination sql page pageSize ;;
         (* Cache the result *)
         when (useCache && (0 <? Z.of_nat (length (qr_rows result))))
              (cache_set (generateCacheKey sql page pageSize)
                         (js_of_result result) cacheTTL set_defaults ;;;
               ret tt) ;;;
         ret (Fresh result) in
     (* Security validation *)
     lift (validateQuery sql) ;;;
     (* Check cache first (if not dry run) *)
     if useCache && negb dryRun then
       cachedResult <- cache_get (generateCacheKey sql page pageSize)
                                 get_defaults ;;
       if truthy cachedResult then
         ret (Cached (JObj (set_assoc (txt "fromCache") (JBool true)
                              (own_props cachedResult))))
       else uncached
     else uncached)
    (fun error => throw error).

End Services.

(** ** What a pattern matches

    [Match r p m post cs]: the pattern [r] matches the text [m] when the
    character before it is [p] and the text after it is [post], closing
    the captures [cs], first closed first. *)

Definition last_char (p : option ascii) (m : text) : option ascii :=
  match last m with
  | Some c => Some c
  | None => p
  end.

Inductive Match : re -> option ascii -> text -> text -> list text -> Prop :=
| MChar cl p x post :
    cmatch cl x = true -> Match (RChar cl) p [x] post []
| MEmpty p post : Match REmpty p [] post []
| MSeq r1 r2 p m1 m2 post cs1 cs2 :
    Match r1 p m1 (m2 ++ post) cs1 ->
    Match r2 (last_char p m1) m2 post cs2 ->
    Match (RSeq r1 r2) p (m1 ++ m2) post (cs1 ++ cs2)
| MAltL r1 r2 p m post cs :
    Match r1 p m post cs -> Match (RAlt r1 r2) p m post cs
| MAltR r1 r2 p m post cs :
    Match r2 p m post cs -> Match (RAlt r1 r2) p m post cs
| MStar cl p m post :
    forallb (cmatch cl) m = true -> Match (RStar cl) p m post []
| MGroup r p m post cs :
    Match r p m post cs -> Match (RGroup r) p m post (cs ++ [m])
| MWordB p post :
    at_boundary p post = true -> Match RWordB p [] post []
| MEnd p : Match REnd p [] [] [].

(** The text contains a match of the pattern. *)
Definition Matches (r : re) (s : text) : Prop :=
  exists before m after cs,
    s = before ++ m ++ after /\ Match r (last_char None before) m after cs.

(** [kw] stands in [s] as a whole word, letter case apart: between two
    places where a word starts or ends. *)
Definition whole_word (kw s : text) : Prop :=
  exists before m after,
    s = before ++ m ++ after /\
    map canonicalize m = map canonicalize kw /\
    at_boundary (last_char None before) (m ++ after) = true /\
    at_boundary (last_char None (before ++ m)) after = true.

(** ** The shapes the specification names

    Texts are compared with a keyword letter case apart, as the [i] flag
    does. *)

Definition is_keyword (kw m : text) : Prop :=
  map canonicalize m = map canonicalize kw.

Definition spaces (ws : text) : Prop :=
  ws <> [] /\ forallb is_space ws = true.

Definition digits (ds : text) : Prop :=
  ds <> [] /\ forallb is_digit ds = true.

(** A clause [LIMIT n] or [LIMIT n OFFSET m], with the white space before
    it. *)
Inductive limit_clause (n : Z) : text -> Prop :=
| clause_limit ws1 l ws2 ds :
    spaces ws1 -> is_keyword (txt "LIMIT") l -> spaces ws2 -> digits ds ->
    n = digits_value ds ->
    limit_clause n (ws1 ++ l ++ ws2 ++ ds)
| clause_limit_offset ws1 l ws2 ds ws3 o ws4 ds' :
    spaces ws1 -> is_keyword (txt "LIMIT") l -> spaces ws2 -> digits ds ->
    spaces ws3 -> is_keyword (txt "OFFSET") o -> spaces ws4 -> digits ds' ->
    n = digits_value ds ->
    limit_clause n (ws1 ++ l ++ ws2 ++ ds ++ ws3 ++ o ++ ws4 ++ ds').

(** The injection shapes: a [#]; [--] followed by white space; a block
    comment on one line; [UNION SELECT]; a semicolon followed by a
    mutating keyword. *)
Inductive injection_shape : text -> Prop :=
| shape_hash b a :
    injection_shape (b ++ txt "#" ++ a)
| shape_line_comment b c a :
    is_space c = true ->
    injection_shape (b ++ txt "--" ++ c :: a)
| shape_block_comment b mid a :
    forallb (fun c => negb (is_newline c)) mid = true ->
    injection_shape (b ++ txt "/*" ++ mid ++ txt "*/" ++ a)
| shape_union_select b u ws s a :
    is_keyword (txt "union") u -> spaces ws -> is_keyword (txt "select") s ->
    injection_shape (b ++ u ++ ws ++ s ++ a)
| shape_stacked b ws k kw a :
    In kw (map txt ["drop"; "delete"; "update"; "insert"; "create"; "alter"]%string) ->
    forallb is_space ws = true -> is_keyword kw k ->
    injection_shape (b ++ txt ";" ++ ws ++ k ++ a).

(** The dialect the rewriter writes for. *)
Definition postgresql (DB_TYPE : option text) : bool :=
  text_eqb (env_or DB_TYPE (txt "postgresql")) (txt "postgresql").

(** A keyword that starts and ends with a word character. *)
Definition keyword_ok (kw : text) : bool :=
  opt_is_word (head kw) && opt_is_word (last kw).

(** The first check of the validator. *)
Definition begins_with_select (sql : text) : bool :=
  startsWith (txt "select") (toLowerCase (trim sql)).

(** ** Reading the counters *)

Definition hit_only (m m' : metrics) : Prop :=
  hits m' = hits m + 1 /\ misses m' = misses m /\ errors m' = errors m.

Definition miss_only (m m' : metrics) : Prop :=
  hits m' = hits m /\ misses m' = misses m + 1 /\ errors m' = errors m.

Definition error_only (m m' : metrics) : Prop :=
  hits m' = hits m /\ misses m' = misses m /\ errors m' = errors m + 1.

Definition hit_and_error (m m' : metrics) : Prop :=
  hits m' = hits m + 1 /\ misses m' = misses m /\ errors m' = errors m + 1.

(** ** Parameters after clamping, and what a request is keyed on *)

Definition clamp_page (page : num) : num :=
  if num_ltb page (Int 1) then Int 1 else page.

Definition clamp_pageSize (pageSize : num) : num :=
  if num_ltb pageSize (Int 1) || num_gtb pageSize (Int 100)
  then Int defaultPageSize else pageSize.

Definition request_page (options : query_options) : num :=
  default (Int 1) (opt_page options).

Definition request_pageSize (options : query_options) : num :=
  default (Int defaultPageSize) (opt_pageSize options).

Definition request_key (sql : text) (options : query_options) : text :=
  generateCacheKey sql (request_page options) (request_pageSize options).

(** The request finds a value to return in the cache. *)
Definition served_from_cache (sql : text) (options : query_options)
    (w : world) : bool :=
  default true (opt_useCache options)
  && negb (default false (opt_dryRun options))
  && match fst (cache_get (request_key sql options) get_defaults w) with
     | Ok v => truthy v
     | Throw _ => false
     end.

(** The statement a page of a query is fetched with. *)
Definition paginatedSQL (DB_TYPE : option text) (sql : text)
    (page pageSize : num) : text :=
  addPaginationToSQL DB_TYPE sql (clamp_pageSize pageSize)
    (num_mul (num_sub (clamp_page page) (Int 1)) (clamp_pageSize pageSize)).

(** The database types the pool is built for. *)
Definition supported (DB_TYPE : option text) : bool :=
  let dbType := env_or DB_TYPE (txt "postgresql") in
  text_eqb dbType (txt "postgresql") || text_eqb dbType (txt "mysql").

(** The count query fails: the driver rejects it, or its result has no
    first row to read the count from. *)
Definition count_fails (d : text -> outcome dbresult) (sql : text) : Prop :=
  match d (countSQL sql) with
  | Throw _ => True
  | Ok r =>
      match hd JUndef (db_rows r) with
      | JUndef | JNull => True
      | _ => False
      end
  end.

(** The statement a dry run sends. *)
Definition explainSQL (DB_TYPE : option text) (sql : text) : text :=
  if postgresql DB_TYPE
  then txt "EXPLAIN (FORMAT JSON, ANALYZE false) " ++ sql
  else txt "EXPLAIN FORMAT=JSON " ++ sql.

(** ** States to run the model on *)

Definition no_metrics : metrics := Metrics 0 0 0 0.

(** A server that is up, with the given driver and store. *)
Definition running (d : text -> outcome dbresult) (m : gmap text text)
    : world :=
  World None d [] 0 1 true true m no_metrics.

(** A driver that returns one row for every statement. *)
Definition one_row_driver (statement : text) : outcome dbresult :=
  Ok (DbResult [JObj [(txt "id", JNum 1)]] None).

(** A driver that returns one row for every statement but a count, which
    it rejects. *)
Definition no_count_driver (statement : text) : outcome dbresult :=
  if startsWith (txt "SELECT COUNT(*)") statement
  then Throw (Error (txt "canceling statement due to statement timeout"))
  else Ok (DbResult [JObj [(txt "id", JNum 1)]] None).

(** A stand-in for the compressor where an example needs one. *)
Definition some_gzip (s : text) : text := txt "H4sIAAAAAAAAA" ++ rev s.

Definition no_options : query_options := QueryOptions None None None None.

(** A store whose only entry decodes to a string that is not JSON, as
    [set] leaves it when it is given a string and told not to stringify
    it. *)
Definition unparsable_store : gmap text text :=
  {[ txt "greeting" := txtq "'hello'" ]}.

(** ** What a computation leaves alone *)

(** [m] takes every state to one related to it by [R]. *)
Definition preserves {A} (R : world -> world -> Prop) (m : M A) : Prop :=
  forall w, R w (snd (m w)).

(** The entries of the store other than that of [key] are the same. *)
Definition same_but (key : text) (w w' : world) : Prop :=
  forall k, k <> key -> store w' !! k = store w !! k.

Definition same_store (w w' : world) : Prop := store w' = store w.

(** The statements sent so far stay, in their order. *)
Definition sent_extends (w w' : world) : Prop :=
  exists more, sent w' = sent w ++ more.

(** The result of a page whose count query failed. *)
Definition uncounted_page (page pageSize : num) (result : dbresult)
    (elapsed : Z) : QueryResult :=
  MkQueryResult
    (db_rows result)
    (Pagination (clamp_page page) (clamp_pageSize pageSize) (Int 0)
       (num_ceil_div (Int 0) (clamp_pageSize pageSize)) false
       (num_gtb (clamp_page page) (Int 1)))
    (Metadata elapsed (Z.of_nat (length (db_rows result)))
       (normalize_fields (db_fields result)))
    false.

(** * More of the services *)

(** ** Values that JSON can carry

    [undefined] and [NaN] have no JSON form of their own, and an object
    read back from JSON has each key once. *)

Fixpoint distinct (keys : list text) : bool :=
  match keys with
  | [] => true
  | k :: rest => negb (existsb (text_eqb k) rest) && distinct rest
  end.

Fixpoint is_json (v : jsval) : bool :=
  match v with
  | JUndef | JNaN => false
  | JNull | JBool _ | JNum _ | JStr _ => true
  | JArr items => forallb is_json items
  | JObj props =>
      forallb (fun kv => is_json (snd kv)) props && distinct (map fst props)
  end.

(** The fuel the parser uses on the text of a value. *)
Fixpoint need (v : jsval) : nat :=
  match v with
  | JArr items =>
      S ((fix need_items (l : list jsval) : nat :=
            match l with
            | [] => 0%nat
            | x :: l' => S (Nat.max (need x) (need_items l'))
            end) items)
  | JObj props =>
      S ((fix need_members (l : list (text * jsval)) : nat :=
            match l with
            | [] => 0%nat
            | kv :: l' => S (Nat.max (need (snd kv)) (need_members l'))
            end) props)
  | _ => 1%nat
  end.

Fixpoint need_items (l : list jsval) : nat :=
  match l with
  | [] => 0%nat
  | x :: l' => S (Nat.max (need x) (need_items l'))
  end.

Fixpoint need_members (l : list (text * jsval)) : nat :=
  match l with
  | [] => 0%nat
  | kv :: l' => S (Nat.max (need (snd kv)) (need_members l'))
  end.

(** The characters that may follow a value inside a JSON text. *)
Definition follows (rest : text) : bool :=
  match rest with
  | [] => true
  | c :: _ => ascii_eqb c "," || ascii_eqb c "]" || ascii_eqb c "}"
  end.

(** The digits of a decimal number of the standard library. *)
Definition uint_chars (d : Decimal.uint) : text :=
  txt (NilEmpty.string_of_uint d).

(** The number parser after the sign, as [parse_json_number] continues. *)
Definition read_number (neg : bool) (s1 : text) : option (jsval * text) :=
  let '(ds, r) := span_digits s1 in
  let integral :=
    match ds with
    | [] => false
    | "0"%char :: _ :: _ => false
    | _ => true
    end in
  let continues :=
    match r with
    | c :: _ => ascii_eqb c "." || ascii_eqb c "e" || ascii_eqb c "E"
    | [] => false
    end in
  if integral && negb continues
  then Some (JNum (if neg then - digits_value ds else digits_value ds), r)
  else None.

(** The JSON text of a value, [null] for [undefined]. *)
Definition str (v : jsval) : text :=
  match stringify v with
  | Some t => t
  | None => txt "null"
  end.

(** The text of a member of an object. *)
Definition member_text (kv : text * jsval) : text :=
  json_quote (fst kv) ++ [":"%char] ++ str (snd kv).

(** The text of a value is read back as the value, by a parser with the
    fuel the value needs, up to the text that follows. *)
Definition reads_back (v : jsval) : Prop :=
  is_json v = true ->
  forall fuel rest,
    (need v <= fuel)%nat -> follows rest = true ->
    parse_value fuel (str v ++ rest) = Some (v, rest).

(** ** The rest of the Redis wrapper ([RedisConfig.flush]) *)

Definition client_flushAll : M unit :=
  fun w =>
    if client_up w then (Ok tt, with_store w ∅)
    else (Throw (Error (txt "The client is closed")), w).

Definition redis_flush : M bool :=
  try_catch
    (connected <- read isConnected ;;
     if negb connected then ret false
     else client_flushAll ;;; ret true)
    (fun _ => ret false).

(** ** The rest of the cache layer ([CacheService]) *)

(** [v !== undefined] *)
Definition not_undefined (v : jsval) : bool :=
  match v with
  | JUndef => false
  | _ => true
  end.

Definition resetStats : M unit :=
  fun w => (Ok tt, with_metrics w (Metrics 0 0 0 0)).

Section CacheAside.

Variable gzip_base64 : text -> text.

(** [getOrSet] hands its one [options] object to [get] and to [set];
    each reads its own three properties of it, here the two components
    of a pair. *)
Definition getOrSet (key : text) (fetchFunction : M jsval) (ttl : Z)
    (options : get_options * set_options) : M jsval :=
  try_catch
    ((* Try to get from cache first *)
     cached <- cache_get key (fst options) ;;
     if not_null cached then ret cached
     else
       (* Cache miss - fetch fresh data *)
       freshData <- fetchFunction ;;
       when (not_null freshData && not_undefined freshData)
            (cache_set gzip_base64 key freshData ttl (snd options) ;;; ret tt) ;;;
       ret freshData)
    (fun error => throw error).

(** [KEYS pattern], with the matching of the server, a function of the
    platform: [glob pattern key] tells whether the key matches. *)
Variable glob : text -> text -> bool.

Definition client_keys (pattern : text) : M (list text) :=
  fun w =>
    if client_up w
    then (Ok (List.filter (glob pattern) (map fst (map_to_list (store w)))), w)
    else (Throw (Error (txt "The client is closed")), w).

(** [client.del(...keys)], the keys spread over the arguments of one
    call.  The client is node-redis, as [createClient], [connect] and
    [setEx] in the wrapper show: its [del] takes the keys in its first
    argument, one key or an array of keys, and does not look at the
    arguments after it.  The key removed is the first. *)
Definition client_del_spread (keys : list text) : M unit :=
  fun w =>
    if client_up w then
      match keys with
      | first :: _ => (Ok tt, with_store w (delete first (store w)))
      | [] => (Throw (Error (txt "ERR wrong number of arguments for 'del' command")), w)
      end
    else (Throw (Error (txt "The client is closed")), w).

Definition delPattern (pattern : text) : M Z :=
  try_catch
    (keys <- client_keys pattern ;;
     when (0 <? Z.of_nat (length keys)) (client_del_spread keys) ;;;
     ret (Z.of_nat (length keys)))
    (fun _ => ret 0).

End CacheAside.

(** ** Readings of the state *)

(** The cache is as it was: its entries and its counters. *)
Definition same_cache (w w' : world) : Prop :=
  store w' = store w /\ cache_metrics w' = cache_metrics w.

(** The server answers: the wrapper has seen it connect and its
    commands succeed. *)
Definition redis_up (w : world) : bool := isConnected w && client_up w.

(** The size [set] compares with [maxSize]. *)
Definition json_size (v : jsval) : Z := Z.of_nat (length (str v)).

(** A glob that takes a key by its prefix, for the examples. *)
Definition prefix_glob (pattern key : text) : bool :=
  match rev pattern with
  | "*"%char :: p => startsWith (rev p) key
  | _ => text_eqb pattern key
  end.

(** Only the database has been asked: the statements sent and the clock
    apart, the state is as it was. *)
Definition db_only (w w' : world) : Prop :=
  w' = with_sent w (sent w') (now w').

(** No entry has been written: whatever the store holds, it held
    before. *)
Definition nothing_written (w w' : world) : Prop :=
  forall k v, store w' !! k = Some v -> store w !! k = Some v.

(** The counters add up: every request counted is a hit or a miss, and
    an error is counted on a hit only. *)
Definition counted (m : metrics) : Prop :=
  hits m + misses m = totalRequests m /\ errors m <= hits m.

Definition keeps_count (w w' : world) : Prop :=
  counted (cache_metrics w) -> counted (cache_metrics w').

(** A result as the cache returns it. *)
Definition from_cache (r : QueryResult) : QueryResult :=
  MkQueryResult (qr_rows r) (qr_pagination r) (qr_metadata r) true.

(** A driver that rejects every statement. *)
Definition failing_driver (statement : text) : outcome dbresult :=
  Throw (Error (txt "relation does not exist")).

(** The page [one_row_driver] gives for a first request of fifty rows:
    its one row, and no count, since the row it answers the count query
    with has none. *)
Definition one_row_page : QueryResult :=
  MkQueryResult
    [JObj [(txt "id", JNum 1)]]
    (Pagination (Int 1) (Int 50) (Int 0) (Int 0) false false)
    (Metadata 2 1 [])
    false.

Section Course.

Variable gzip_base64 : text -> text.

(** What [executeQuery] does once the cache has given nothing, or has
    not been asked, by what [explainQuery], [executeWithPagination] and
    [set] return. *)
Definition past_the_cache (sql : text) (options : query_options)
    (w0 : world) : outcome response * world :=
  if default false (opt_dryRun options) then
    match explainQuery sql w0 with
    | (Ok e, w1) => (Ok (Explained e), w1)
    | (Throw e, w1) => (Throw e, w1)
    end
  else
    match executeWithPagination sql (request_page options)
            (request_pageSize options) w0 with
    | (Ok r, w1) =>
        (Ok (Fresh r),
         if default true (opt_useCache options)
            && (0 <? Z.of_nat (length (qr_rows r)))
         then snd (cache_set gzip_base64 (request_key sql options)
                     (js_of_result r) cacheTTL set_defaults w1)
         else w1)
    | (Throw e, w1) => (Throw e, w1)
    end.

End Course.

(** The database has not been asked. *)
Definition same_sent (w w' : world) : Prop := sent w' = sent w.

(** The text [generateCacheKey] hashes. *)
Definition hashed_text (sql : text) (page pageSize : num) : text :=
  sql ++ txt ":" ++ show_num page ++ txt ":" ++ show_num pageSize.

(** The statements one request may send. *)
Definition traffic (DB_TYPE : option text) (sql : text)
    (options : query_options) : list (list text) :=
  let page_statement :=
    paginatedSQL DB_TYPE sql (request_page options) (request_pageSize options) in
  [ [];
    [explainSQL DB_TYPE sql];
    [page_statement];
    [page_statement; countSQL sql] ].

(** A text without a colon. *)
Definition no_colon (t : text) : bool :=
  forallb (fun c => negb (ascii_eqb c ":")) t.
(** * Properties *)

(** ** The model on a few inputs *)

Example validate_stacked_delete :
  validateQuery (txt "SELECT * FROM t; DELETE FROM t")
  = Throw (Error (txt "Forbidden keyword detected: delete")).
Proof. vm_compute. reflexivity. Qed.

Example validate_plain_select :
  validateQuery (txt "SELECT id FROM users LIMIT 10") = Ok tt.
Proof. vm_compute. reflexivity. Qed.

Example validate_line_comment :
  validateQuery (txt "SELECT 1 -- x")
  = Throw (Error (txt "Potential SQL injection detected")).
Proof. vm_compute. reflexivity. Qed.

Example validate_unbalanced :
  validateQuery (txt "SELECT (1")
  = Throw (Error (txt "Unbalanced parentheses in query")).
Proof. vm_compute. reflexivity. Qed.

(** The test vectors of RFC 1321. *)
Example md5_empty : md5_hex [] = txt "d41d8cd98f00b204e9800998ecf8427e".
Proof. vm_compute. reflexivity. Qed.

Example md5_abc : md5_hex (txt "abc") = txt "900150983cd24fb0d6963f7d28e17f72".
Proof. vm_compute. reflexivity. Qed.

Example md5_two_blocks :
  md5_hex (txt "1234567890123456789012345678901234567890"
           ++ txt "1234567890123456789012345678901234567890")
  = txt "57edf4a22be3c955ac49da2e2107b67a".
Proof. vm_compute. reflexivity. Qed.

Example parse_object :
  JSON_parse (txtq "{'a': [1, -2, 'x\n'], 'b': null}")
  = Some (JObj [(txt "a",
                 JArr [JNum 1; JNum (-2); JStr (txt "x" ++ [ascii_of_N 10])]);
                (txt "b", JNull)]).
Proof. vm_compute. reflexivity. Qed.

Example parse_bare_word : JSON_parse (txt "hello") = None.
Proof. vm_compute. reflexivity. Qed.

Example stringify_object :
  stringify (JObj [(txt "a", JArr [JNum 1; JUndef]); (txt "u", JUndef);
                   (txt "s", JStr (txtq "q'q"))])
  = Some (txtq "{'a':[1,null],'s':'q\'q'}").
Proof. vm_compute. reflexivity. Qed.

Example parseInt_forms :
  parseInt (txt "  -12abc") = Int (-12) /\ parseInt (txt "0x1F") = Int 31 /\
  parseInt (txt "007") = Int 7 /\ parseInt (txt "abc") = NaN.
Proof. vm_compute. tauto. Qed.

Example paginate_mysql :
  addPaginationToSQL (Some (txt "mysql"))
    (txt "SELECT * FROM orders limit 500  offset 3;;") (Int 20) (Int 40)
  = txt "SELECT * FROM orders LIMIT 40, 20".
Proof. vm_compute. reflexivity. Qed.

Example paginate_inner_limit :
  addPaginationToSQL None (txt "SELECT (SELECT 1 LIMIT 1) x") (Int 5) (Int 10)
  = txt "SELECT (SELECT 1 LIMIT 1) x LIMIT 5 OFFSET 10".
Proof. vm_compute. reflexivity. Qed.

(** The same request twice: computed and stored, then served from the
    cache with [fromCache] set. *)
Example cache_round_trip :
  let sql := txt "SELECT id FROM users" in
  let first := executeQuery some_gzip sql no_options (running one_row_driver ∅) in
  let second := executeQuery some_gzip sql no_options (snd first) in
  (exists r, fst first = Ok (Fresh r) /\ qr_fromCache r = false /\
             fst second
             = Ok (Cached (JObj (set_assoc (txt "fromCache") (JBool true)
                                   (own_props (js_of_result r)))))) /\
  sent (snd second) = sent (snd first) /\
  cache_metrics (snd second) = Metrics 1 1 0 2.
Proof.
  vm_compute. split; [|split; reflexivity].
  eexists. split; [reflexivity|]. split; reflexivity.
Qed.

(** ** Characters *)

Ltac by_cases_on_char c :=
  destruct c as [[] [] [] [] [] [] [] []]; vm_compute; (reflexivity || congruence || tauto).

Lemma canonicalize_lower_char c : canonicalize (lower_char c) = canonicalize c.
Proof. by_cases_on_char c. Qed.

Lemma is_word_lower_char c : is_word (lower_char c) = is_word c.
Proof. by_cases_on_char c. Qed.

Lemma is_word_canonicalize c : is_word (canonicalize c) = is_word c.
Proof. by_cases_on_char c. Qed.

Lemma word_not_space c : is_word c = true -> is_space c = false.
Proof. by_cases_on_char c. Qed.

Lemma digit_not_space c : is_digit c = true -> is_space c = false.
Proof. by_cases_on_char c. Qed.

Lemma ascii_eqb_eq a b : ascii_eqb a b = true <-> a = b.
Proof. apply Ascii.eqb_eq. Qed.

Lemma ascii_eqb_refl a : ascii_eqb a a = true.
Proof. apply Ascii.eqb_refl. Qed.

Lemma text_eqb_eq a : forall b, text_eqb a b = true <-> a = b.
Proof.
  induction a as [|x a IH]; intros [|y b]; simpl; split; try congruence; try done.
  - intros H. apply andb_true_iff in H as [H1 H2].
    apply ascii_eqb_eq in H1. apply IH in H2. congruence.
  - intros [= -> ->]. rewrite ascii_eqb_refl. simpl. by apply IH.
Qed.

(** ** Last characters *)

Lemma last_char_nil p : last_char p [] = p.
Proof. reflexivity. Qed.

Lemma last_char_cons p x m : last_char p (x :: m) = last_char (Some x) m.
Proof.
  unfold last_char. rewrite last_cons. destruct (last m); reflexivity.
Qed.

Lemma last_char_app p m1 m2 :
  last_char p (m1 ++ m2) = last_char (last_char p m1) m2.
Proof.
  revert p. induction m1 as [|x m1 IH]; intros p; simpl.
  - reflexivity.
  - rewrite !last_char_cons. apply IH.
Qed.

Lemma last_char_snoc p m x : last_char p (m ++ [x]) = Some x.
Proof. rewrite last_char_app. reflexivity. Qed.

(** ** The matcher finds exactly what the patterns denote *)

Lemma star_loop_base {A} cl p s (k : option ascii -> text -> option A) :
  is_Some (k p s) -> is_Some (star_loop cl p s k).
Proof.
  intros Hk. destruct s as [|x s]; simpl; [done|].
  destruct (cmatch cl x); [|done].
  destruct (star_loop cl (Some x) s k); [eauto|done].
Qed.

Lemma star_loop_complete {A} cl m :
  forall p post (k : option ascii -> text -> option A),
    forallb (cmatch cl) m = true ->
    is_Some (k (last_char p m) post) ->
    is_Some (star_loop cl p (m ++ post) k).
Proof.
  induction m as [|x m IH]; intros p post k Hall Hk.
  - by apply star_loop_base.
  - simpl in Hall. apply andb_true_iff in Hall as [Hx Hall].
    simpl. rewrite Hx. rewrite last_char_cons in Hk.
    destruct (IH (Some x) post k Hall Hk) as [a Ha]. rewrite Ha. eauto.
Qed.

Lemma star_loop_sound {A} cl s :
  forall p (k : option ascii -> text -> option A) a,
    star_loop cl p s k = Some a ->
    exists m post,
      s = m ++ post /\ forallb (cmatch cl) m = true /\
      k (last_char p m) post = Some a.
Proof.
  induction s as [|x s IH]; intros p k a H; simpl in H.
  - exists [], []. auto.
  - destruct (cmatch cl x) eqn:Hx.
    + destruct (star_loop cl (Some x) s k) as [a'|] eqn:Hs.
      * injection H as <-. apply IH in Hs as (m & post & -> & Hall & Hk).
        exists (x :: m), post. simpl. rewrite Hx, last_char_cons. auto.
      * exists [], (x :: s). auto.
    + exists [], (x :: s). auto.
Qed.

Lemma mt_complete r p m post cs :
  Match r p m post cs ->
  forall A (k : mstate -> option A) cs0,
    (forall cs', is_Some (k (MState (last_char p m) post cs'))) ->
    is_Some (mt r (MState p (m ++ post) cs0) k).
Proof.
  induction 1 as
    [cl p x post Hx | p post
    | r1 r2 p m1 m2 post cs1 cs2 _ IH1 _ IH2
    | r1 r2 p m post cs _ IH | r1 r2 p m post cs _ IH
    | cl p m post Hall | r p m post cs _ IH
    | p post Hb | p]; intros A k cs0 Hk; simpl.
  - rewrite Hx. apply Hk.
  - apply Hk.
  - rewrite <- app_assoc. apply IH1. intros cs'. apply IH2.
    intros cs''. rewrite <- last_char_app. apply Hk.
  - destruct (IH A k cs0 Hk) as [a ->]. eauto.
  - destruct (mt r1 _ k); [eauto|]. by apply IH.
  - apply star_loop_complete; [done|]. apply Hk.
  - apply IH. intros cs'. simpl. apply Hk.
  - rewrite Hb. apply Hk.
  - apply Hk.
Qed.

Lemma mt_sound r :
  forall A (k : mstate -> option A) st a,
    mt r st k = Some a ->
    exists m post cs,
      ms_rest st = m ++ post /\
      Match r (ms_prev st) m post cs /\
      k (MState (last_char (ms_prev st) m) post (ms_caps st ++ cs)) = Some a.
Proof.
  induction r as [cl | | r1 IH1 r2 IH2 | r1 IH1 r2 IH2 | cl | r IH | | ];
    intros A k [p s caps] a H; simpl in *.
  - destruct s as [|x s]; [done|]. destruct (cmatch cl x) eqn:Hx; [|done].
    exists [x], s, []. rewrite (app_nil_r caps). repeat split; [by constructor|done].
  - exists [], s, []. rewrite (app_nil_r caps). repeat split; [constructor|done].
  - apply IH1 in H as (m1 & post1 & cs1 & Hs & HM1 & H). simpl in *.
    apply IH2 in H as (m2 & post & cs2 & Hs2 & HM2 & H). simpl in *. subst.
    exists (m1 ++ m2), post, (cs1 ++ cs2).
    split; [by rewrite <- app_assoc|]. split; [by constructor|].
    by rewrite last_char_app, app_assoc.
  - destruct (mt r1 _ k) as [a'|] eqn:H1.
    + injection H as <-. apply IH1 in H1 as (m & post & cs & ? & ? & ?).
      exists m, post, cs. repeat split; [done| |done]. by apply MAltL.
    + apply IH2 in H as (m & post & cs & ? & ? & ?).
      exists m, post, cs. repeat split; [done| |done]. by apply MAltR.
  - apply star_loop_sound in H as (m & post & -> & Hall & H).
    exists m, post, []. rewrite (app_nil_r caps). repeat split; [by constructor|done].
  - apply IH in H as (m & post & cs & Hs & HM & H). simpl in *. subst.
    exists m, post, (cs ++ [m]). repeat split; [by constructor|].
    rewrite length_app, Nat.add_sub, firstn_app, Nat.sub_diag in H.
    rewrite firstn_all, firstn_O, app_nil_r in H. by rewrite app_assoc.
  - destruct (at_boundary p s) eqn:Hb; [|done].
    exists [], s, []. rewrite (app_nil_r caps). repeat split; [by constructor|done].
  - destruct s; [|done].
    exists [], [], []. rewrite (app_nil_r caps). repeat split; [constructor|done].
Qed.

(** [exec] returns the leftmost match. *)
Lemma exec_from_sound r s :
  forall before p rm,
    exec_from r before p s = Some rm ->
    exists skipped m,
      s = skipped ++ m ++ m_after rm /\
      m_before rm = before ++ skipped /\
      Match r (last_char p skipped) m (m_after rm) (m_groups rm) /\
      forall b1 m1 a1 cs1,
        s = b1 ++ m1 ++ a1 -> Match r (last_char p b1) m1 a1 cs1 ->
        (length skipped <= length b1)%nat.
Proof.
  induction s as [|x s IH]; intros before p rm H; simpl in H.
  - destruct (mt r (MState p [] []) Some) as [st|] eqn:Hm; [|done].
    injection H as <-. simpl.
    apply mt_sound in Hm as (m & post & cs & Hs & HM & [= <-]). simpl in *.
    exists [], m. rewrite app_nil_r. repeat split; try done.
    intros; simpl; lia.
  - destruct (mt r (MState p (x :: s) []) Some) as [st|] eqn:Hm.
    + injection H as <-. simpl.
      apply mt_sound in Hm as (m & post & cs & Hs & HM & [= <-]). simpl in *.
      exists [], m. rewrite app_nil_r. repeat split; try done.
      intros; simpl; lia.
    + apply IH in H as (skipped & m & Hs & Hb & HM & Hleft).
      exists (x :: skipped), m. rewrite last_char_cons.
      repeat split.
      * simpl. by rewrite <- Hs.
      * rewrite Hb. by rewrite <- app_assoc.
      * done.
      * intros [|y b1] m1 a1 cs1 Hsplit HM1.
        -- simpl in *. exfalso.
           assert (Hc : is_Some (mt r (MState p (m1 ++ a1) []) Some))
             by (apply (mt_complete r p m1 a1 cs1 HM1); eauto).
           rewrite <- Hsplit, Hm in Hc. by destruct Hc.
        -- simpl in Hsplit. injection Hsplit as <- Hsplit.
           rewrite last_char_cons in HM1. simpl.
           apply le_n_S. eapply Hleft; eauto.
Qed.

Lemma exec_from_complete r m after cs :
  forall skipped before p,
    Match r (last_char p skipped) m after cs ->
    is_Some (exec_from r before p (skipped ++ m ++ after)).
Proof.
  induction skipped as [|x skipped IH]; intros before p HM.
  - simpl app.
    assert (Hc : is_Some (mt r (MState p (m ++ after) []) Some))
      by (apply (mt_complete r p m after cs HM); eauto).
    destruct Hc as [st Hst].
    destruct (m ++ after); simpl; rewrite Hst; eauto.
  - simpl. destruct (mt r _ Some); [eauto|].
    rewrite last_char_cons in HM. by apply IH.
Qed.

Lemma test_true r s : test r s = true <-> Matches r s.
Proof.
  unfold test, exec. split.
  - destruct (exec_from r [] None s) as [rm|] eqn:H; [|done]. intros _.
    apply exec_from_sound in H as (skipped & m & Hs & _ & HM & _).
    exists skipped, m, (m_after rm), (m_groups rm). auto.
  - intros (before & m & after & cs & -> & HM).
    by destruct (exec_from_complete r m after cs before [] None HM) as [rm ->].
Qed.

Lemma test_false r s : test r s = false <-> ~ Matches r s.
Proof.
  rewrite <- test_true. destruct (test r s); split; congruence.
Qed.

Lemma exec_Some r s rm :
  exec r s = Some rm ->
  exists m,
    s = m_before rm ++ m ++ m_after rm /\
    Match r (last_char None (m_before rm)) m (m_after rm) (m_groups rm) /\
    forall b1 m1 a1 cs1,
      s = b1 ++ m1 ++ a1 -> Match r (last_char None b1) m1 a1 cs1 ->
      (length (m_before rm) <= length b1)%nat.
Proof.
  intros H. apply exec_from_sound in H as (skipped & m & Hs & Hb & HM & Hl).
  simpl in Hb. subst skipped. eauto.
Qed.

Lemma exec_None r s : exec r s = None -> ~ Matches r s.
Proof.
  intros H. apply test_false. unfold test. by rewrite H.
Qed.

(** ** Reading a match of the patterns of the source *)

Lemma Match_seq_inv r1 r2 p m post cs :
  Match (RSeq r1 r2) p m post cs ->
  exists m1 m2 cs1 cs2,
    m = m1 ++ m2 /\ cs = cs1 ++ cs2 /\
    Match r1 p m1 (m2 ++ post) cs1 /\ Match r2 (last_char p m1) m2 post cs2.
Proof. inversion 1; subst. eauto 10. Qed.

Lemma Match_char_inv cl p m post cs :
  Match (RChar cl) p m post cs ->
  exists x, m = [x] /\ cs = [] /\ cmatch cl x = true.
Proof. inversion 1; subst. eauto. Qed.

Lemma Match_empty_inv p m post cs :
  Match REmpty p m post cs -> m = [] /\ cs = [].
Proof. inversion 1; subst. auto. Qed.

Lemma Match_star_inv cl p m post cs :
  Match (RStar cl) p m post cs -> forallb (cmatch cl) m = true /\ cs = [].
Proof. inversion 1; subst. auto. Qed.

Lemma Match_group_inv r p m post cs :
  Match (RGroup r) p m post cs ->
  exists cs', cs = cs' ++ [m] /\ Match r p m post cs'.
Proof. inversion 1; subst. eauto. Qed.

Lemma Match_alt_inv r1 r2 p m post cs :
  Match (RAlt r1 r2) p m post cs ->
  Match r1 p m post cs \/ Match r2 p m post cs.
Proof. inversion 1; subst; auto. Qed.

Lemma Match_wordb_inv p m post cs :
  Match RWordB p m post cs -> m = [] /\ cs = [] /\ at_boundary p post = true.
Proof. inversion 1; subst. auto. Qed.

Lemma Match_end_inv p m post cs :
  Match REnd p m post cs -> m = [] /\ cs = [] /\ post = [].
Proof. inversion 1; subst. auto. Qed.

Lemma Match_plus_inv cl p m post cs :
  Match (RPlus cl) p m post cs ->
  m <> [] /\ forallb (cmatch cl) m = true /\ cs = [].
Proof.
  intros H. apply Match_seq_inv in H as (m1 & m2 & cs1 & cs2 & -> & -> & H1 & H2).
  apply Match_char_inv in H1 as (x & -> & -> & Hx).
  apply Match_star_inv in H2 as [Hall ->].
  simpl. rewrite Hx, Hall. done.
Qed.

Lemma MSeq_eq r1 r2 p m1 m2 m post cs1 cs2 cs :
  m = m1 ++ m2 -> cs = cs1 ++ cs2 ->
  Match r1 p m1 (m2 ++ post) cs1 ->
  Match r2 (last_char p m1) m2 post cs2 ->
  Match (RSeq r1 r2) p m post cs.
Proof. intros -> ->. apply MSeq. Qed.

Lemma Match_plus cl p m post :
  m <> [] -> forallb (cmatch cl) m = true -> Match (RPlus cl) p m post [].
Proof.
  intros Hne Hall. destruct m as [|x m]; [done|].
  simpl in Hall. apply andb_true_iff in Hall as [Hx Hall].
  change (x :: m) with ([x] ++ m). change (@nil text) with (@nil text ++ []).
  apply MSeq; by constructor.
Qed.

Lemma Match_LitI_inv kw :
  forall p m post cs,
    Match (RLitI kw) p m post cs ->
    map canonicalize m = map canonicalize kw /\ cs = [].
Proof.
  induction kw as [|c kw IH]; intros p m post cs H; simpl in H.
  - apply Match_empty_inv in H as [-> ->]. auto.
  - apply Match_seq_inv in H as (m1 & m2 & cs1 & cs2 & -> & -> & H1 & H2).
    apply Match_char_inv in H1 as (x & -> & -> & Hx).
    apply IH in H2 as [Hm ->]. simpl in Hx. apply ascii_eqb_eq in Hx.
    simpl. by rewrite Hx, Hm.
Qed.

Lemma Match_LitI kw :
  forall p m post,
    map canonicalize m = map canonicalize kw -> Match (RLitI kw) p m post [].
Proof.
  induction kw as [|c kw IH]; intros p [|x m] post H; simpl in *; try done.
  - constructor.
  - injection H as Hx Hm.
    change (x :: m) with ([x] ++ m). change (@nil text) with (@nil text ++ []).
    apply MSeq; [|by apply IH].
    constructor. simpl. rewrite Hx. apply ascii_eqb_refl.
Qed.

Lemma Match_Lit_inv s :
  forall p m post cs, Match (RLit s) p m post cs -> m = s /\ cs = [].
Proof.
  induction s as [|c s IH]; intros p m post cs H; simpl in H.
  - apply Match_empty_inv in H as [-> ->]. auto.
  - apply Match_seq_inv in H as (m1 & m2 & cs1 & cs2 & -> & -> & H1 & H2).
    apply Match_char_inv in H1 as (x & -> & -> & Hx).
    apply IH in H2 as [-> ->]. simpl in Hx. apply ascii_eqb_eq in Hx.
    by subst.
Qed.

Lemma Match_Lit s : forall p post, Match (RLit s) p s post [].
Proof.
  induction s as [|c s IH]; intros p post; simpl.
  - constructor.
  - change (c :: s) with ([c] ++ s). change (@nil text) with (@nil text ++ []).
    apply MSeq; [|by apply IH].
    constructor. simpl. apply ascii_eqb_refl.
Qed.

(** The pattern of a keyword denotes its whole-word occurrences. *)
Lemma keyword_regex_whole_word kw s :
  Matches (keyword_regex kw) s <-> whole_word kw s.
Proof.
  unfold keyword_regex. split.
  - intros (before & m & after & cs & -> & H).
    apply Match_seq_inv in H as (m1 & m2 & cs1 & cs2 & -> & -> & H1 & H2).
    apply Match_wordb_inv in H1 as (-> & -> & Hb1).
    apply Match_seq_inv in H2 as (m3 & m4 & cs3 & cs4 & -> & -> & H3 & H4).
    apply Match_LitI_inv in H3 as [Hm ->].
    apply Match_wordb_inv in H4 as (-> & -> & Hb2).
    simpl in *. rewrite app_nil_r in *.
    exists before, m3, after. rewrite last_char_app. auto.
  - intros (before & m & after & -> & Hm & Hb1 & Hb2).
    exists before, m, after, []. split; [done|].
    apply (MSeq_eq _ _ _ [] m _ _ [] []); [done|done|by constructor|].
    apply (MSeq_eq _ _ _ m [] _ _ [] []);
      [by rewrite app_nil_r|done|by apply Match_LitI|].
    constructor. by rewrite last_char_app in Hb2.
Qed.

(** ** Trimming *)

Lemma trimStart_app_keep before x rest :
  is_space x = false ->
  exists ws before',
    before = ws ++ before' /\ forallb is_space ws = true /\
    trimStart (before ++ x :: rest) = before' ++ x :: rest.
Proof.
  intros Hx. induction before as [|c before IH]; simpl.
  - exists [], []. by rewrite Hx.
  - destruct (is_space c) eqn:Hc.
    + destruct IH as (ws & before' & -> & Hws & ->).
      exists (c :: ws), before'. simpl. by rewrite Hc.
    + exists [], (c :: before). auto.
Qed.

Lemma trimStart_split s :
  exists ws, s = ws ++ trimStart s /\ forallb is_space ws = true.
Proof.
  induction s as [|c s IH]; simpl.
  - by exists [].
  - destruct (is_space c) eqn:Hc.
    + destruct IH as (ws & Hs & Hws). exists (c :: ws). simpl.
      rewrite Hc. split; [congruence|done].
    + by exists [].
Qed.

Lemma trim_split s :
  exists ws1 ws2,
    s = ws1 ++ trim s ++ ws2 /\
    forallb is_space ws1 = true /\ forallb is_space ws2 = true.
Proof.
  unfold trim, trimEnd.
  destruct (trimStart_split s) as (ws1 & Hs & Hws1).
  destruct (trimStart_split (rev (trimStart s))) as (ws2 & Hr & Hws2).
  exists ws1, (rev ws2). repeat split; [|done|].
  - rewrite <- rev_app_distr, <- Hr, rev_involutive. done.
  - rewrite forallb_forall in *. intros c Hc. apply Hws2.
    by apply in_rev.
Qed.

(** A stretch of text that starts and ends outside white space survives
    trimming, with what surrounds it short of white space on both ends. *)
Lemma trim_app_keep before m after x y :
  head m = Some x -> last m = Some y ->
  is_space x = false -> is_space y = false ->
  exists ws1 before' after' ws2,
    before = ws1 ++ before' /\ after = after' ++ ws2 /\
    forallb is_space ws1 = true /\ forallb is_space ws2 = true /\
    trim (before ++ m ++ after) = before' ++ m ++ after'.
Proof.
  intros Hhd Hlast Hx Hy.
  assert (exists m', m = x :: m') as [m' Hm'].
  { destruct m; [done|]. injection Hhd as ->. eauto. }
  assert (exists m0, m = m0 ++ [y]) as [m0 Hm0].
  { destruct (last_Some m y) as [[l' ->] _]; eauto. }
  destruct (trimStart_app_keep before x (m' ++ after) Hx)
    as (ws1 & before' & -> & Hws1 & Hts).
  destruct (trimStart_app_keep (rev after) y (rev (before' ++ m0)) Hy)
    as (ws2 & after' & Hra & Hws2 & Hte).
  exists ws1, before', (rev after'), (rev ws2).
  split; [done|]. split.
  { rewrite <- rev_app_distr, <- Hra. by rewrite rev_involutive. }
  split; [done|]. split.
  { rewrite forallb_forall in *. intros c Hc. apply Hws2. by apply in_rev. }
  unfold trim, trimEnd.
  replace ((ws1 ++ before') ++ m ++ after)
    with ((ws1 ++ before') ++ x :: m' ++ after) by (by rewrite Hm').
  rewrite Hts.
  replace (before' ++ x :: m' ++ after)
    with ((before' ++ m0) ++ y :: after).
  2:{ rewrite <- app_assoc. f_equal.
      change (x :: m' ++ after) with ((x :: m') ++ after).
      rewrite <- Hm', Hm0, <- app_assoc. done. }
  rewrite rev_app_distr. simpl rev at 1. rewrite <- app_assoc. simpl app at 2.
  rewrite Hte, rev_app_distr. simpl rev at 1. rewrite rev_involutive.
  rewrite Hm0, <- !app_assoc. done.
Qed.

(** ** Word boundaries under trimming and lower-casing *)

Lemma opt_is_word_last_char_indep p q l :
  opt_is_word p = opt_is_word q ->
  opt_is_word (last_char p l) = opt_is_word (last_char q l).
Proof.
  destruct l as [|x l]; [done|]. intros _. by rewrite !last_char_cons.
Qed.

Lemma spaces_last_not_word ws :
  forallb is_space ws = true -> opt_is_word (last_char None ws) = false.
Proof.
  intros Hws. unfold last_char. destruct (last ws) as [c|] eqn:Hl; [|done].
  apply last_Some in Hl as [l' ->].
  rewrite forallb_app in Hws. apply andb_true_iff in Hws as [_ Hc].
  simpl in *. rewrite andb_true_r in Hc.
  destruct (is_word c) eqn:Hw; [|done].
  apply word_not_space in Hw. congruence.
Qed.

Lemma spaces_head_not_word ws :
  forallb is_space ws = true -> opt_is_word (head ws) = false.
Proof.
  destruct ws as [|c ws]; [done|]. simpl. intros H.
  apply andb_true_iff in H as [Hc _].
  destruct (is_word c) eqn:Hw; [|done].
  apply word_not_space in Hw. congruence.
Qed.

Lemma opt_is_word_last_spaces ws l :
  forallb is_space ws = true ->
  opt_is_word (last_char None (ws ++ l)) = opt_is_word (last_char None l).
Proof.
  intros Hws. rewrite last_char_app. apply opt_is_word_last_char_indep.
  by apply spaces_last_not_word.
Qed.

Lemma opt_is_word_head_spaces l ws :
  forallb is_space ws = true ->
  opt_is_word (head (l ++ ws)) = opt_is_word (head l).
Proof.
  intros Hws. destruct l as [|x l]; [|done]. by apply spaces_head_not_word.
Qed.

Lemma opt_is_word_last_lower l :
  forall p,
    opt_is_word (last_char (option_map lower_char p) (map lower_char l))
    = opt_is_word (last_char p l).
Proof.
  induction l as [|x l IH]; intros p.
  - destruct p; simpl; [apply is_word_lower_char|done].
  - simpl map. rewrite !last_char_cons. apply (IH (Some x)).
Qed.

Lemma opt_is_word_last_lower_start l :
  opt_is_word (last_char None (map lower_char l))
  = opt_is_word (last_char None l).
Proof. apply (opt_is_word_last_lower l None). Qed.

Lemma opt_is_word_head_lower l :
  opt_is_word (head (map lower_char l)) = opt_is_word (head l).
Proof. destruct l; simpl; [done|apply is_word_lower_char]. Qed.

Lemma at_boundary_lower b s :
  at_boundary (last_char None (map lower_char b)) (map lower_char s)
  = at_boundary (last_char None b) s.
Proof.
  unfold at_boundary.
  by rewrite opt_is_word_last_lower_start, opt_is_word_head_lower.
Qed.

Lemma map_canonicalize_lower m :
  map canonicalize (map lower_char m) = map canonicalize m.
Proof.
  rewrite map_map. apply map_ext. intros c. apply canonicalize_lower_char.
Qed.

Lemma whole_word_toLowerCase kw s :
  whole_word kw (toLowerCase s) <-> whole_word kw s.
Proof.
  unfold toLowerCase. split.
  - intros (before & m & after & Hs & Hm & Hb1 & Hb2).
    apply map_eq_app in Hs as (b0 & r0 & -> & <- & Hr).
    apply map_eq_app in Hr as (m0 & a0 & -> & <- & <-).
    exists b0, m0, a0. rewrite map_canonicalize_lower in Hm.
    rewrite <- map_app in Hb1, Hb2. rewrite !at_boundary_lower in *. auto.
  - intros (before & m & after & -> & Hm & Hb1 & Hb2).
    exists (map lower_char before), (map lower_char m), (map lower_char after).
    rewrite !map_app, map_canonicalize_lower.
    rewrite <- !map_app, !at_boundary_lower. auto.
Qed.

Lemma whole_word_of_trim kw s : whole_word kw (trim s) -> whole_word kw s.
Proof.
  intros (before & m & after & Ht & Hm & Hb1 & Hb2).
  destruct (trim_split s) as (ws1 & ws2 & Hs & Hws1 & Hws2).
  exists (ws1 ++ before), m, (after ++ ws2).
  split; [rewrite Hs, Ht; by rewrite <- !app_assoc|].
  split; [done|]. unfold at_boundary in *. split.
  - rewrite opt_is_word_last_spaces by done.
    rewrite app_assoc, opt_is_word_head_spaces by done. done.
  - rewrite <- app_assoc, opt_is_word_last_spaces by done.
    rewrite opt_is_word_head_spaces by done. done.
Qed.

Lemma blacklistedKeywords_ok : forallb keyword_ok blacklistedKeywords = true.
Proof. vm_compute. reflexivity. Qed.

Lemma opt_is_word_head_canonicalize l :
  opt_is_word (head (map canonicalize l)) = opt_is_word (head l).
Proof. destruct l; simpl; [done|apply is_word_canonicalize]. Qed.

Lemma opt_is_word_last_canonicalize l :
  opt_is_word (last (map canonicalize l)) = opt_is_word (last l).
Proof.
  induction l as [|x l IH]; [done|]. simpl map. rewrite !last_cons.
  destruct l as [|y l]; simpl in *; [apply is_word_canonicalize|].
  rewrite !last_cons in *.
  destruct (last (map canonicalize l)), (last l); simpl in *; try done.
  all: apply is_word_canonicalize.
Qed.

Lemma whole_word_trim kw s :
  keyword_ok kw = true -> whole_word kw s -> whole_word kw (trim s).
Proof.
  intros Hok (before & m & after & -> & Hm & Hb1 & Hb2).
  apply andb_true_iff in Hok as [Hh Hl].
  rewrite <- opt_is_word_head_canonicalize, <- Hm,
    opt_is_word_head_canonicalize in Hh.
  rewrite <- opt_is_word_last_canonicalize, <- Hm,
    opt_is_word_last_canonicalize in Hl.
  destruct (head m) as [x|] eqn:Hx; [|done].
  destruct (last m) as [y|] eqn:Hy; [|done]. simpl in Hh, Hl.
  destruct (trim_app_keep before m after x y Hx Hy)
    as (ws1 & before' & after' & ws2 & -> & -> & Hws1 & Hws2 & Ht);
    [by apply word_not_space..|].
  exists before', m, after'. split; [done|]. split; [done|].
  unfold at_boundary in *. split.
  - rewrite opt_is_word_last_spaces in Hb1 by done.
    rewrite app_assoc, opt_is_word_head_spaces in Hb1 by done. done.
  - rewrite <- app_assoc, opt_is_word_last_spaces in Hb2 by done.
    rewrite opt_is_word_head_spaces in Hb2 by done. done.
Qed.

Lemma test_keyword_regex kw sql :
  keyword_ok kw = true ->
  test (keyword_regex kw) (toLowerCase (trim sql)) = true <-> whole_word kw sql.
Proof.
  intros Hok.
  rewrite test_true, keyword_regex_whole_word, whole_word_toLowerCase.
  split; [apply whole_word_of_trim|by apply whole_word_trim].
Qed.

(** ** The validator *)

Lemma find_first {A} (f : A -> bool) l x :
  find f l = Some x ->
  exists l1 l2,
    l = l1 ++ x :: l2 /\ f x = true /\ forall y, In y l1 -> f y = false.
Proof.
  induction l as [|a l IH]; simpl; [done|].
  destruct (f a) eqn:Ha.
  - intros [= ->]. exists [], l. by repeat split.
  - intros H. apply IH in H as (l1 & l2 & -> & Hx & Hl1).
    exists (a :: l1), l2. repeat split; [done|].
    intros y [<-|Hy]; auto.
Qed.

(** C1, as amended.  A text that contains a denylisted keyword as a whole
    word, letter case apart, is rejected.  When the trimmed, lower-cased
    text begins with [select] the message is [Forbidden keyword
    detected: ] followed by the first keyword of the denylist, in its
    order, that the text contains as a whole word; otherwise it is the
    message of the SELECT check, which runs first. *)
Theorem denylisted_keyword_rejected (sql kw : text) :
  In kw blacklistedKeywords ->
  whole_word kw sql ->
  if begins_with_select sql
  then exists kw' earlier later,
         blacklistedKeywords = earlier ++ kw' :: later /\
         whole_word kw' sql /\
         (forall k, In k earlier -> ~ whole_word k sql) /\
         validateQuery sql
         = Throw (Error (txt "Forbidden keyword detected: " ++ kw'))
  else validateQuery sql
       = Throw (Error (txt "Only SELECT statements are allowed")).
Proof.
  intros Hin Hww. unfold validateQuery, begins_with_select.
  destruct (startsWith _ _); cbn [negb]; [|done].
  pose proof blacklistedKeywords_ok as Hok. rewrite forallb_forall in Hok.
  destruct (find _ blacklistedKeywords) as [kw'|] eqn:Hfind.
  - apply find_first in Hfind as (earlier & later & Hl & Htest & Hearlier).
    exists kw', earlier, later. split; [done|].
    assert (forall k, In k (earlier ++ kw' :: later) -> keyword_ok k = true)
      as Hok' by (intros k Hk; apply Hok; by rewrite Hl).
    split; [|split; [|done]].
    + apply test_keyword_regex in Htest; [done|].
      apply Hok', in_elt.
    + intros k Hk Hwk. apply test_keyword_regex in Hwk.
      * rewrite Hearlier in Hwk; done.
      * apply Hok', in_or_app. by left.
  - exfalso. eapply find_none in Hfind; [|exact Hin]. simpl in Hfind.
    apply test_keyword_regex in Hww; auto. congruence.
Qed.

Lemma denylisted_keyword_rejected_witness :
  exists kw' earlier later,
    blacklistedKeywords = earlier ++ kw' :: later /\
    whole_word kw' (txt "SELECT * FROM t; DELETE FROM t") /\
    (forall k, In k earlier ->
               ~ whole_word k (txt "SELECT * FROM t; DELETE FROM t")) /\
    validateQuery (txt "SELECT * FROM t; DELETE FROM t")
    = Throw (Error (txt "Forbidden keyword detected: " ++ kw')).
Proof.
  refine (denylisted_keyword_rejected
            (txt "SELECT * FROM t; DELETE FROM t") (txt "delete") _ _).
  - vm_compute. tauto.
  - exists (txt "SELECT * FROM t; "), (txt "DELETE"), (txt " FROM t").
    vm_compute. tauto.
Defined.

(** C1 as the specification states it fails where the text does not
    begin with [select]: the keyword is there, the text is rejected, and
    the message names no keyword. *)
Lemma denylisted_keyword_message_counterexample :
  In (txt "drop") blacklistedKeywords /\
  whole_word (txt "drop") (txt "DROP TABLE t") /\
  validateQuery (txt "DROP TABLE t")
  = Throw (Error (txt "Only SELECT statements are allowed")) /\
  forall kw,
    validateQuery (txt "DROP TABLE t")
    <> Throw (Error (txt "Forbidden keyword detected: " ++ kw)).
Proof.
  split; [vm_compute; tauto|]. split.
  - exists [], (txt "DROP"), (txt " TABLE t"). vm_compute. tauto.
  - split; [vm_compute; reflexivity|].
    intros kw. vm_compute. intros H. discriminate H.
Qed.

Lemma find_None_forall {A} (f : A -> bool) l :
  (forall x, In x l -> f x = false) -> find f l = None.
Proof.
  intros H. destruct (find f l) as [x|] eqn:Hf; [|done].
  apply find_some in Hf as [Hin Hx]. rewrite H in Hx; done.
Qed.

(** A decidable way to see that a text holds no denylisted keyword. *)
Lemma no_denylisted_word sql :
  forallb (fun kw => negb (test (keyword_regex kw) (toLowerCase (trim sql))))
          blacklistedKeywords = true ->
  forall kw, In kw blacklistedKeywords -> ~ whole_word kw sql.
Proof.
  intros Hall kw Hin Hww. rewrite forallb_forall in Hall.
  specialize (Hall kw Hin).
  pose proof blacklistedKeywords_ok as Hok. rewrite forallb_forall in Hok.
  apply test_keyword_regex in Hww; [|by apply Hok].
  rewrite Hww in Hall. done.
Qed.

Lemma injection_shape_matches sql :
  injection_shape sql ->
  exists pattern, In pattern injectionPatterns /\ Matches pattern sql.
Proof.
  destruct 1 as [b a | b c a Hc | b mid a Hmid | b u ws s a Hu [Hne Hws] Hs
                | b ws k kw a Hkw Hws Hk].
  - exists (RLit (txt "#")). split; [simpl; tauto|].
    exists b, (txt "#"), a, []. split; [done|]. apply Match_Lit.
  - exists (RSeq (RLit (txt "--")) (RChar CSpace)). split; [simpl; tauto|].
    exists b, (txt "--" ++ [c]), a, []. split; [done|].
    apply (MSeq_eq _ _ _ (txt "--") [c] _ _ [] []); try done.
    + apply Match_Lit.
    + by constructor.
  - exists (RSeq (RLit (txt "/*")) (RSeq (RStar CDot) (RLit (txt "*/")))).
    split; [simpl; tauto|].
    exists b, (txt "/*" ++ mid ++ txt "*/"), a, []. split.
    { by rewrite <- !app_assoc. }
    apply (MSeq_eq _ _ _ (txt "/*") (mid ++ txt "*/") _ _ [] []); try done.
    + apply Match_Lit.
    + apply (MSeq_eq _ _ _ mid (txt "*/") _ _ [] []); try done.
      * by constructor.
      * apply Match_Lit.
  - exists (RSeq (RLitI (txt "union")) (RSeq (RPlus CSpace) (RLitI (txt "select")))).
    split; [simpl; tauto|].
    exists b, (u ++ ws ++ s), a, []. split.
    { by rewrite <- !app_assoc. }
    apply (MSeq_eq _ _ _ u (ws ++ s) _ _ [] []); try done.
    + by apply Match_LitI.
    + apply (MSeq_eq _ _ _ ws s _ _ [] []); try done.
      * by apply Match_plus.
      * by apply Match_LitI.
  - eexists. split; [simpl; left; reflexivity|].
    exists b, (txt ";" ++ ws ++ k), a, [k]. split.
    { by rewrite <- !app_assoc. }
    apply (MSeq_eq _ _ _ (txt ";") (ws ++ k) _ _ [] [k]); try done.
    + by constructor.
    + apply (MSeq_eq _ _ _ ws k _ _ [] [k]); try done.
      * by constructor.
      * apply (MGroup _ _ _ _ []).
        simpl in Hkw.
        destruct Hkw as [<-|[<-|[<-|[<-|[<-|[<-|[]]]]]]].
        1: apply MAltL.
        2: apply MAltR, MAltL.
        3: apply MAltR, MAltR, MAltL.
        4: apply MAltR, MAltR, MAltR, MAltL.
        5: apply MAltR, MAltR, MAltR, MAltR, MAltL.
        6: apply MAltR, MAltR, MAltR, MAltR, MAltR.
        1: apply (Match_LitI (txt "drop")); exact Hk.
        1: apply (Match_LitI (txt "delete")); exact Hk.
        1: apply (Match_LitI (txt "update")); exact Hk.
        1: apply (Match_LitI (txt "insert")); exact Hk.
        1: apply (Match_LitI (txt "create")); exact Hk.
        1: apply (Match_LitI (txt "alter")); exact Hk.
Qed.

(** C3, as amended.  A text that passes the two checks that run first
    (it begins with [select] and holds no denylisted keyword) and has one
    of the injection shapes is rejected as a potential injection.  The
    line comment counts when white space follows [--], the block comment
    when it stays on one line. *)
Theorem injection_shape_rejected (sql : text) :
  begins_with_select sql = true ->
  (forall kw, In kw blacklistedKeywords -> ~ whole_word kw sql) ->
  injection_shape sql ->
  validateQuery sql = Throw (Error (txt "Potential SQL injection detected")).
Proof.
  intros Hsel Hnone Hshape. unfold validateQuery.
  unfold begins_with_select in Hsel. rewrite Hsel. cbn [negb].
  pose proof blacklistedKeywords_ok as Hok. rewrite forallb_forall in Hok.
  rewrite find_None_forall.
  2:{ intros kw Hin. destruct (test _ _) eqn:Ht; [|done].
      apply test_keyword_regex in Ht; [|by apply Hok].
      by destruct (Hnone kw Hin). }
  apply injection_shape_matches in Hshape as (pattern & Hin & HM).
  apply test_true in HM.
  assert (existsb (fun pattern => test pattern sql) injectionPatterns = true)
    as ->; [|done].
  apply existsb_exists. eauto.
Qed.

Lemma injection_shape_rejected_witness :
  validateQuery (txt "SELECT name FROM t WHERE id = 1 -- x")
  = Throw (Error (txt "Potential SQL injection detected")).
Proof.
  apply (injection_shape_rejected (txt "SELECT name FROM t WHERE id = 1 -- x")).
  - vm_compute. reflexivity.
  - apply no_denylisted_word. vm_compute. reflexivity.
  - apply (shape_line_comment (txt "SELECT name FROM t WHERE id = 1 ") " " (txt "x")).
    vm_compute. reflexivity.
Defined.

(** C3 as the specification states it fails: a text with [--] and no
    white space after it is accepted, and so is a block comment that
    spans two lines; where an earlier check fires, the reason is that
    check's. *)
Lemma injection_marker_counterexample :
  includes (txt "--") (txt "SELECT 1 --x") = true /\
  validateQuery (txt "SELECT 1 --x") = Ok tt /\
  validateQuery (txt "SELECT 1 /* a" ++ [ascii_of_N 10] ++ txt "b */") = Ok tt /\
  validateQuery (txt "# SELECT 1")
  = Throw (Error (txt "Only SELECT statements are allowed")).
Proof. vm_compute. tauto. Qed.

(** ** The pagination rewriter *)

Lemma digit_not_sign c :
  is_digit c = true -> ascii_eqb c "-" = false /\ ascii_eqb c "+" = false.
Proof. by_cases_on_char c. Qed.

Lemma digit_not_x c :
  is_digit c = true -> ascii_eqb c "x" || ascii_eqb c "X" = false.
Proof. by_cases_on_char c. Qed.

Lemma parse_digits_decimal ds :
  forall acc,
    forallb is_digit ds = true ->
    parse_digits 10 dec_digit_value ds acc
    = match ds with
      | [] => acc
      | _ :: _ =>
          Some (fold_left (fun a c => 10 * a + digit_value c) ds
                          (match acc with Some a => a | None => 0 end))
      end.
Proof.
  induction ds as [|c ds IH]; intros acc Hall; [done|].
  simpl in Hall. apply andb_true_iff in Hall as [Hc Hall].
  simpl. unfold dec_digit_value at 1. rewrite Hc.
  rewrite IH by done. destruct ds; done.
Qed.

Lemma parseInt_digits ds : digits ds -> parseInt ds = Int (digits_value ds).
Proof.
  intros [Hne Hall]. destruct ds as [|c ds]; [done|].
  pose proof Hall as Hall'. simpl in Hall'.
  apply andb_true_iff in Hall' as [Hc Hds].
  unfold parseInt. simpl trimStart. rewrite (digit_not_space c Hc).
  destruct (digit_not_sign c Hc) as [-> ->].
  assert (parse_digits 10 dec_digit_value (c :: ds) None
          = Some (digits_value (c :: ds))) as Hdec.
  { by rewrite parse_digits_decimal. }
  destruct ds as [|x ds]; [by rewrite Hdec|].
  simpl in Hds. apply andb_true_iff in Hds as [Hx _].
  rewrite (digit_not_x x Hx), andb_false_r. by rewrite Hdec.
Qed.

Lemma all_semicolons m :
  forallb (cmatch (CLit ";")) m = true -> m = repeat ";"%char (length m).
Proof.
  induction m as [|c m IH]; [done|]. simpl. intros H.
  apply andb_true_iff in H as [Hc Hm]. apply ascii_eqb_eq in Hc.
  rewrite <- IH by done. by subst.
Qed.

Lemma semicolonsRegex_Match p m :
  m <> [] -> forallb (cmatch (CLit ";")) m = true ->
  Match semicolonsRegex p m [] [].
Proof.
  intros Hne Hall.
  apply (MSeq_eq _ _ _ m [] _ _ [] []); [by rewrite app_nil_r|done| |].
  - by apply Match_plus.
  - constructor.
Qed.

Lemma ends_with_semicolon_Matches s :
  last s = Some ";"%char -> Matches semicolonsRegex s.
Proof.
  intros Hl. apply last_Some in Hl as [b ->].
  exists b, [";"%char], [], []. split; [done|].
  by apply semicolonsRegex_Match.
Qed.

(** Stripping removes the whole run of semicolons at the end. *)
Lemma strip_semicolons s :
  exists k,
    s = replace_empty semicolonsRegex s ++ repeat ";"%char k /\
    last (replace_empty semicolonsRegex s) <> Some ";"%char.
Proof.
  unfold replace_empty.
  destruct (exec semicolonsRegex s) as [rm|] eqn:He.
  - apply exec_Some in He as (m & Hs & HM & Hleft).
    apply Match_seq_inv in HM as (m1 & m2 & cs1 & cs2 & -> & _ & H1 & H2).
    apply Match_end_inv in H2 as (-> & _ & Hafter).
    apply Match_plus_inv in H1 as (Hne & Hall & _).
    rewrite Hafter, !app_nil_r in *.
    exists (length m1). split; [by rewrite <- all_semicolons|].
    intros Hl. apply last_Some in Hl as [b Hb].
    specialize (Hleft b (";"%char :: m1) [] []).
    rewrite Hb, length_app in Hleft. simpl in Hleft.
    enough (length b + 1 <= length b)%nat by lia.
    apply Hleft.
    + rewrite Hs, Hb, <- app_assoc. simpl. by rewrite app_nil_r.
    + apply semicolonsRegex_Match; [done|]. simpl. by rewrite Hall.
  - exists 0%nat. split; [by rewrite app_nil_r|].
    intros Hl. apply exec_None in He. by apply He, ends_with_semicolon_Matches.
Qed.

Lemma limit_clause_Match n clause p :
  limit_clause n clause -> exists cs, Match limitRegex p clause [] cs.
Proof.
  unfold limitRegex.
  destruct 1 as [ws1 l ws2 ds [? ?] Hl [? ?] [? ?] _
                | ws1 l ws2 ds ws3 o ws4 ds' [? ?] Hl [? ?] [? ?] [? ?] Ho [? ?] [? ?] _].
  - eexists.
    eapply MSeq_eq; [reflexivity|reflexivity|by apply Match_plus|].
    eapply MSeq_eq; [reflexivity|reflexivity|by apply Match_LitI|].
    eapply MSeq_eq; [reflexivity|reflexivity|by apply Match_plus|].
    eapply (MSeq_eq _ _ _ ds []); [by rewrite app_nil_r|reflexivity| |].
    + apply MGroup. by apply Match_plus.
    + eapply (MSeq_eq _ _ _ [] []); [done|reflexivity| |constructor].
      apply MAltR. constructor.
  - eexists.
    eapply MSeq_eq; [reflexivity|reflexivity|by apply Match_plus|].
    eapply MSeq_eq; [reflexivity|reflexivity|by apply Match_LitI|].
    eapply MSeq_eq; [reflexivity|reflexivity|by apply Match_plus|].
    eapply MSeq_eq; [reflexivity|reflexivity| |].
    + apply MGroup. by apply Match_plus.
    + eapply (MSeq_eq _ _ _ (ws3 ++ o ++ ws4 ++ ds') []);
        [by rewrite app_nil_r|reflexivity| |constructor].
      apply MAltL, MGroup.
      eapply MSeq_eq; [reflexivity|reflexivity|by apply Match_plus|].
      eapply MSeq_eq; [reflexivity|reflexivity|by apply Match_LitI|].
      eapply MSeq_eq; [reflexivity|reflexivity|by apply Match_plus|].
      by apply Match_plus.
Qed.

Lemma limitRegex_Match_inv p m post cs :
  Match limitRegex p m post cs ->
  post = [] /\
  exists n, limit_clause n m /\ parseInt (nth 0 cs []) = Int n.
Proof.
  unfold limitRegex. intros H.
  apply Match_seq_inv in H as (ws1 & r1 & c1 & d1 & -> & -> & Hws1 & H).
  apply Match_plus_inv in Hws1 as (? & ? & ->).
  apply Match_seq_inv in H as (l & r2 & c2 & d2 & -> & -> & Hl & H).
  apply Match_LitI_inv in Hl as [Hl ->].
  apply Match_seq_inv in H as (ws2 & r3 & c3 & d3 & -> & -> & Hws2 & H).
  apply Match_plus_inv in Hws2 as (? & ? & ->).
  apply Match_seq_inv in H as (ds & r4 & c4 & d4 & -> & -> & Hds & H).
  apply Match_group_inv in Hds as (c5 & -> & Hds).
  apply Match_plus_inv in Hds as (? & ? & ->).
  apply Match_seq_inv in H as (tail & e & c6 & d6 & -> & -> & Htail & He).
  apply Match_end_inv in He as (-> & -> & ->).
  split; [done|]. exists (digits_value ds). simpl nth.
  split; [|by apply parseInt_digits].
  rewrite app_nil_r.
  apply Match_alt_inv in Htail as [Htail|Htail].
  - apply Match_group_inv in Htail as (c7 & -> & H).
    apply Match_seq_inv in H as (ws3 & r5 & c8 & d8 & -> & -> & Hws3 & H).
    apply Match_plus_inv in Hws3 as (? & ? & ->).
    apply Match_seq_inv in H as (o & r6 & c9 & d9 & -> & -> & Ho & H).
    apply Match_LitI_inv in Ho as [Ho ->].
    apply Match_seq_inv in H as (ws4 & ds' & c10 & d10 & -> & -> & Hws4 & H).
    apply Match_plus_inv in Hws4 as (? & ? & ->).
    apply Match_plus_inv in H as (? & ? & ->).
    by apply clause_limit_offset.
  - apply Match_empty_inv in Htail as [-> ->]. rewrite app_nil_r.
    by apply clause_limit.
Qed.

Lemma limit_clause_more_space n clause c :
  is_space c = true -> limit_clause n clause -> limit_clause n (c :: clause).
Proof.
  intros Hc.
  destruct 1 as [ws1 l ws2 ds [? Hws] ? ? ? ?
                | ws1 l ws2 ds ws3 o ws4 ds' [? Hws] ? ? ? ? ? ? ? ?].
  - apply (clause_limit n (c :: ws1)); try done.
    split; [done|]. simpl. by rewrite Hc.
  - apply (clause_limit_offset n (c :: ws1)); try done.
    split; [done|]. simpl. by rewrite Hc.
Qed.

(** C4.  The rewriter strips the semicolons at the end of the trimmed
    statement, finds a clause [LIMIT n] or [LIMIT n OFFSET m] at its very
    end, removes it with the white space before it, and appends
    [LIMIT e OFFSET o] for PostgreSQL or [LIMIT o, e] otherwise, where
    [e] is the smaller of [n] and the page size when there was such a
    clause and the page size when there was none, and [o] is
    [(page - 1) * pageSize], written also when it is zero.  The page,
    the page size and the offset are safe integers, on which the source
    computes and prints exactly; the limit [n] of the clause may be any:
    read beyond that range it is rounded and is still the larger of the
    two.  The two examples of the specification are instances. *)
Theorem pagination_rewrite (DB_TYPE : option text) (sql : text)
    (page pageSize : Z) :
  safe_integer page -> safe_integer pageSize ->
  safe_integer ((page - 1) * pageSize) ->
  let clean := replace_empty semicolonsRegex (trim sql) in
  let o := (page - 1) * pageSize in
  let out := addPaginationToSQL DB_TYPE sql (Int pageSize) (Int o) in
  (exists k,
     trim sql = clean ++ repeat ";"%char k /\ last clean <> Some ";"%char) /\
  (exists base e,
     out = (if postgresql DB_TYPE
            then base ++ txt " LIMIT " ++ show_Z e ++ txt " OFFSET " ++ show_Z o
            else base ++ txt " LIMIT " ++ show_Z o ++ txt ", " ++ show_Z e) /\
     ((exists n clause,
         clean = base ++ clause /\ limit_clause n clause /\
         (forall c, last base = Some c -> is_space c = false) /\
         e = Z.min n pageSize)
      \/
      ((forall base' n clause,
          clean = base' ++ clause -> ~ limit_clause n clause) /\
       base = clean /\ e = pageSize))) /\
  addPaginationToSQL None (txt "SELECT * FROM orders LIMIT 5")
    (Int 50) (Int ((1 - 1) * 50))
  = txt "SELECT * FROM orders LIMIT 5 OFFSET 0" /\
  addPaginationToSQL (Some (txt "postgresql")) (txt "SELECT * FROM orders")
    (Int 20) (Int ((3 - 1) * 20))
  = txt "SELECT * FROM orders LIMIT 20 OFFSET 40".
Proof.
  intros _ _ _ clean o out.
  split; [apply strip_semicolons|].
  split; [|split; vm_compute; reflexivity].
  subst out. unfold addPaginationToSQL. fold clean. fold (postgresql DB_TYPE).
  unfold replace_empty.
  destruct (exec limitRegex clean) as [rm|] eqn:He.
  - pose proof He as He'.
    apply exec_Some in He as (m & Hs & HM & Hleft).
    apply limitRegex_Match_inv in HM as (Hafter & n & Hclause & Hn).
    exists (m_before rm), (Z.min n pageSize).
    rewrite Hn, Hafter, app_nil_r in *. simpl num_min. simpl show_num.
    split; [done|]. left. exists n, m.
    split; [done|]. split; [done|]. split; [|done].
    intros c Hl. destruct (is_space c) eqn:Hc; [|done]. exfalso.
    apply last_Some in Hl as [b Hb].
    destruct (limit_clause_Match n (c :: m) (last_char None b)) as [cs HM].
    { by apply limit_clause_more_space. }
    specialize (Hleft b (c :: m) [] cs).
    rewrite Hb, length_app in Hleft. simpl in Hleft.
    enough (length b + 1 <= length b)%nat by lia.
    apply Hleft; [|done].
    rewrite Hs, Hb, <- app_assoc. simpl. by rewrite app_nil_r.
  - exists clean, pageSize. simpl show_num. split; [done|]. right.
    split; [|done].
    intros base' n clause Hs Hclause. apply exec_None in He. apply He.
    destruct (limit_clause_Match n clause (last_char None base') Hclause)
      as [cs HM].
    exists base', clause, [], cs. by rewrite app_nil_r.
Qed.

Lemma pagination_rewrite_witness :
  safe_integer 3 /\ safe_integer 20 /\ safe_integer ((3 - 1) * 20) /\
  exists base e,
    addPaginationToSQL None (txt "SELECT * FROM orders LIMIT 5;")
      (Int 20) (Int ((3 - 1) * 20))
    = (if postgresql None
       then base ++ txt " LIMIT " ++ show_Z e
                 ++ txt " OFFSET " ++ show_Z ((3 - 1) * 20)
       else base ++ txt " LIMIT " ++ show_Z ((3 - 1) * 20)
                 ++ txt ", " ++ show_Z e).
Proof.
  assert (H3 : safe_integer 3) by reflexivity.
  assert (H20 : safe_integer 20) by reflexivity.
  assert (H40 : safe_integer ((3 - 1) * 20)) by reflexivity.
  destruct (pagination_rewrite None (txt "SELECT * FROM orders LIMIT 5;")
              3 20 H3 H20 H40) as (_ & (base & e & Hout & _) & _).
  split; [exact H3|]. split; [exact H20|]. split; [exact H40|].
  exists base, e. exact Hout.
Defined.

(** ** The cache layer *)

Arguments JSON_parse : simpl never.
Arguments stringify : simpl never.
Arguments generateCacheKey : simpl never.
Arguments addPaginationToSQL : simpl never.
Arguments countSQL : simpl never.
Arguments validateQuery : simpl never.
Arguments parseInt : simpl never.
Arguments to_string : simpl never.
Arguments txt : simpl never.

Ltac run :=
  unfold bind, ret, throw, try_catch, lift, read, when, Date_now,
    bump_hits, bump_misses, bump_errors, bump_totalRequests,
    client_get, client_del, client_setEx, this_del in *;
  simpl in *.

Lemma redis_get_cases key w :
  redis_get key w =
  if isConnected w && client_up w then
    match store w !! key with
    | Some (c :: s) =>
        match JSON_parse (c :: s) with
        | Some v => (Ok v, w)
        | None => (Ok JNull, with_store w (delete key (store w)))
        end
    | _ => (Ok JNull, w)
    end
  else (Ok JNull, w).
Proof.
  unfold redis_get. run.
  destruct (isConnected w); simpl; [|done].
  destruct (client_up w) eqn:Hup; simpl; [|done].
  destruct (store w !! key) as [[|c s]|]; try done.
  destruct (JSON_parse (c :: s)); [done|]. simpl. by rewrite Hup.
Qed.

(** Reading the cache never changes the counters below it, the database
    or the connection. *)
Lemma redis_get_frame key w :
  exists v w',
    redis_get key w = (Ok v, w') /\
    cache_metrics w' = cache_metrics w /\
    DB_TYPE w' = DB_TYPE w /\ driver w' = driver w /\ sent w' = sent w /\
    now w' = now w /\ latency w' = latency w /\
    isConnected w' = isConnected w /\ client_up w' = client_up w /\
    (store w !! key = None -> v = JNull /\ w' = w).
Proof.
  rewrite redis_get_cases.
  destruct (isConnected w && client_up w); [|by eauto 15].
  destruct (store w !! key) as [[|c s]|] eqn:Hk; try by eauto 15.
  destruct (JSON_parse (c :: s)); eexists _, _; by repeat split.
Qed.

(** C7, as amended.  Every [get] adds one to [totalRequests], tracked
    or not, and no [get] adds to [errors] alone.  With tracking on it
    adds one to [misses] alone when the store yields nothing, one to
    [hits] alone when it yields a value that is returned, and one to both
    [hits] and [errors] when it yields a string that fails to parse as
    JSON; the caller gets the fallback in the first and the last case.
    With tracking off the three counters stay. *)
Theorem get_counts (key : text) (options : get_options) (w : world) :
  let m := cache_metrics w in
  let m' := cache_metrics (snd (cache_get key options w)) in
  let r := fst (cache_get key options w) in
  totalRequests m' = totalRequests m + 1 /\
  ~ error_only m m' /\
  (trackMetrics options = true ->
   match fst (redis_get key w) with
   | Ok JNull => miss_only m m' /\ r = Ok (fallback options)
   | Ok (JStr s) =>
       if parseJSON options then
         match JSON_parse s with
         | Some v => hit_only m m' /\ r = Ok v
         | None => hit_and_error m m' /\ r = Ok (fallback options)
         end
       else hit_only m m' /\ r = Ok (JStr s)
   | Ok v => hit_only m m' /\ r = Ok v
   | Throw _ => False
   end) /\
  (trackMetrics options = false ->
   hits m' = hits m /\ misses m' = misses m /\ errors m' = errors m).
Proof.
  cbv zeta.
  unfold cache_get, hit_only, miss_only, hit_and_error, error_only.
  destruct (trackMetrics options).
  all: run; rewrite !redis_get_cases; simpl.
  all: destruct (isConnected w), (client_up w); simpl;
    try (repeat split; intros; lia || done).
  all: destruct (store w !! key) as [[|c s]|]; simpl;
    try (repeat split; intros; lia || done).
  all: destruct (JSON_parse (c :: s)) as [v|]; simpl;
    try (repeat split; intros; lia || done).
  all: destruct (parseJSON options), v as [| |b|z| |s'|items|props]; simpl;
    try (repeat split; intros; lia || done).
  all: destruct (JSON_parse s'); simpl; repeat split; intros; lia || done.
Qed.

Lemma get_counts_witness :
  let w := running one_row_driver unparsable_store in
  let w' := snd (cache_get (txt "greeting") get_defaults w) in
  totalRequests (cache_metrics w') = 1 /\
  hit_and_error (cache_metrics w) (cache_metrics w') /\
  fst (cache_get (txt "greeting") get_defaults w) = Ok JNull.
Proof.
  pose proof (get_counts (txt "greeting") get_defaults
                (running one_row_driver unparsable_store))
    as (Htotal & _ & Htracked & _).
  specialize (Htracked eq_refl).
  vm_compute in Htotal, Htracked. vm_compute.
  destruct Htracked as [Hcount Hr]. split; [exact Htotal|].
  split; [exact Hcount|exact Hr].
Defined.

(** C7 as the specification states it fails where the value found is a
    string that does not parse: [hits] and [errors] both grow, so the
    call is not counted under exactly one of the three. *)
Lemma get_counts_counterexample :
  let w := running one_row_driver unparsable_store in
  let m := cache_metrics w in
  let m' := cache_metrics (snd (cache_get (txt "greeting") get_defaults w)) in
  trackMetrics get_defaults = true /\
  hits m' = hits m + 1 /\ errors m' = errors m + 1 /\
  ~ (hit_only m m' \/ miss_only m m' \/ error_only m m').
Proof.
  vm_compute. repeat split; try done.
  intros [(_ & _ & H)|[(H & _)|(H & _)]]; discriminate H.
Qed.

(** On the path where the cache layer's own parse fails, the entry stays
    where it is. *)
Lemma get_keeps_unparsable_entry key options w s :
  parseJSON options = true ->
  fst (redis_get key w) = Ok (JStr s) ->
  JSON_parse s = None ->
  fst (cache_get key options w) = Ok (fallback options) /\
  store (snd (cache_get key options w)) = store w.
Proof.
  intros Hp Hr Hs. unfold cache_get. rewrite Hp. run.
  revert Hr. rewrite !redis_get_cases. simpl.
  destruct (isConnected w), (client_up w); simpl; try done.
  destruct (store w !! key) as [[|c s']|]; simpl; try done.
  destruct (JSON_parse (c :: s')) as [v|]; simpl; [|done].
  intros [= ->]. rewrite Hs. by destruct (trackMetrics options).
Qed.

(** C8 on the code.  A string stored without stringifying is found by
    [get], fails to parse, and the clean-up raises before it deletes
    anything: the caller gets the fallback, the entry is still there, and
    the next [get] meets it again. *)
Theorem unparsable_entry_survives :
  let w0 := running one_row_driver ∅ in
  let w1 := snd (cache_set some_gzip (txt "greeting") (JStr (txt "hello")) 60
                   (SetOptions false (1024 * 1024) false) w0) in
  let w2 := snd (cache_get (txt "greeting") get_defaults w1) in
  store w1 = unparsable_store /\
  fst (cache_get (txt "greeting") get_defaults w1) = Ok JNull /\
  store w2 !! txt "greeting" = Some (txtq "'hello'") /\
  fst (cache_get (txt "greeting") get_defaults w2) = Ok JNull /\
  this_del (txt "greeting") w1
  = (Throw (TypeError (txt "this.del is not a function")), w1).
Proof. vm_compute. repeat split; reflexivity. Qed.

Lemma stringify_string s : stringify (JStr s) = Some (json_quote s).
Proof. reflexivity. Qed.

Lemma compressed_key_differs (key : text) : key ++ txt ":compressed" <> key.
Proof.
  intros H. apply (f_equal length) in H. rewrite length_app in H.
  vm_compute length in H. lia.
Qed.

(** A [get] of a key the store does not hold is a miss, whatever the
    state of the connection. *)
Lemma get_absent key options w :
  store w !! key = None ->
  fst (cache_get key options w) = Ok (fallback options) /\
  store (snd (cache_get key options w)) = store w /\
  (trackMetrics options = true ->
   miss_only (cache_metrics w) (cache_metrics (snd (cache_get key options w)))).
Proof.
  intros Hk. unfold cache_get, miss_only. run.
  rewrite !redis_get_cases. simpl. rewrite Hk.
  destruct (isConnected w && client_up w), (trackMetrics options); simpl;
    repeat split; done || lia.
Qed.

(** What a [get] returns depends on the connection and on the entry of
    its key only. *)
Lemma cache_get_result key options w1 w2 :
  isConnected w1 = isConnected w2 ->
  client_up w1 = client_up w2 ->
  store w1 !! key = store w2 !! key ->
  fst (cache_get key options w1) = fst (cache_get key options w2).
Proof.
  intros Hc Hu Hk. unfold cache_get. run. rewrite !redis_get_cases. simpl.
  rewrite Hc, Hu, Hk.
  destruct (isConnected w2 && client_up w2), (trackMetrics options); simpl;
    try done.
  all: destruct (store w2 !! key) as [[|c s]|]; simpl; try done.
  all: destruct (JSON_parse (c :: s)) as [v|]; simpl; try done.
  all: destruct (parseJSON options), v as [| |b|z| |s'|items|props]; simpl;
    try done.
  all: by destruct (JSON_parse s').
Qed.

Section CacheProperties.

Variable gzip_base64 : text -> text.

(** C10, as amended.  When the serialized value is longer than
    [maxSize] and [compress] is on, [set] reports success and what it
    stores goes under [key:compressed], never under [key]: the entry of
    [key] is what it was, and a [get] of [key] returns what it would
    have returned without the [set].  That is a miss where the store
    held nothing for [key], and the earlier value where it held one. *)
Theorem compressed_value_unreachable (key : text) (value : jsval) (ttl : Z)
    (options : set_options) (serialized : text) (w : world) :
  compress options = true ->
  (if stringifyJSON options then stringify value = Some serialized
   else value = JStr serialized) ->
  maxSize options < Z.of_nat (length serialized) ->
  let w' := snd (cache_set gzip_base64 key value ttl options w) in
  fst (cache_set gzip_base64 key value ttl options w) = Ok true /\
  (isConnected w && client_up w = true ->
   store w' = <[key ++ txt ":compressed" := json_quote (gzip_base64 serialized)]>
                (store w)) /\
  store w' !! key = store w !! key /\
  (forall get_opts,
     fst (cache_get key get_opts w') = fst (cache_get key get_opts w)) /\
  (store w !! key = None ->
   forall get_opts,
     fst (cache_get key get_opts w') = Ok (fallback get_opts) /\
     (trackMetrics get_opts = true ->
      miss_only (cache_metrics w')
                (cache_metrics (snd (cache_get key get_opts w'))))).
Proof.
  intros Hc Hser Hsize. cbv zeta.
  assert (Hset :
    cache_set gzip_base64 key value ttl options w
    = (Ok true,
       if isConnected w && client_up w
       then with_store w
              (<[key ++ txt ":compressed" := json_quote (gzip_base64 serialized)]>
                 (store w))
       else w)).
  { unfold cache_set, redis_set. rewrite Hc.
    destruct (stringifyJSON options).
    - rewrite Hser. run. apply Z.ltb_lt in Hsize. rewrite Hsize.
      destruct (isConnected w); simpl; [|done].
      by destruct (client_up w).
    - subst value. run. apply Z.ltb_lt in Hsize. rewrite Hsize.
      destruct (isConnected w); simpl; [|done].
      by destruct (client_up w). }
  rewrite Hset. simpl fst. simpl snd.
  assert (Hkey :
    store (if isConnected w && client_up w
           then with_store w
                  (<[key ++ txt ":compressed" := json_quote (gzip_base64 serialized)]>
                     (store w))
           else w) !! key = store w !! key).
  { destruct (isConnected w && client_up w); [|done]. simpl.
    apply lookup_insert_ne, compressed_key_differs. }
  split; [done|]. split; [by intros ->|]. split; [done|]. split.
  { intros get_opts. apply cache_get_result; [..|done].
    all: by destruct (isConnected w && client_up w). }
  intros Hnone get_opts. rewrite <- Hkey in Hnone.
  destruct (get_absent key get_opts _ Hnone) as (? & _ & ?). auto.
Qed.

End CacheProperties.

Lemma compressed_value_unreachable_witness :
  let options := SetOptions true 3 true in
  let w := running one_row_driver ∅ in
  let w' := snd (cache_set some_gzip (txt "k") (JStr (txt "hello")) 60 options w) in
  store w' !! txt "k" = None /\
  store w' !! txt "k:compressed" = Some (json_quote (some_gzip (txtq "'hello'"))) /\
  fst (cache_get (txt "k") get_defaults w') = Ok JNull /\
  miss_only (cache_metrics w')
            (cache_metrics (snd (cache_get (txt "k") get_defaults w'))).
Proof.
  pose proof (compressed_value_unreachable some_gzip (txt "k")
                (JStr (txt "hello")) 60 (SetOptions true 3 true)
                (txtq "'hello'") (running one_row_driver ∅)
                eq_refl eq_refl eq_refl) as (_ & _ & _ & _ & Hmiss).
  destruct (Hmiss eq_refl get_defaults) as [Hget Hm].
  split; [vm_compute; reflexivity|]. split; [vm_compute; reflexivity|].
  split; [exact Hget|exact (Hm eq_refl)].
Defined.

(** C10 as the specification states it fails where the key already has
    an entry: the [set] leaves it, and the [get] that follows is a hit
    that returns the earlier value, not a miss. *)
Lemma compressed_value_counterexample :
  let options := SetOptions true 3 true in
  let w := running one_row_driver {[ txt "k" := txt "7" ]} in
  let w' :=
    snd (cache_set some_gzip (txt "k") (JStr (txt "hello")) 60 options w) in
  compress options = true /\
  maxSize options < Z.of_nat (length (json_quote (txt "hello"))) /\
  fst (cache_set some_gzip (txt "k") (JStr (txt "hello")) 60 options w)
  = Ok true /\
  fst (cache_get (txt "k") get_defaults w') = Ok (JNum 7) /\
  hit_only (cache_metrics w')
           (cache_metrics (snd (cache_get (txt "k") get_defaults w'))) /\
  ~ miss_only (cache_metrics w')
              (cache_metrics (snd (cache_get (txt "k") get_defaults w'))).
Proof.
  vm_compute. repeat split; try done.
  intros (H & _). discriminate H.
Qed.

(** ** What a computation leaves alone

    A relation between the state before and the state after that holds
    across [ret], [throw] and the reads, and composes along [bind] and
    [try_catch]. *)

Section Preservation.

Variable R : world -> world -> Prop.
Hypothesis R_refl : forall w, R w w.
Hypothesis R_trans : forall w1 w2 w3, R w1 w2 -> R w2 w3 -> R w1 w3.

Lemma preserves_ret {A} (a : A) : preserves R (ret a).
Proof. intros w. apply R_refl. Qed.

Lemma preserves_throw {A} e : preserves R (@throw A e).
Proof. intros w. apply R_refl. Qed.

Lemma preserves_lift {A} (o : outcome A) : preserves R (lift o).
Proof. intros w. apply R_refl. Qed.

Lemma preserves_read {A} (f : world -> A) : preserves R (read f).
Proof. intros w. apply R_refl. Qed.

Lemma preserves_bind {A B} (m : M A) (f : A -> M B) :
  preserves R m -> (forall a, preserves R (f a)) -> preserves R (bind m f).
Proof.
  intros Hm Hf w. unfold bind. specialize (Hm w).
  destruct (m w) as [[a|e] w1]; simpl in *; [|done].
  eapply R_trans; [exact Hm|]. apply Hf.
Qed.

Lemma preserves_try_catch {A} (m : M A) (h : exn -> M A) :
  preserves R m -> (forall e, preserves R (h e)) -> preserves R (try_catch m h).
Proof.
  intros Hm Hh w. unfold try_catch. specialize (Hm w).
  destruct (m w) as [[a|e] w1]; simpl in *; [done|].
  eapply R_trans; [exact Hm|]. apply Hh.
Qed.

Lemma preserves_when b (m : M unit) : preserves R m -> preserves R (when b m).
Proof. intros Hm. destruct b; [done|apply preserves_ret]. Qed.

End Preservation.

Lemma same_but_refl key w : same_but key w w.
Proof. by intros k _. Qed.

Lemma same_but_trans key w1 w2 w3 :
  same_but key w1 w2 -> same_but key w2 w3 -> same_but key w1 w3.
Proof. intros H1 H2 k Hk. rewrite H2, H1; done. Qed.

Lemma same_store_refl w : same_store w w.
Proof. done. Qed.

Lemma same_store_trans w1 w2 w3 :
  same_store w1 w2 -> same_store w2 w3 -> same_store w1 w3.
Proof. unfold same_store. congruence. Qed.

Lemma same_store_same_but key w w' : same_store w w' -> same_but key w w'.
Proof. intros H k _. by rewrite H. Qed.

Ltac p_side :=
  solve [ apply same_store_refl | apply same_but_refl
        | exact same_store_trans | apply same_but_trans ].

(** One step along the structure of a computation. *)
Ltac p_step :=
  lazymatch goal with
  | |- forall _, _ => intro
  | |- preserves _ (ret _) => apply preserves_ret; p_side
  | |- preserves _ (throw _) => apply preserves_throw; p_side
  | |- preserves _ (lift _) => apply preserves_lift; p_side
  | |- preserves _ (read _) => apply preserves_read; p_side
  | |- preserves _ Date_now => apply preserves_read; p_side
  | |- preserves _ (bind _ _) => apply preserves_bind; [p_side| |]
  | |- preserves _ (try_catch _ _) => apply preserves_try_catch; [p_side| |]
  | |- preserves _ (when _ _) => apply preserves_when; [p_side|]
  | |- preserves _ (match ?x with _ => _ end) => destruct x
  end.

Lemma database_query_store statement :
  preserves same_store (database_query statement).
Proof.
  intros w. unfold database_query, same_store.
  by destruct (_ || _).
Qed.

Lemma getTotalCount_store sql : preserves same_store (getTotalCount sql).
Proof.
  unfold getTotalCount. repeat p_step. apply database_query_store.
Qed.

Lemma executeWithPagination_store sql page pageSize :
  preserves same_store (executeWithPagination sql page pageSize).
Proof.
  unfold executeWithPagination. repeat p_step.
  - apply database_query_store.
  - apply getTotalCount_store.
Qed.

Lemma explainQuery_store sql : preserves same_store (explainQuery sql).
Proof.
  unfold explainQuery. repeat p_step. apply database_query_store.
Qed.

Lemma redis_get_same_but key : preserves (same_but key) (redis_get key).
Proof.
  intros w k Hk. rewrite redis_get_cases.
  destruct (isConnected w && client_up w); [|done].
  destruct (store w !! key) as [[|c s]|]; try done.
  destruct (JSON_parse (c :: s)); [done|]. simpl.
  by apply lookup_delete_ne.
Qed.

Lemma bump_same_but key (m : M unit) :
  m = bump_hits \/ m = bump_misses \/ m = bump_errors \/ m = bump_totalRequests ->
  preserves (same_but key) m.
Proof. intros [->|[->|[->| ->]]] w k _; done. Qed.

Lemma cache_get_same_but key options :
  preserves (same_but key) (cache_get key options).
Proof.
  unfold cache_get, this_del. repeat p_step.
  all: try (apply bump_same_but; tauto).
  apply redis_get_same_but.
Qed.

Lemma redis_set_same_but key value ttl :
  preserves (same_but key) (redis_set key value ttl).
Proof.
  intros w k Hk. unfold redis_set. run.
  destruct (isConnected w); simpl; [|done].
  destruct (stringify value); simpl; [|done].
  destruct (client_up w); simpl; [|done].
  by apply lookup_insert_ne.
Qed.

(** ** The executor *)

Lemma explainQuery_cases sql w :
  explainQuery sql w =
  if supported (DB_TYPE w) then
    match driver w (explainSQL (DB_TYPE w) sql) with
    | Ok res =>
        (Ok (MkExplainResult (Some (db_rows res)) true
               (Some (extractCostFromPlan (db_rows res))) None
               (analyzeExecutionPlan (db_rows res))),
         with_sent w (sent w ++ [explainSQL (DB_TYPE w) sql])
                   (now w + latency w))
    | Throw e =>
        (Ok (MkExplainResult None false None (Some (exn_message e))
               [txt "Query validation failed"]),
         with_sent w (sent w ++ [explainSQL (DB_TYPE w) sql])
                   (now w + latency w))
    end
  else
    (Ok (MkExplainResult None false None
           (Some (txt "Explain not supported for database type: "
                    ++ env_or (DB_TYPE w) (txt "postgresql")))
           [txt "Query validation failed"]), w).
Proof.
  unfold explainQuery, supported, explainSQL, postgresql, database_query.
  unfold try_catch, bind, read, ret, throw.
  destruct (text_eqb (env_or (DB_TYPE w) (txt "postgresql")) (txt "postgresql"))
    eqn:Hpg; cbn [orb].
  - rewrite Hpg. cbn [orb]. by destruct (driver w _).
  - destruct (text_eqb (env_or (DB_TYPE w) (txt "postgresql")) (txt "mysql"))
      eqn:Hmy; [|done].
    rewrite Hpg, Hmy. cbn [orb]. by destruct (driver w _).
Qed.

(** C9.  The dry run never raises.  When the database type is supported
    and the database accepts the EXPLAIN statement the result is valid,
    with the plan, a cost and a list of warnings; in every other case it
    is invalid, with the single warning [Query validation failed]. *)
Theorem explain_never_raises (sql : text) (w : world) :
  exists r w',
    explainQuery sql w = (Ok r, w') /\
    if supported (DB_TYPE w) then
      match driver w (explainSQL (DB_TYPE w) sql) with
      | Ok res =>
          isValid r = true /\
          explainPlan r = Some (db_rows res) /\
          estimatedCost r = Some (extractCostFromPlan (db_rows res)) /\
          warnings r = analyzeExecutionPlan (db_rows res)
      | Throw e =>
          isValid r = false /\ explainPlan r = None /\
          warnings r = [txt "Query validation failed"]
      end
    else
      isValid r = false /\ explainPlan r = None /\
      warnings r = [txt "Query validation failed"].
Proof.
  rewrite explainQuery_cases.
  destruct (supported (DB_TYPE w)); [|by eauto 10].
  destruct (driver w _); by eauto 10.
Qed.

Lemma clamp_page_range page :
  clamp_page page = NaN \/ exists z, clamp_page page = Int z /\ 1 <= z.
Proof.
  unfold clamp_page. destruct page as [p|]; [|by left]. right. simpl.
  destruct (p <? 1) eqn:Hp; [exists 1; split; [done|lia]|].
  apply Z.ltb_ge in Hp. eauto.
Qed.

Lemma clamp_pageSize_range pageSize :
  clamp_pageSize pageSize = NaN \/
  exists z, clamp_pageSize pageSize = Int z /\ 1 <= z <= 100.
Proof.
  unfold clamp_pageSize, defaultPageSize.
  destruct pageSize as [s|]; [|by left]. right. simpl.
  destruct ((s <? 1) || (100 <? s)) eqn:Hs; [exists 50; split; [done|lia]|].
  apply orb_false_iff in Hs as [H1 H2].
  apply Z.ltb_ge in H1. apply Z.ltb_ge in H2. eauto.
Qed.

Lemma clamp_pageSize_Int z : exists z', clamp_pageSize (Int z) = Int z'.
Proof.
  unfold clamp_pageSize. simpl. destruct (_ || _); eauto.
Qed.

Lemma ceil_div_zero z : 1 <= z -> num_ceil_div (Int 0) (Int z) = Int 0.
Proof.
  intros Hz. unfold num_ceil_div.
  destruct (z =? 0) eqn:E; [apply Z.eqb_eq in E; lia|].
  change (- 0) with 0. by rewrite Zdiv_0_l.
Qed.

Lemma no_next_page page pageSize :
  num_ltb (clamp_page page) (num_ceil_div (Int 0) (clamp_pageSize pageSize))
  = false.
Proof.
  destruct (clamp_pageSize_range pageSize) as [->|(s & -> & Hs)].
  { by destruct (clamp_page page). }
  rewrite ceil_div_zero by lia.
  destruct (clamp_page_range page) as [->|(p & -> & Hp)]; [done|].
  simpl. apply Z.ltb_ge. lia.
Qed.

Lemma no_pages_of_none pageSize z :
  pageSize = Int z ->
  num_ceil_div (Int 0) (clamp_pageSize pageSize) = Int 0.
Proof.
  intros ->.
  destruct (clamp_pageSize_range (Int z)) as [H|(s & -> & Hs)].
  - destruct (clamp_pageSize_Int z) as [z' Hz]. congruence.
  - apply ceil_div_zero. lia.
Qed.

Lemma getTotalCount_fails sql w :
  supported (DB_TYPE w) = true ->
  count_fails (driver w) sql ->
  getTotalCount sql w
  = (Ok (Int 0), with_sent w (sent w ++ [countSQL sql]) (now w + latency w)).
Proof.
  unfold supported, count_fails, getTotalCount, database_query.
  intros Hs Hc. unfold try_catch, bind, lift, ret. rewrite Hs.
  destruct (driver w (countSQL sql)) as [r|e]; [|done].
  by destruct (hd JUndef (db_rows r)).
Qed.

Lemma executeWithPagination_count_fails sql page pageSize w result :
  supported (DB_TYPE w) = true ->
  driver w (paginatedSQL (DB_TYPE w) sql page pageSize) = Ok result ->
  count_fails (driver w) sql ->
  executeWithPagination sql page pageSize w
  = (Ok (uncounted_page page pageSize result
           (now w + latency w + latency w - now w)),
     with_sent w (sent w ++ [paginatedSQL (DB_TYPE w) sql page pageSize;
                             countSQL sql])
               (now w + latency w + latency w)).
Proof.
  intros Hs Hd Hc.
  unfold executeWithPagination, uncounted_page, paginatedSQL in *.
  fold (clamp_page page). fold (clamp_pageSize pageSize).
  unfold Date_now, try_catch, bind, read, ret.
  unfold database_query. fold (supported (DB_TYPE w)). rewrite Hs, Hd.
  rewrite getTotalCount_fails by done.
  cbn [sent now latency with_sent].
  rewrite no_next_page, <- app_assoc. done.
Qed.

(** A [get] returns, and leaves the database and the clock alone. *)
Lemma cache_get_frame key options w :
  exists v w',
    cache_get key options w = (Ok v, w') /\
    DB_TYPE w' = DB_TYPE w /\ driver w' = driver w /\ sent w' = sent w /\
    now w' = now w /\ latency w' = latency w.
Proof.
  unfold cache_get. run. rewrite redis_get_cases. simpl.
  destruct (isConnected w && client_up w), (trackMetrics options); simpl;
    try by eauto 10.
  all: destruct (store w !! key) as [[|c s]|]; simpl; try by eauto 10.
  all: destruct (JSON_parse (c :: s)) as [v|]; simpl; try by eauto 10.
  all: destruct (parseJSON options), v as [| |b|z| |s'|items|props]; simpl;
    try by eauto 10.
  all: destruct (JSON_parse s'); simpl; by eauto 10.
Qed.

Section ExecutorProperties.

Variable gzip_base64 : text -> text.

Lemma cache_set_total key value ttl options w :
  exists b w',
    cache_set gzip_base64 key value ttl options w = (Ok b, w').
Proof.
  unfold cache_set, try_catch.
  match goal with
  | |- exists _ _, (let (_, _) := ?m in _) = _ => destruct m as [[b|e] w']
  end; eauto.
Qed.

(** C2.  A text whose trimmed, lower-cased form does not begin with
    [select] is rejected with [Only SELECT statements are allowed], and
    nothing else has run: [executeQuery] raises the same error and leaves
    the cache, its counters and the database as they were. *)
Theorem non_select_rejected (sql : text) (options : query_options)
    (w : world) :
  begins_with_select sql = false ->
  validateQuery sql
  = Throw (Error (txt "Only SELECT statements are allowed")) /\
  executeQuery gzip_base64 sql options w
  = (Throw (Error (txt "Only SELECT statements are allowed")), w).
Proof.
  intros Hsel.
  assert (Hv : validateQuery sql
               = Throw (Error (txt "Only SELECT statements are allowed"))).
  { unfold validateQuery. unfold begins_with_select in Hsel. by rewrite Hsel. }
  split; [done|].
  unfold executeQuery, try_catch, bind, lift, throw. by rewrite Hv.
Qed.

(** C5.  When the request passes validation, is not a dry run and is not
    served from the cache, the paginated query succeeds and the count
    query fails, [executeQuery] returns the rows of the paginated query
    with [totalRows] zero, no next page, and [totalPages] the quotient of
    zero by the page size (zero, for a page size that is a number). *)
Theorem count_failure_tolerated (sql : text) (options : query_options)
    (w : world) (result : dbresult) :
  validateQuery sql = Ok tt ->
  default false (opt_dryRun options) = false ->
  served_from_cache sql options w = false ->
  supported (DB_TYPE w) = true ->
  driver w (paginatedSQL (DB_TYPE w) sql (request_page options)
              (request_pageSize options)) = Ok result ->
  count_fails (driver w) sql ->
  exists r w',
    executeQuery gzip_base64 sql options w = (Ok (Fresh r), w') /\
    qr_rows r = db_rows result /\
    qr_fromCache r = false /\
    pg_totalRows (qr_pagination r) = Int 0 /\
    pg_totalPages (qr_pagination r)
    = num_ceil_div (Int 0) (pg_pageSize (qr_pagination r)) /\
    (forall z, request_pageSize options = Int z ->
               pg_totalPages (qr_pagination r) = Int 0) /\
    pg_hasNextPage (qr_pagination r) = false.
Proof.
  intros Hv Hdry Hserved Hs Hd Hc.
  exists (uncounted_page (request_page options) (request_pageSize options)
            result (now w + latency w + latency w - now w)).
  unfold served_from_cache in Hserved. rewrite Hdry in Hserved.
  unfold executeQuery.
  fold (request_page options). fold (request_pageSize options).
  fold (request_key sql options). rewrite Hdry.
  unfold try_catch at 1. unfold bind at 1. unfold lift. rewrite Hv.
  cbn [negb andb] in *.
  assert (Hrun : forall w1,
    DB_TYPE w1 = DB_TYPE w -> driver w1 = driver w -> now w1 = now w ->
    latency w1 = latency w ->
    exists w',
      (result0 <- executeWithPagination sql (request_page options)
                    (request_pageSize options) ;;
       when (default true (opt_useCache options)
             && (0 <? Z.of_nat (length (qr_rows result0))))
            (cache_set gzip_base64 (request_key sql options)
               (js_of_result result0) cacheTTL set_defaults ;;; ret tt) ;;;
       ret (Fresh result0)) w1
      = (Ok (Fresh (uncounted_page (request_page options)
                      (request_pageSize options) result
                      (now w + latency w + latency w - now w))), w')).
  { clear Hserved. intros w1 H1 H2 H3 H4. unfold bind at 1.
    rewrite (executeWithPagination_count_fails _ _ _ _ result);
      rewrite ?H1, ?H2; try done.
    rewrite H3, H4. unfold bind at 1. unfold when.
    destruct (default true (opt_useCache options) && _).
    - unfold bind at 1.
      match goal with
      | |- context [cache_set gzip_base64 ?k ?v ?t ?o ?w0] =>
          destruct (cache_set_total k v t o w0) as (b & w' & ->)
      end.
      unfold ret. eauto.
    - unfold ret. eauto. }
  destruct (default true (opt_useCache options)) eqn:Hcache; cbn [andb] in *.
  - destruct (cache_get_frame (request_key sql options) get_defaults w)
      as (v & w1 & Hget & H1 & H2 & _ & H3 & H4).
    unfold bind at 1. rewrite Hget in *. simpl in Hserved. rewrite Hserved.
    destruct (Hrun w1 H1 H2 H3 H4) as [w' ->].
    exists w'. split; [done|].
    repeat split. intros z Hz. by eapply no_pages_of_none.
  - destruct (Hrun w eq_refl eq_refl eq_refl eq_refl) as [w' ->].
    exists w'. split; [done|].
    repeat split. intros z Hz. by eapply no_pages_of_none.
Qed.

End ExecutorProperties.

Lemma non_select_rejected_witness :
  executeQuery some_gzip (txt "DROP TABLE users") no_options
    (running one_row_driver ∅)
  = (Throw (Error (txt "Only SELECT statements are allowed")),
     running one_row_driver ∅).
Proof.
  apply (non_select_rejected some_gzip (txt "DROP TABLE users") no_options
           (running one_row_driver ∅)).
  vm_compute. reflexivity.
Defined.

Lemma count_failure_tolerated_witness :
  exists r w',
    executeQuery some_gzip (txt "SELECT id FROM users") no_options
      (running no_count_driver ∅) = (Ok (Fresh r), w') /\
    qr_rows r = [JObj [(txt "id", JNum 1)]] /\
    qr_fromCache r = false /\
    pg_totalRows (qr_pagination r) = Int 0 /\
    pg_totalPages (qr_pagination r)
    = num_ceil_div (Int 0) (pg_pageSize (qr_pagination r)) /\
    (forall z, request_pageSize no_options = Int z ->
               pg_totalPages (qr_pagination r) = Int 0) /\
    pg_hasNextPage (qr_pagination r) = false.
Proof.
  apply (count_failure_tolerated some_gzip (txt "SELECT id FROM users")
           no_options (running no_count_driver ∅)
           (DbResult [JObj [(txt "id", JNum 1)]] None)).
  - vm_compute. reflexivity.
  - reflexivity.
  - vm_compute. reflexivity.
  - vm_compute. reflexivity.
  - vm_compute. reflexivity.
  - vm_compute. exact I.
Defined.

Lemma sent_extends_refl w : sent_extends w w.
Proof. exists []. by rewrite app_nil_r. Qed.

Lemma sent_extends_trans w1 w2 w3 :
  sent_extends w1 w2 -> sent_extends w2 w3 -> sent_extends w1 w3.
Proof.
  intros [m1 H1] [m2 H2]. exists (m1 ++ m2). by rewrite H2, H1, app_assoc.
Qed.

Lemma database_query_sent statement :
  preserves sent_extends (database_query statement).
Proof.
  intros w. unfold database_query.
  destruct (_ || _); simpl; [by exists [statement]|apply sent_extends_refl].
Qed.

Lemma getTotalCount_sent sql : preserves sent_extends (getTotalCount sql).
Proof.
  unfold getTotalCount.
  apply preserves_try_catch; [exact sent_extends_trans| |].
  - apply preserves_bind; [exact sent_extends_trans| |].
    + apply database_query_sent.
    + intros result w. apply sent_extends_trans with w; [apply sent_extends_refl|].
      match goal with
      | |- sent_extends _ (snd (?m w)) =>
          assert (snd (m w) = w) as ->; [|apply sent_extends_refl]
      end.
      unfold bind, lift, ret.
      destruct (get_prop _ _); [|done].
      destruct (truthy a); [done|]. by destruct (get_prop _ _).
  - intros e w. apply sent_extends_refl.
Qed.

Lemma preserves_weaken {A} (R1 R2 : world -> world -> Prop) (m : M A) :
  (forall w w', R1 w w' -> R2 w w') -> preserves R1 m -> preserves R2 m.
Proof. intros H Hm w. apply H, Hm. Qed.

Section KeyProperties.

Variable gzip_base64 : text -> text.

Lemma cache_set_defaults_same_but key value ttl :
  preserves (same_but key) (cache_set gzip_base64 key value ttl set_defaults).
Proof.
  unfold cache_set. cbn [compress stringifyJSON maxSize set_defaults].
  repeat p_step. all: apply redis_set_same_but.
Qed.

Lemma executeQuery_same_but sql options :
  preserves (same_but (request_key sql options))
            (executeQuery gzip_base64 sql options).
Proof.
  unfold executeQuery. cbv zeta.
  fold (request_page options). fold (request_pageSize options).
  fold (request_key sql options).
  repeat p_step.
  all: try apply cache_get_same_but.
  all: try apply cache_set_defaults_same_but.
  all: try (apply (preserves_weaken same_store);
            [apply same_store_same_but
            |apply explainQuery_store || apply executeWithPagination_store]).
Qed.

(** C6, as amended.  [executeWithPagination] clamps the page to at least
    1 and a page size outside 1..100 to 50 before it computes the offset,
    rewrites the statement and reports the pagination; the statement it
    sends first, where the database type is supported, is the one
    rewritten with the clamped values.
    [executeQuery] derives the cache key from the page and page size as
    they were given: that key's entry, when it holds a value, is what the
    request is served from, and no other entry of the store is touched. *)
Theorem clamped_for_the_query (sql : text) (options : query_options)
    (w : world) :
  let page := request_page options in
  let pageSize := request_pageSize options in
  (forall z, page = Int z -> clamp_page page = Int (Z.max 1 z)) /\
  (forall z, pageSize = Int z ->
             clamp_pageSize pageSize
             = Int (if (1 <=? z) && (z <=? 100) then z else 50)) /\
  (forall r w',
     executeWithPagination sql page pageSize w = (Ok r, w') ->
     pg_page (qr_pagination r) = clamp_page page /\
     pg_pageSize (qr_pagination r) = clamp_pageSize pageSize) /\
  (supported (DB_TYPE w) = true ->
   exists more,
     sent (snd (executeWithPagination sql page pageSize w))
     = sent w ++ paginatedSQL (DB_TYPE w) sql page pageSize :: more) /\
  same_but (request_key sql options) w
           (snd (executeQuery gzip_base64 sql options w)) /\
  (validateQuery sql = Ok tt ->
   default true (opt_useCache options) = true ->
   default false (opt_dryRun options) = false ->
   forall v,
     fst (cache_get (request_key sql options) get_defaults w) = Ok v ->
     truthy v = true ->
     fst (executeQuery gzip_base64 sql options w)
     = Ok (Cached (JObj (set_assoc (txt "fromCache") (JBool true)
                           (own_props v))))).
Proof.
  intros page pageSize. split; [|split; [|split; [|split; [|split]]]].
  - intros z ->. unfold clamp_page. simpl.
    destruct (z <? 1) eqn:Hz; f_equal.
    + apply Z.ltb_lt in Hz. lia.
    + apply Z.ltb_ge in Hz. lia.
  - intros z ->. unfold clamp_pageSize, defaultPageSize. simpl.
    destruct (z <? 1) eqn:H1, (100 <? z) eqn:H2, (1 <=? z) eqn:H3,
      (z <=? 100) eqn:H4; simpl; try done; exfalso.
    all: try apply Z.ltb_lt in H1; try apply Z.ltb_ge in H1.
    all: try apply Z.ltb_lt in H2; try apply Z.ltb_ge in H2.
    all: try apply Z.leb_le in H3; try apply Z.leb_gt in H3.
    all: try apply Z.leb_le in H4; try apply Z.leb_gt in H4.
    all: lia.
  - intros r w'. unfold executeWithPagination.
    fold (clamp_page page). fold (clamp_pageSize pageSize).
    unfold Date_now, try_catch, bind, read, ret, throw.
    destruct (database_query _ w) as [[result|e] w1]; [|done].
    destruct (getTotalCount sql w1) as [[total|e] w2]; [|done].
    by intros [= <- <-].
  - intros Hs. unfold executeWithPagination.
    fold (clamp_page page). fold (clamp_pageSize pageSize).
    unfold Date_now, try_catch, bind, read, ret, throw.
    fold (paginatedSQL (DB_TYPE w) sql page pageSize).
    unfold database_query. fold (supported (DB_TYPE w)). rewrite Hs.
    destruct (driver w _) as [result|e]; [|by exists []].
    match goal with
    | |- context [getTotalCount sql ?w1] =>
        pose proof (getTotalCount_sent sql w1) as [more Hmore];
        destruct (getTotalCount sql w1) as [[total|e] w2]
    end; simpl in *; exists more; by rewrite Hmore, <- app_assoc.
  - apply executeQuery_same_but.
  - intros Hv Hcache Hdry v Hget Htruthy. unfold executeQuery.
    fold (request_page options). fold (request_pageSize options).
    fold (request_key sql options). rewrite Hcache, Hdry.
    unfold try_catch, bind, lift, ret. rewrite Hv. cbn [negb andb].
    destruct (cache_get _ _ w) as [[v'|e] w1]; simpl in Hget; [|done].
    injection Hget as ->. by rewrite Htruthy.
Qed.

End KeyProperties.

(** C6 as the specification states it fails at the cache key: a request
    for page 0 with page size 500 is run as page 1 with page size 50, and
    its result is stored under the key of 0 and 500, not under that of
    the clamped values. *)
Lemma cache_key_counterexample :
  let sql := txt "SELECT id FROM users" in
  let options := QueryOptions (Some (Int 0)) (Some (Int 500)) None None in
  let run := executeQuery some_gzip sql options (running one_row_driver ∅) in
  (exists r,
     fst run = Ok (Fresh r) /\
     pg_page (qr_pagination r) = Int 1 /\
     pg_pageSize (qr_pagination r) = Int 50) /\
  is_Some (store (snd run) !! generateCacheKey sql (Int 0) (Int 500)) /\
  store (snd run)
    !! generateCacheKey sql (clamp_page (Int 0)) (clamp_pageSize (Int 500))
  = None.
Proof.
  vm_compute. split; [|split; [|reflexivity]].
  - eexists. split; [reflexivity|]. split; reflexivity.
  - eexists. reflexivity.
Qed.

(** * More properties *)

(** ** Decimal numerals *)

Lemma uint_chars_digits d : forallb is_digit (uint_chars d) = true.
Proof.
  unfold uint_chars, txt. induction d; try done; simpl; exact IHd.
Qed.

Lemma uint_chars_acc l :
  forall acc,
    Z.pos (Pos.of_uint_acc l acc)
    = fold_left (fun a c => 10 * a + digit_value c) (uint_chars l) (Z.pos acc).
Proof.
  unfold uint_chars, txt.
  induction l; intros acc; try done.
  all: cbn [NilEmpty.string_of_uint list_ascii_of_string fold_left
            Pos.of_uint_acc].
  all: rewrite IHl; f_equal; unfold digit_value; cbn; lia.
Qed.

Lemma uint_chars_value d :
  digits_value (uint_chars d) = Z.of_N (Pos.of_uint d).
Proof.
  unfold digits_value. induction d; try done.
  all: unfold uint_chars, txt in *;
    cbn [NilEmpty.string_of_uint list_ascii_of_string fold_left Pos.of_uint].
  all: try exact IHd.
  all: cbn [Z.of_N]; rewrite (uint_chars_acc d); reflexivity.
Qed.

Lemma nzhead_no_zero d d' : Decimal.nzhead d <> Decimal.D0 d'.
Proof. induction d; simpl; congruence. Qed.

(** The numeral of a positive number is not empty and does not start with
    a zero. *)
Lemma pos_chars p :
  exists c ds,
    uint_chars (Pos.to_uint p) = c :: ds /\
    is_digit c = true /\ ascii_eqb c "0" = false.
Proof.
  pose proof (DecimalPos.Unsigned.to_of (Pos.to_uint p)) as H.
  rewrite DecimalPos.Unsigned.of_to in H. simpl in H.
  pose proof (DecimalPos.Unsigned.to_uint_nonnil p) as Hn.
  pose proof (DecimalPos.Unsigned.to_uint_nonzero p) as Hz.
  pose proof (uint_chars_digits (Pos.to_uint p)) as Hd.
  revert H Hn Hz Hd. generalize (Pos.to_uint p). intros d H Hn Hz Hd.
  unfold Decimal.unorm in H.
  destruct d; try done; unfold uint_chars, txt in *; simpl in *;
    try (eexists _, _; split; [reflexivity|]; split; done).
  exfalso. destruct (Decimal.nzhead d) eqn:E.
  all: try discriminate.
  - injection H as ->. by apply Hz.
  - by eapply nzhead_no_zero.
Qed.

Lemma show_Z_pos p : show_Z (Z.pos p) = uint_chars (Pos.to_uint p).
Proof.
  unfold show_Z, uint_chars. simpl.
  pose proof (DecimalPos.Unsigned.to_uint_nonnil p).
  unfold NilZero.string_of_uint. by destruct (Pos.to_uint p).
Qed.

Lemma show_Z_neg p : show_Z (Z.neg p) = "-"%char :: show_Z (Z.pos p).
Proof. reflexivity. Qed.

Lemma show_Z_zero : show_Z 0 = ["0"%char].
Proof. reflexivity. Qed.

Lemma show_Z_pos_value p : digits_value (show_Z (Z.pos p)) = Z.pos p.
Proof.
  rewrite show_Z_pos, uint_chars_value, DecimalPos.Unsigned.of_to. done.
Qed.

(** ** JSON: what is written is what is read *)

Ltac char_cases c :=
  destruct c as [[] [] [] [] [] [] [] []]; vm_compute; intros;
  try discriminate; repeat split; reflexivity.

Lemma number_head c :
  is_digit c || ascii_eqb c "-" = true ->
  is_json_ws c = false /\ ascii_eqb c "[" = false /\ ascii_eqb c "{" = false /\
  ascii_eqb c dquote = false /\ ascii_eqb c "]" = false /\
  ascii_eqb c "}" = false /\ ascii_eqb "n" c = false /\
  ascii_eqb "t" c = false /\ ascii_eqb "f" c = false.
Proof. char_cases c. Qed.

Lemma follows_head c :
  ascii_eqb c "," || ascii_eqb c "]" || ascii_eqb c "}" = true ->
  is_digit c = false /\ is_json_ws c = false /\
  ascii_eqb c "." || ascii_eqb c "e" || ascii_eqb c "E" = false.
Proof. char_cases c. Qed.

Lemma digit_not_minus c : is_digit c = true -> ascii_eqb c "-" = false.
Proof. char_cases c. Qed.

Lemma parse_escape c rest acc :
  parse_json_string (json_escape c ++ rest) acc
  = parse_json_string rest (acc ++ [c]).
Proof. destruct c as [[] [] [] [] [] [] [] []]; reflexivity. Qed.

Lemma parse_quoted s :
  forall rest acc,
    parse_json_string (flat_map json_escape s ++ dquote :: rest) acc
    = Some (acc ++ s, rest).
Proof.
  induction s as [|c s IH]; intros rest acc.
  - simpl. by rewrite app_nil_r.
  - simpl flat_map. rewrite <- app_assoc, parse_escape, IH.
    by rewrite <- app_assoc.
Qed.

Lemma skip_json_ws_head c s :
  is_json_ws c = false -> skip_json_ws (c :: s) = c :: s.
Proof. intros H. simpl. by rewrite H. Qed.

Lemma span_digits_app ds rest :
  forallb is_digit ds = true -> follows rest = true ->
  span_digits (ds ++ rest) = (ds, rest).
Proof.
  intros Hds Hrest. induction ds as [|c ds IH]; simpl in *.
  - destruct rest as [|c rest]; [done|]. simpl in Hrest. simpl.
    destruct (follows_head c Hrest) as (-> & _). done.
  - apply andb_true_iff in Hds as [-> Hds]. by rewrite IH.
Qed.

Lemma no_continuation rest :
  follows rest = true ->
  match rest with
  | c :: _ => ascii_eqb c "." || ascii_eqb c "e" || ascii_eqb c "E"
  | [] => false
  end = false.
Proof.
  destruct rest as [|c rest]; [done|]. simpl. intros H.
  by destruct (follows_head c H) as (_ & _ & ->).
Qed.

Lemma integral_numeral c ds :
  ascii_eqb c "0" = false ->
  match c :: ds with
  | [] => false
  | "0"%char :: _ :: _ => false
  | _ => true
  end = true.
Proof.
  destruct c as [[] [] [] [] [] [] [] []]; try reflexivity.
  vm_compute. discriminate.
Qed.

(** The number parser after the sign. *)
Lemma parse_json_number_unsigned c s :
  is_digit c = true ->
  parse_json_number (c :: s) = read_number false (c :: s).
Proof.
  intros Hc. unfold parse_json_number.
  destruct c as [[] [] [] [] [] [] [] []]; try reflexivity.
  by vm_compute in Hc.
Qed.

Lemma parse_json_number_minus s :
  parse_json_number ("-"%char :: s) = read_number true s.
Proof. reflexivity. Qed.

Lemma read_number_numeral neg ds rest :
  forallb is_digit ds = true -> follows rest = true ->
  (ds = ["0"%char] \/ exists c ds', ds = c :: ds' /\ ascii_eqb c "0" = false) ->
  read_number neg (ds ++ rest)
  = Some (JNum (if neg then - digits_value ds else digits_value ds), rest).
Proof.
  intros Hds Hrest Hshape. unfold read_number.
  rewrite span_digits_app by done. rewrite no_continuation by done.
  destruct Hshape as [->|(c & ds' & -> & Hc)]; [done|].
  by rewrite integral_numeral.
Qed.

Lemma parse_json_number_show z rest :
  follows rest = true ->
  parse_json_number (show_Z z ++ rest) = Some (JNum z, rest).
Proof.
  intros Hrest. destruct z as [|p|p].
  - rewrite show_Z_zero. simpl app.
    rewrite parse_json_number_unsigned by done.
    apply (read_number_numeral false ["0"%char]); auto.
  - destruct (pos_chars p) as (c & ds & Hshow & Hc & Hc0).
    pose proof (uint_chars_digits (Pos.to_uint p)) as Hd.
    pose proof (show_Z_pos_value p) as Hv.
    rewrite <- show_Z_pos in Hshow, Hd. rewrite Hshow in *.
    simpl app. rewrite parse_json_number_unsigned by done.
    rewrite <- Hv. apply (read_number_numeral false (c :: ds)); eauto.
  - destruct (pos_chars p) as (c & ds & Hshow & Hc & Hc0).
    pose proof (uint_chars_digits (Pos.to_uint p)) as Hd.
    pose proof (show_Z_pos_value p) as Hv.
    rewrite <- show_Z_pos in Hshow, Hd. rewrite show_Z_neg, Hshow in *.
    simpl app. rewrite parse_json_number_minus.
    change (Z.neg p) with (- Z.pos p). rewrite <- Hv.
    apply (read_number_numeral true (c :: ds)); eauto.
Qed.

Lemma jsval_nested_ind (P : jsval -> Prop) :
  P JUndef -> P JNull -> (forall b, P (JBool b)) -> (forall z, P (JNum z)) ->
  P JNaN -> (forall s, P (JStr s)) ->
  (forall items, Forall P items -> P (JArr items)) ->
  (forall props, Forall (fun kv => P (snd kv)) props -> P (JObj props)) ->
  forall v, P v.
Proof.
  intros H1 H2 H3 H4 H5 H6 HArr HObj. fix IH 1.
  intros [| |b|z| |s|items|props].
  - exact H1.
  - exact H2.
  - apply H3.
  - apply H4.
  - exact H5.
  - apply H6.
  - apply HArr. induction items as [|x items IHitems]; constructor;
      [apply IH|exact IHitems].
  - apply HObj. induction props as [|kv props IHprops]; constructor;
      [apply IH|exact IHprops].
Qed.

Lemma stringify_items items :
  stringify (JArr items)
  = Some ("["%char :: join (txt ",") (map str items) ++ ["]"%char]).
Proof. reflexivity. Qed.

Lemma members_flat_map props :
  forallb (fun kv => is_json (snd kv)) props = true ->
  flat_map (fun kv : text * jsval =>
              match stringify (snd kv) with
              | Some t => [json_quote (fst kv) ++ [":"%char] ++ t]
              | None => []
              end) props
  = map member_text props.
Proof.
  induction props as [|kv props IH]; [done|]. intros H. simpl in H.
  apply andb_true_iff in H as [Hkv H]. cbn [flat_map map]. rewrite IH by done.
  f_equal. unfold member_text, str.
  destruct (stringify (snd kv)) eqn:E; [done|].
  destruct (snd kv); try discriminate. by destruct b.
Qed.

Lemma stringify_members props :
  forallb (fun kv => is_json (snd kv)) props = true ->
  stringify (JObj props)
  = Some ("{"%char :: join (txt ",") (map member_text props) ++ ["}"%char]).
Proof.
  intros H. rewrite <- members_flat_map by done. reflexivity.
Qed.

Lemma is_json_str v : is_json v = true -> stringify v = Some (str v).
Proof.
  intros H. unfold str. destruct (stringify v) eqn:E; [done|].
  destruct v; try discriminate. by destruct b.
Qed.

Lemma str_head v :
  is_json v = true ->
  exists c t,
    str v = c :: t /\ is_json_ws c = false /\ ascii_eqb c "]" = false.
Proof.
  destruct v as [| |[]|z| |s|items|props]; try done; intros _.
  1-3: by eexists _, _.
  - destruct z as [|p|p].
    + by eexists _, _.
    + destruct (pos_chars p) as (c & ds & Hshow & Hc & _).
      exists c, ds. unfold str, stringify.
      rewrite show_Z_pos. split; [done|].
      destruct (number_head c) as (? & _ & _ & _ & ? & _); [by rewrite Hc|done].
    + exists "-"%char, (show_Z (Z.pos p)). by rewrite <- show_Z_neg.
  - by eexists _, _.
  - unfold str. rewrite stringify_items. by eexists _, _.
  - unfold str. unfold stringify. fold stringify. by eexists _, _.
Qed.

Lemma parse_value_array fuel c s :
  is_json_ws c = false -> ascii_eqb c "]" = false ->
  parse_value (S fuel) ("["%char :: c :: s) = parse_items fuel (c :: s) [].
Proof.
  intros H1 H2.
  destruct c as [[] [] [] [] [] [] [] []]; try reflexivity.
  all: (vm_compute in H1; discriminate) || (vm_compute in H2; discriminate).
Qed.

Lemma parse_value_number fuel c s :
  is_digit c || ascii_eqb c "-" = true ->
  parse_value (S fuel) (c :: s) = parse_json_number (c :: s).
Proof.
  intros H.
  destruct c as [[] [] [] [] [] [] [] []]; try reflexivity.
  all: vm_compute in H; discriminate.
Qed.

Lemma parse_value_string fuel s :
  parse_value (S fuel) (dquote :: s)
  = match parse_json_string s [] with
    | Some (content, s2) => Some (JStr content, s2)
    | None => None
    end.
Proof. reflexivity. Qed.

Lemma parse_value_object fuel s :
  parse_value (S fuel) ("{"%char :: dquote :: s)
  = parse_members fuel (dquote :: s) [].
Proof. reflexivity. Qed.

Lemma parse_items_step fuel s acc :
  parse_items (S fuel) s acc
  = match parse_value fuel s with
    | Some (v, s1) =>
        match skip_json_ws s1 with
        | c :: s2 =>
            if ascii_eqb c "," then parse_items fuel s2 (acc ++ [v])
            else if ascii_eqb c "]" then Some (JArr (acc ++ [v]), s2)
            else None
        | [] => None
        end
    | None => None
    end.
Proof. reflexivity. Qed.

Lemma parse_members_step fuel key s3 acc :
  parse_members (S fuel) (json_quote key ++ ":"%char :: s3) acc
  = match parse_value fuel s3 with
    | Some (v, s4) =>
        match skip_json_ws s4 with
        | c :: s5 =>
            if ascii_eqb c ","
            then parse_members fuel s5 (set_assoc key v acc)
            else if ascii_eqb c "}"
            then Some (JObj (set_assoc key v acc), s5)
            else None
        | [] => None
        end
    | None => None
    end.
Proof.
  unfold json_quote. rewrite <- !app_assoc.
  change ([dquote] ++ flat_map json_escape key ++ [dquote] ++ ":"%char :: s3)
    with (dquote :: (flat_map json_escape key ++ dquote :: ":"%char :: s3)).
  change (parse_members (S fuel)
            (dquote :: (flat_map json_escape key ++ dquote :: ":"%char :: s3)) acc)
    with (match parse_json_string
                  (flat_map json_escape key ++ dquote :: ":"%char :: s3) [] with
          | Some (key, s2) =>
              match skip_json_ws s2 with
              | ":"%char :: s3 =>
                  match parse_value fuel s3 with
                  | Some (v, s4) =>
                      match skip_json_ws s4 with
                      | c :: s5 =>
                          if ascii_eqb c ","
                          then parse_members fuel s5 (set_assoc key v acc)
                          else if ascii_eqb c "}"
                          then Some (JObj (set_assoc key v acc), s5)
                          else None
                      | [] => None
                      end
                  | None => None
                  end
              | _ => None
              end
          | None => None
          end).
  rewrite parse_quoted. reflexivity.
Qed.

(** ** Reading back what was written *)

Lemma need_arr items : need (JArr items) = S (need_items items).
Proof. reflexivity. Qed.

Lemma need_obj props : need (JObj props) = S (need_members props).
Proof. reflexivity. Qed.

Lemma join_cons2 sep (p q : text) rest :
  join sep (p :: q :: rest) = p ++ sep ++ join sep (q :: rest).
Proof. reflexivity. Qed.

Lemma existsb_text_eqb k l : existsb (text_eqb k) l = true <-> In k l.
Proof.
  rewrite existsb_exists. split.
  - intros (x & Hx & E). apply text_eqb_eq in E. by subst.
  - intros H. exists k. split; [done|]. by apply text_eqb_eq.
Qed.

Lemma distinct_NoDup l : distinct l = true <-> List.NoDup l.
Proof.
  induction l as [|k l IH]; simpl.
  - split; [constructor|done].
  - rewrite andb_true_iff, negb_true_iff, IH. split.
    + intros [H1 H2]. constructor; [|done].
      intros Hin. apply existsb_text_eqb in Hin. congruence.
    + intros H. inversion H as [|? ? Hin Hl]; subst. split; [|done].
      destruct (existsb (text_eqb k) l) eqn:E; [|done].
      by apply existsb_text_eqb in E.
Qed.

Lemma set_assoc_fresh k v acc :
  ~ In k (map fst acc) -> set_assoc k v acc = acc ++ [(k, v)].
Proof.
  induction acc as [|[k' v'] acc IH]; simpl; [done|]. intros H.
  destruct (text_eqb k k') eqn:E.
  - apply text_eqb_eq in E. subst. tauto.
  - rewrite IH; [done|tauto].
Qed.

Lemma parse_items_str items :
  Forall reads_back items -> forallb is_json items = true -> items <> [] ->
  forall fuel acc rest,
    (need_items items <= fuel)%nat ->
    parse_items fuel (join (txt ",") (map str items) ++ "]"%char :: rest) acc
    = Some (JArr (acc ++ items), rest).
Proof.
  induction 1 as [|x l Hx Hl IH]; [done|]. intros Hj _ fuel acc rest Hf.
  simpl in Hj. apply andb_true_iff in Hj as [Hjx Hjl].
  cbn [need_items] in Hf. destruct fuel as [|fuel]; [lia|].
  rewrite parse_items_step. destruct l as [|y l'].
  - cbn [map join]. rewrite (Hx Hjx fuel) by (lia || done). reflexivity.
  - cbn [map]. rewrite join_cons2, <- !app_assoc.
    rewrite (Hx Hjx fuel) by (lia || done).
    change (txt "," ++ ?t) with (","%char :: t).
    change (skip_json_ws (","%char :: ?t)) with (","%char :: t).
    cbv iota. change (ascii_eqb "," ",") with true. cbv iota.
    cbn [map] in IH. rewrite IH by (done || lia).
    by rewrite <- app_assoc.
Qed.

Lemma parse_members_str props :
  Forall (fun kv => reads_back (snd kv)) props ->
  forallb (fun kv => is_json (snd kv)) props = true -> props <> [] ->
  forall fuel acc rest,
    List.NoDup (map fst (acc ++ props)) ->
    (need_members props <= fuel)%nat ->
    parse_members fuel
      (join (txt ",") (map member_text props) ++ "}"%char :: rest) acc
    = Some (JObj (acc ++ props), rest).
Proof.
  induction 1 as [|[k x] l Hx Hl IH]; [done|].
  intros Hj _ fuel acc rest Hd Hf.
  simpl in Hj, Hx. apply andb_true_iff in Hj as [Hjx Hjl].
  cbn [need_members snd] in Hf. destruct fuel as [|fuel]; [lia|].
  assert (Hfresh : ~ In k (map fst acc)).
  { rewrite map_app in Hd. apply List.NoDup_remove_2 in Hd.
    intros Hin. apply Hd. apply in_or_app. by left. }
  assert (Hd' : List.NoDup (map fst ((acc ++ [(k, x)]) ++ l))).
  { by rewrite <- app_assoc. }
  destruct l as [|y l'].
  - cbn [map join]. unfold member_text at 1. cbn [fst snd].
    rewrite <- !app_assoc.
    change ([":"%char] ++ ?t) with (":"%char :: t).
    rewrite parse_members_step.
    rewrite (Hx Hjx fuel) by (lia || done).
    rewrite set_assoc_fresh by done. reflexivity.
  - cbn [map]. rewrite join_cons2. unfold member_text at 1. cbn [fst snd].
    rewrite <- !app_assoc.
    change ([":"%char] ++ ?t) with (":"%char :: t).
    rewrite parse_members_step.
    rewrite (Hx Hjx fuel) by (lia || done).
    change (txt "," ++ ?t) with (","%char :: t).
    change (skip_json_ws (","%char :: ?t)) with (","%char :: t).
    cbv iota. change (ascii_eqb "," ",") with true. cbv iota.
    rewrite set_assoc_fresh by done.
    cbn [map] in IH. rewrite IH by (done || lia).
    by rewrite <- app_assoc.
Qed.

Lemma join_head sep (p : text) rest c t :
  p = c :: t -> exists t', join sep (p :: rest) = c :: t'.
Proof. intros ->. destruct rest; simpl; eauto. Qed.

Lemma parse_str v : reads_back v.
Proof.
  induction v as [| |b|z| |s|items IH|props IH] using jsval_nested_ind;
    intros Hj fuel rest Hf Hr; try discriminate.
  - destruct fuel; [simpl in Hf; lia|]. reflexivity.
  - destruct fuel; [simpl in Hf; lia|]. by destruct b.
  - destruct fuel; [simpl in Hf; lia|].
    change (str (JNum z)) with (show_Z z).
    assert (exists c t, show_Z z = c :: t /\ is_digit c || ascii_eqb c "-" = true)
      as (c & t & E & Hc).
    { destruct z as [|p|p].
      - by eexists _, _.
      - destruct (pos_chars p) as (c & ds & Hshow & Hc & _).
        exists c, ds. rewrite show_Z_pos. split; [done|]. by rewrite Hc.
      - eexists _, _. by rewrite show_Z_neg. }
    pose proof (parse_json_number_show z rest Hr) as Hn.
    rewrite E in *. cbn [app] in *. by rewrite parse_value_number.
  - destruct fuel; [simpl in Hf; lia|].
    change (str (JStr s)) with (json_quote s). unfold json_quote.
    rewrite <- !app_assoc. cbn [app]. rewrite parse_value_string.
    by rewrite parse_quoted.
  - rewrite need_arr in Hf. destruct fuel as [|fuel]; [lia|].
    unfold str. rewrite stringify_items. simpl in Hj.
    destruct items as [|x l]; [reflexivity|].
    cbn [app]. rewrite <- app_assoc. cbn [app].
    destruct (str_head x) as (c & t & E & Hws & Hc).
    { simpl in Hj. by apply andb_true_iff in Hj as [? _]. }
    cbn [map]. destruct (join_head (txt ",") (str x) (map str l) c t E) as [t' Et].
    pose proof (parse_items_str (x :: l) IH Hj ltac:(done) fuel [] rest
                  ltac:(lia)) as Hi.
    cbn [map] in Hi. rewrite Et in *. cbn [app] in *.
    by rewrite parse_value_array.
  - rewrite need_obj in Hf. destruct fuel as [|fuel]; [lia|].
    simpl in Hj. apply andb_true_iff in Hj as [Hj Hd].
    unfold str. rewrite stringify_members by done.
    destruct props as [|[k x] l]; [reflexivity|].
    cbn [app]. rewrite <- app_assoc. cbn [app].
    pose proof (parse_members_str ((k, x) :: l) IH Hj ltac:(done) fuel [] rest
                  ltac:(by apply distinct_NoDup) ltac:(lia)) as Hm.
    cbn [map] in *.
    destruct (join_head (txt ",") (member_text (k, x)) (map member_text l)
                dquote ((flat_map json_escape k ++ [dquote]) ++ [":"%char] ++ str x))
      as [t' Et]; [reflexivity|].
    rewrite Et in *. cbn [app] in *.
    by rewrite parse_value_object.
Qed.

Lemma show_Z_nonempty z : (1 <= length (show_Z z))%nat.
Proof.
  destruct z as [|p|p].
  - rewrite show_Z_zero. simpl. lia.
  - destruct (pos_chars p) as (c & ds & Hshow & _).
    rewrite show_Z_pos, Hshow. simpl. lia.
  - rewrite show_Z_neg. simpl. lia.
Qed.

Lemma need_items_bound items :
  Forall (fun v => is_json v = true -> (need v <= length (str v))%nat) items ->
  forallb is_json items = true ->
  (need_items items <= length (join (txt ",") (map str items)) + 1)%nat.
Proof.
  induction 1 as [|x l Hx Hl IH]; [simpl; lia|]. intros Hj.
  simpl in Hj. apply andb_true_iff in Hj as [Hjx Hjl].
  specialize (Hx Hjx). specialize (IH Hjl). cbn [need_items map].
  destruct l as [|y l']; [simpl in *; lia|].
  cbn [map] in *. rewrite join_cons2, !length_app.
  change (length (txt ",")) with 1%nat. lia.
Qed.

Lemma need_members_bound props :
  Forall (fun kv => is_json (snd kv) = true ->
                    (need (snd kv) <= length (str (snd kv)))%nat) props ->
  forallb (fun kv => is_json (snd kv)) props = true ->
  (need_members props
   <= length (join (txt ",") (map member_text props)) + 1)%nat.
Proof.
  induction 1 as [|[k x] l Hx Hl IH]; [simpl; lia|]. intros Hj.
  simpl in Hj, Hx. apply andb_true_iff in Hj as [Hjx Hjl].
  specialize (Hx Hjx). specialize (IH Hjl). cbn [need_members map snd].
  assert (length (str x) <= length (member_text (k, x)))%nat as Hlen.
  { unfold member_text. rewrite !length_app. cbn [snd]. lia. }
  destruct l as [|y l']; [simpl in *; lia|].
  cbn [map] in *. rewrite join_cons2, !length_app.
  change (length (txt ",")) with 1%nat. lia.
Qed.

Lemma need_bound v : is_json v = true -> (need v <= length (str v))%nat.
Proof.
  induction v as [| |b|z| |s|items IH|props IH] using jsval_nested_ind;
    intros Hj; try discriminate.
  - simpl. lia.
  - destruct b; simpl; lia.
  - change (str (JNum z)) with (show_Z z). pose proof (show_Z_nonempty z).
    simpl. lia.
  - change (str (JStr s)) with (json_quote s). unfold json_quote.
    rewrite !length_app. simpl. lia.
  - rewrite need_arr. unfold str. rewrite stringify_items.
    pose proof (need_items_bound items IH Hj).
    cbn [length]. rewrite length_app. simpl. lia.
  - simpl in Hj. apply andb_true_iff in Hj as [Hj _].
    rewrite need_obj. unfold str. rewrite stringify_members by done.
    pose proof (need_members_bound props IH Hj).
    cbn [length]. rewrite length_app. simpl. lia.
Qed.

(** [JSON.parse(JSON.stringify(v))] is [v], for a value JSON can
    carry. *)
Lemma JSON_parse_str v : is_json v = true -> JSON_parse (str v) = Some v.
Proof.
  intros Hj. unfold JSON_parse.
  pose proof (parse_str v Hj (2 * length (str v) + 2)%nat []) as E.
  rewrite app_nil_r in E. rewrite E; [done| |done].
  pose proof (need_bound v Hj). lia.
Qed.

(** ** The Redis wrapper *)

Lemma JSON_parse_quote t : JSON_parse (json_quote t) = Some (JStr t).
Proof. exact (JSON_parse_str (JStr t) eq_refl). Qed.

Lemma str_cons v : is_json v = true -> exists c t, str v = c :: t.
Proof. intros H. destruct (str_head v H) as (c & t & E & _). eauto. Qed.

Lemma redis_set_cases key value ttl w :
  redis_set key value ttl w =
  if isConnected w && client_up w then
    match stringify value with
    | Some serialized =>
        (Ok true, with_store w (<[key := serialized]> (store w)))
    | None => (Ok false, w)
    end
  else (Ok false, w).
Proof.
  unfold redis_set. run.
  destruct (isConnected w); simpl; [|done].
  destruct (stringify value); simpl.
  - by destruct (client_up w).
  - by destruct (client_up w).
Qed.

Lemma redis_get_stored key v w :
  is_json v = true -> redis_up w = true ->
  store w !! key = Some (str v) ->
  redis_get key w = (Ok v, w).
Proof.
  intros Hj Hup Hk. rewrite redis_get_cases. fold (redis_up w).
  rewrite Hup, Hk. destruct (str_cons v Hj) as (c & t & E).
  rewrite E, <- E. by rewrite JSON_parse_str.
Qed.

(** X1.  What the wrapper has stored it gives back: when [redis.set]
    answers [true] for a value JSON can carry, a [redis.get] of the key
    returns this value and changes nothing. *)
Theorem redis_set_then_get (key : text) (value : jsval) (ttl : Z)
    (w w1 : world) :
  is_json value = true ->
  redis_set key value ttl w = (Ok true, w1) ->
  redis_get key w1 = (Ok value, w1).
Proof.
  intros Hj. rewrite redis_set_cases, (is_json_str value Hj).
  destruct (isConnected w && client_up w) eqn:Hup; [|discriminate].
  intros [= <-]. apply redis_get_stored; [done|exact Hup|].
  cbn [store with_store]. apply lookup_insert_eq.
Qed.

Lemma redis_set_then_get_witness :
  redis_get (txt "k")
    (snd (redis_set (txt "k") (JArr [JNum 1; JStr (txt "a")]) 60
            (running one_row_driver ∅)))
  = (Ok (JArr [JNum 1; JStr (txt "a")]),
     snd (redis_set (txt "k") (JArr [JNum 1; JStr (txt "a")]) 60
            (running one_row_driver ∅))).
Proof.
  apply (redis_set_then_get (txt "k") (JArr [JNum 1; JStr (txt "a")]) 60
           (running one_row_driver ∅)).
  - reflexivity.
  - vm_compute. reflexivity.
Defined.

(** X2.  After a [redis.get] on a server that answers, the store holds
    under the key nothing that the wrapper could not read: the entry is
    absent, empty, or parses as JSON.  Asking again gives the same
    answer and changes nothing more. *)
Theorem redis_get_cleans_up (key : text) (w : world) :
  redis_up w = true ->
  let '(r, w1) := redis_get key w in
  match store w1 !! key with
  | Some (c :: s) => JSON_parse (c :: s) <> None
  | _ => True
  end /\
  redis_get key w1 = (r, w1).
Proof.
  intros Hup. rewrite redis_get_cases. fold (redis_up w). rewrite Hup.
  destruct (store w !! key) as [[|c s]|] eqn:Hk.
  - split; [by rewrite Hk|]. rewrite redis_get_cases. fold (redis_up w).
    by rewrite Hup, Hk.
  - destruct (JSON_parse (c :: s)) as [v|] eqn:Hp.
    + split; [by rewrite Hk, Hp|]. rewrite redis_get_cases.
      fold (redis_up w). by rewrite Hup, Hk, Hp.
    + cbn [store with_store]. rewrite lookup_delete_eq. split; [done|].
      rewrite redis_get_cases. cbn [store with_store isConnected client_up].
      fold (redis_up w). by rewrite Hup, lookup_delete_eq.
  - split; [by rewrite Hk|]. rewrite redis_get_cases. fold (redis_up w).
    by rewrite Hup, Hk.
Qed.

Lemma redis_get_cleans_up_witness :
  let '(r, w1) :=
    redis_get (txt "greeting") (running one_row_driver
                                  {[ txt "greeting" := txt "hello" ]}) in
  match store w1 !! txt "greeting" with
  | Some (c :: s) => JSON_parse (c :: s) <> None
  | _ => True
  end /\
  redis_get (txt "greeting") w1 = (r, w1).
Proof.
  apply (redis_get_cleans_up (txt "greeting")
           (running one_row_driver {[ txt "greeting" := txt "hello" ]})).
  reflexivity.
Defined.

(** ** The cache layer *)

Section CacheLayer.

Variable gzip_base64 : text -> text.

Lemma cache_set_fits key value ttl so w :
  is_json value = true -> stringifyJSON so = true ->
  json_size value <= maxSize so ->
  cache_set gzip_base64 key value ttl so w
  = (Ok true, snd (redis_set key (JStr (str value)) ttl w)).
Proof.
  intros Hj Hs Hfit. unfold json_size in Hfit.
  unfold cache_set. rewrite Hs, (is_json_str value Hj).
  unfold try_catch, bind, lift, js_length.
  replace (maxSize so <? Z.of_nat (length (str value))) with false
    by (symmetry; apply Z.ltb_ge; lia).
  rewrite redis_set_cases.
  destruct (isConnected w && client_up w); [|done].
  by destruct (stringify (JStr (str value))).
Qed.

Lemma cache_get_stored key go v w :
  is_json v = true -> parseJSON go = true -> redis_up w = true ->
  store w !! key = Some (json_quote (str v)) ->
  fst (cache_get key go w) = Ok v /\
  store (snd (cache_get key go w)) = store w /\
  redis_up (snd (cache_get key go w)) = redis_up w /\
  (trackMetrics go = true ->
   hit_only (cache_metrics w) (cache_metrics (snd (cache_get key go w)))).
Proof.
  intros Hj Hp Hup Hk.
  unfold cache_get, bump_totalRequests, try_catch, bind. cbv beta.
  rewrite (redis_get_stored key (JStr (str v))); [|done|exact Hup|exact Hk].
  cbn [not_null]. rewrite Hp, (JSON_parse_str v Hj).
  unfold hit_only, when, bump_hits, ret.
  destruct (trackMetrics go); cbn; repeat split; done || lia.
Qed.

(** X3.  What [set] has stored [get] gives back.  On a server that
    answers, for a value JSON can carry whose text is within [maxSize],
    written as JSON and read as JSON, [set] answers [true] and the next
    [get] of the key returns the value, counted as a hit. *)
Theorem set_then_get (key : text) (value : jsval) (ttl : Z)
    (so : set_options) (go : get_options) (w : world) :
  is_json value = true ->
  redis_up w = true ->
  stringifyJSON so = true ->
  json_size value <= maxSize so ->
  parseJSON go = true ->
  exists w1 w2,
    cache_set gzip_base64 key value ttl so w = (Ok true, w1) /\
    cache_get key go w1 = (Ok value, w2) /\
    (trackMetrics go = true -> hit_only (cache_metrics w) (cache_metrics w2)).
Proof.
  intros Hj Hup Hs Hfit Hp.
  rewrite (cache_set_fits key value ttl so w Hj Hs Hfit).
  rewrite redis_set_cases. fold (redis_up w). rewrite Hup.
  change (stringify (JStr (str value))) with (Some (json_quote (str value))).
  cbn [snd].
  set (w1 := with_store w _).
  destruct (cache_get_stored key go value w1 Hj Hp Hup)
    as (Hr & _ & _ & Hm); [apply lookup_insert_eq|].
  exists w1, (snd (cache_get key go w1)). split; [done|]. split; [|exact Hm].
  rewrite <- Hr. by destruct (cache_get key go w1).
Qed.

(** X4.  [set] answers for the value, not for the server: with the
    server away it still answers [true] for a value that fits, and
    nothing has been stored. *)
Theorem set_answers_true_unstored (key : text) (value : jsval) (ttl : Z)
    (so : set_options) (w : world) :
  is_json value = true ->
  stringifyJSON so = true ->
  json_size value <= maxSize so ->
  redis_up w = false ->
  cache_set gzip_base64 key value ttl so w = (Ok true, w).
Proof.
  intros Hj Hs Hfit Hup.
  rewrite (cache_set_fits key value ttl so w Hj Hs Hfit).
  rewrite redis_set_cases. fold (redis_up w). by rewrite Hup.
Qed.

Lemma cache_get_null key go w :
  not_null (fallback go) = true ->
  fst (cache_get key go w) = Ok JNull ->
  parseJSON go = true /\ redis_up w = true /\
  exists raw s,
    store w !! key = Some raw /\
    JSON_parse raw = Some (JStr s) /\ JSON_parse s = Some JNull.
Proof.
  intros Hf.
  assert (Hne : fallback go <> JNull) by (intros E; by rewrite E in Hf).
  clear Hf. destruct (redis_up w) eqn:Hup.
  all: unfold cache_get, bump_totalRequests, bump_hits, bump_misses,
         bump_errors, this_del, try_catch, bind, when, ret, throw; cbv beta.
  all: rewrite redis_get_cases;
    cbn [isConnected client_up store with_metrics]; fold (redis_up w);
    rewrite Hup.
  2: { destruct (trackMetrics go); cbn; by intros [= H]. }
  destruct (store w !! key) as [[|c raw]|] eqn:Hk.
  1, 3: destruct (trackMetrics go); cbn; by intros [= H].
  destruct (JSON_parse (c :: raw)) as [v|] eqn:Hraw.
  2: { destruct (trackMetrics go); cbn; by intros [= H]. }
  destruct (trackMetrics go), (parseJSON go), v as [| |b|z| |s|items|props];
    cbn; try (by intros [= H]).
  all: destruct (JSON_parse s) as [v'|] eqn:Hs; cbn; intros [= H]; try done.
  all: subst v'; split; [done|]; split; [done|]; by eauto.
Qed.

(** X5.  With a [fallback] other than [null] among its options,
    [getOrSet] fetches only when the cache holds [null] itself under the
    key.  In every other case, a miss and a server that is away
    included, it returns what [get] returns, the fallback where [get]
    found nothing, and only the [get] has run. *)
Theorem getOrSet_fallback_seldom_fetches (key : text) (fetch : M jsval)
    (ttl : Z) (go : get_options) (so : set_options) (w : world) :
  not_null (fallback go) = true ->
  getOrSet gzip_base64 key fetch ttl (go, so) w = cache_get key go w \/
  (parseJSON go = true /\ redis_up w = true /\
   exists raw s,
     store w !! key = Some raw /\
     JSON_parse raw = Some (JStr s) /\ JSON_parse s = Some JNull).
Proof.
  intros Hf.
  destruct (cache_get_frame key go w) as (v & w1 & Hget & _).
  destruct (not_null v) eqn:Hv.
  - left. unfold getOrSet, try_catch, bind at 1. cbn [fst snd].
    by rewrite Hget, Hv.
  - right. apply cache_get_null; [done|]. rewrite Hget. by destruct v.
Qed.


End CacheLayer.

Lemma set_then_get_witness :
  exists w1 w2,
    cache_set some_gzip (txt "k") (JObj [(txt "n", JNum 7)]) 60 set_defaults
      (running one_row_driver ∅) = (Ok true, w1) /\
    cache_get (txt "k") get_defaults w1 = (Ok (JObj [(txt "n", JNum 7)]), w2) /\
    (trackMetrics get_defaults = true ->
     hit_only (cache_metrics (running one_row_driver ∅)) (cache_metrics w2)).
Proof.
  apply (set_then_get some_gzip (txt "k") (JObj [(txt "n", JNum 7)]) 60
           set_defaults get_defaults (running one_row_driver ∅)).
  - reflexivity.
  - reflexivity.
  - reflexivity.
  - vm_compute. discriminate.
  - reflexivity.
Defined.

(** A server that is away. *)
Lemma set_answers_true_unstored_witness :
  cache_set some_gzip (txt "k") (JNum 7) 60 set_defaults
    (World None one_row_driver [] 0 1 false true ∅ no_metrics)
  = (Ok true, World None one_row_driver [] 0 1 false true ∅ no_metrics).
Proof.
  apply (set_answers_true_unstored some_gzip (txt "k") (JNum 7) 60
           set_defaults
           (World None one_row_driver [] 0 1 false true ∅ no_metrics)).
  - reflexivity.
  - reflexivity.
  - vm_compute. discriminate.
  - reflexivity.
Defined.

Lemma getOrSet_fallback_seldom_fetches_witness :
  getOrSet some_gzip (txt "k") (ret (JNum 7)) 60
    (GetOptions (JStr (txt "none")) true true, set_defaults)
    (running one_row_driver ∅)
  = cache_get (txt "k") (GetOptions (JStr (txt "none")) true true)
      (running one_row_driver ∅).
Proof.
  destruct (getOrSet_fallback_seldom_fetches some_gzip (txt "k")
              (ret (JNum 7)) 60 (GetOptions (JStr (txt "none")) true true)
              set_defaults (running one_row_driver ∅) eq_refl)
    as [H|(_ & _ & raw & s & Hraw & _)].
  - exact H.
  - discriminate Hraw.
Defined.

(** With [null] cached under the key the fallback does not keep the
    fetch away. *)
Example getOrSet_fetches_on_cached_null :
  let w := snd (cache_set some_gzip (txt "k") JNull 60 set_defaults
                  (running one_row_driver ∅)) in
  fst (getOrSet some_gzip (txt "k") (ret (JNum 7)) 60
         (GetOptions (JStr (txt "none")) true true, set_defaults) w)
  = Ok (JNum 7).
Proof. vm_compute. reflexivity. Qed.


(** ** Deleting by pattern *)

Lemma In_keys (m : gmap text text) k :
  In k (map fst (map_to_list m)) <-> is_Some (m !! k).
Proof.
  rewrite in_map_iff. split.
  - intros ([k' x] & <- & Hin). apply list_elem_of_In in Hin.
    apply elem_of_map_to_list in Hin. by exists x.
  - intros [x Hx]. exists (k, x). split; [done|].
    apply list_elem_of_In. by apply elem_of_map_to_list.
Qed.

Lemma delete_one_of_two (m : gmap text text) first k1 k2 :
  k1 <> k2 ->
  delete first m !! k1 = m !! k1 \/ delete first m !! k2 = m !! k2.
Proof.
  intros Hne. destruct (decide (first = k1)) as [->|H1].
  - right. by apply lookup_delete_ne.
  - left. by apply lookup_delete_ne.
Qed.

Section Patterns.

Variable glob : text -> text -> bool.

Lemma client_keys_spec pattern w :
  client_up w = true ->
  exists keys,
    client_keys glob pattern w = (Ok keys, w) /\
    List.NoDup keys /\
    forall k, In k keys <-> is_Some (store w !! k) /\ glob pattern k = true.
Proof.
  intros Hup. unfold client_keys. rewrite Hup. eexists. split; [done|]. split.
  - apply List.NoDup_filter.
    replace (map fst (map_to_list (store w)))
      with ((map_to_list (store w)).*1)
      by (induction (map_to_list (store w)) as [|? ? IHl];
          [done|cbn; by rewrite IHl]).
    apply NoDup_ListNoDup, NoDup_fst_map_to_list.
  - intros k. by rewrite filter_In, In_keys.
Qed.

Lemma delPattern_run pattern w keys :
  client_up w = true ->
  client_keys glob pattern w = (Ok keys, w) ->
  delPattern glob pattern w
  = (Ok (Z.of_nat (length keys)),
     with_store w match keys with
                  | first :: _ => delete first (store w)
                  | [] => store w
                  end).
Proof.
  intros Hup Hk. unfold delPattern, try_catch. unfold bind at 1. rewrite Hk.
  destruct keys as [|k ks]; [by destruct w|].
  unfold bind, when, client_del_spread, ret.
  change (0 <? Z.of_nat (length (k :: ks))) with true. cbv beta iota.
  by rewrite Hup.
Qed.

(** Whatever the state of the client, [delPattern] changes the store
    only, and in one entry at most. *)
Lemma delPattern_frame pattern w :
  exists m,
    snd (delPattern glob pattern w) = with_store w m /\
    forall k1 k2, k1 <> k2 ->
      m !! k1 = store w !! k1 \/ m !! k2 = store w !! k2.
Proof.
  destruct (client_up w) eqn:Hup.
  - destruct (client_keys_spec pattern w Hup) as (keys & Hk & _).
    rewrite (delPattern_run pattern w keys Hup Hk). eexists. split; [done|].
    intros k1 k2 Hne. destruct keys as [|first rest]; [by left|].
    by apply delete_one_of_two.
  - exists (store w). split; [|by left].
    unfold delPattern, try_catch, bind, client_keys. rewrite Hup.
    by destruct w.
Qed.

(** X7.  [delPattern] answers with the number of stored keys the pattern
    matches, and removes one of them: it spreads the keys over the
    arguments of [client.del], which takes its first argument only.  The
    first key listed is removed and every other entry is as it was, a
    matching one too; of two keys, one at least is untouched. *)
Theorem delPattern_removes_one (pattern : text) (w : world) :
  client_up w = true ->
  exists keys w',
    delPattern glob pattern w = (Ok (Z.of_nat (length keys)), w') /\
    List.NoDup keys /\
    (forall k, In k keys <->
               is_Some (store w !! k) /\ glob pattern k = true) /\
    store w' = match keys with
               | first :: _ => delete first (store w)
               | [] => store w
               end /\
    (forall k, In k (tl keys) -> store w' !! k = store w !! k) /\
    (forall k1 k2, k1 <> k2 ->
       store w' !! k1 = store w !! k1 \/ store w' !! k2 = store w !! k2).
Proof.
  intros Hup.
  destruct (client_keys_spec pattern w Hup) as (keys & Hk & Hnd & Hin).
  exists keys. eexists. split; [by apply delPattern_run|].
  split; [done|]. split; [done|]. cbn [store with_store]. split; [done|].
  split.
  - destruct keys as [|first rest]; [done|]. intros k Hk'. cbn [tl] in Hk'.
    apply lookup_delete_ne. intros ->.
    by apply List.NoDup_cons_iff in Hnd as [? _].
  - intros k1 k2 Hne. destruct keys as [|first rest]; [by left|].
    by apply delete_one_of_two.
Qed.

End Patterns.

Lemma delPattern_removes_one_witness :
  exists keys w',
    delPattern prefix_glob (txt "query:*")
      (running one_row_driver
         {[ txt "query:1" := txt "1"; txt "query:2" := txt "2" ]})
    = (Ok (Z.of_nat (length keys)), w') /\
    List.NoDup keys /\
    (forall k, In k keys <->
               is_Some (store (running one_row_driver
                          {[ txt "query:1" := txt "1";
                             txt "query:2" := txt "2" ]}) !! k) /\
               prefix_glob (txt "query:*") k = true) /\
    store w' = match keys with
               | first :: _ =>
                   delete first
                     (store (running one_row_driver
                        {[ txt "query:1" := txt "1";
                           txt "query:2" := txt "2" ]}))
               | [] => store (running one_row_driver
                         {[ txt "query:1" := txt "1";
                            txt "query:2" := txt "2" ]})
               end /\
    (forall k, In k (tl keys) ->
       store w' !! k
       = store (running one_row_driver
                  {[ txt "query:1" := txt "1";
                     txt "query:2" := txt "2" ]}) !! k) /\
    (forall k1 k2, k1 <> k2 ->
       store w' !! k1
       = store (running one_row_driver
                  {[ txt "query:1" := txt "1";
                     txt "query:2" := txt "2" ]}) !! k1 \/
       store w' !! k2
       = store (running one_row_driver
                  {[ txt "query:1" := txt "1";
                     txt "query:2" := txt "2" ]}) !! k2).
Proof.
  apply (delPattern_removes_one prefix_glob (txt "query:*")
           (running one_row_driver
              {[ txt "query:1" := txt "1"; txt "query:2" := txt "2" ]})).
  reflexivity.
Defined.

(** Two keys match, the answer is two, and one entry is left. *)
Example delPattern_two_matching :
  let w := running one_row_driver
             {[ txt "query:1" := txt "1"; txt "query:2" := txt "2" ]} in
  fst (delPattern prefix_glob (txt "query:*") w) = Ok 2 /\
  size (store (snd (delPattern prefix_glob (txt "query:*") w))) = 1%nat.
Proof. vm_compute. done. Qed.

(** ** The validator *)

(** X8.  What [validateQuery] lets through: exactly the texts that
    begin with [select] once trimmed and lower-cased, hold no denylisted
    keyword as a whole word, match none of the injection patterns, have
    at most 10000 characters and as many opening as closing
    parentheses. *)
Theorem validateQuery_accepts (sql : text) :
  validateQuery sql = Ok tt <->
  begins_with_select sql = true /\
  (forall kw, In kw blacklistedKeywords -> ~ whole_word kw sql) /\
  (forall pattern, In pattern injectionPatterns -> ~ Matches pattern sql) /\
  Z.of_nat (length sql) <= 10000 /\
  count_char "(" sql = count_char ")" sql.
Proof.
  pose proof blacklistedKeywords_ok as Hok. rewrite forallb_forall in Hok.
  unfold validateQuery. fold (begins_with_select sql).
  destruct (begins_with_select sql); cbn [negb]; [|split; [done|by intros [? _]]].
  destruct (find _ blacklistedKeywords) as [kw|] eqn:Hfind.
  { apply find_some in Hfind as [Hin Htest].
    apply test_keyword_regex in Htest; [|by apply Hok].
    split; [done|]. intros (_ & Hno & _). by destruct (Hno kw Hin). }
  assert (Hwords : forall kw, In kw blacklistedKeywords -> ~ whole_word kw sql).
  { intros kw Hin Hww. apply test_keyword_regex in Hww; [|by apply Hok].
    pose proof (find_none _ _ Hfind kw Hin) as Hf. cbv beta in Hf. congruence. }
  destruct (existsb _ injectionPatterns) eqn:Hinj.
  { apply existsb_exists in Hinj as (pattern & Hin & Htest).
    apply test_true in Htest.
    split; [done|]. intros (_ & _ & Hno & _). by destruct (Hno pattern Hin). }
  assert (Hpatterns : forall pattern,
            In pattern injectionPatterns -> ~ Matches pattern sql).
  { intros pattern Hin. apply test_false.
    destruct (test pattern sql) eqn:Ht; [|done].
    assert (existsb (fun pattern => test pattern sql) injectionPatterns = true)
      as Hex by (apply existsb_exists; eauto).
    congruence. }
  destruct (10000 <? Z.of_nat (length sql)) eqn:Hlen.
  { apply Z.ltb_lt in Hlen. split; [done|]. intros (_ & _ & _ & Hl & _). lia. }
  apply Z.ltb_ge in Hlen.
  destruct (Nat.eqb _ _) eqn:Hpar; cbn [negb].
  - apply Nat.eqb_eq in Hpar. split; [|done]. intros _.
    repeat split; done || lia.
  - apply Nat.eqb_neq in Hpar. split; [done|]. by intros (_ & _ & _ & _ & ?).
Qed.

(** ** The executor *)

Lemma getTotalCount_total sql w :
  exists n w', getTotalCount sql w = (Ok n, w').
Proof.
  unfold getTotalCount, try_catch.
  match goal with
  | |- exists _ _, (let (_, _) := ?m in _) = _ => destruct m as [[n|e] w']
  end; unfold ret; eauto.
Qed.

Lemma ceil_div_spec n s :
  1 <= s -> (- (- n / s) - 1) * s < n <= - (- n / s) * s.
Proof.
  intros Hs. pose proof (Z.div_mod (- n) s ltac:(lia)) as Hd.
  pose proof (Z.mod_pos_bound (- n) s ltac:(lia)) as Hm. nia.
Qed.

(** X9.  The pagination a page reports is consistent.  For a page
    number and a page size that are safe integers, the page reported is
    the page asked for, or 1 when that is less; the page size is within 1
    to 100; [rowCount] is the number of rows; and, for a [totalRows] that
    is a safe integer, where the quotient of doubles rounds up to the
    exact ceiling, [totalPages] is the number of pages of that size it
    takes to hold [totalRows]; there is a next page exactly when the rows
    up to this page are fewer than [totalRows], and a previous one
    exactly when the page is not the first. *)
Theorem pagination_is_consistent (sql : text) (page pageSize : Z)
    (w w' : world) (r : QueryResult) :
  safe_integer page -> safe_integer pageSize ->
  executeWithPagination sql (Int page) (Int pageSize) w = (Ok r, w') ->
  exists page' size',
    pg_page (qr_pagination r) = Int page' /\
    pg_pageSize (qr_pagination r) = Int size' /\
    page' = Z.max 1 page /\ 1 <= size' <= 100 /\
    md_rowCount (qr_metadata r) = Z.of_nat (length (qr_rows r)) /\
    (pg_hasPreviousPage (qr_pagination r) = true <-> 1 < page') /\
    forall n, pg_totalRows (qr_pagination r) = Int n -> safe_integer n ->
      exists pages,
        pg_totalPages (qr_pagination r) = Int pages /\
        (pages - 1) * size' < n <= pages * size' /\
        (pg_hasNextPage (qr_pagination r) = true <-> page' * size' < n).
Proof.
  intros _ _. unfold executeWithPagination.
  fold (clamp_page (Int page)). fold (clamp_pageSize (Int pageSize)).
  assert (clamp_page (Int page) = Int (Z.max 1 page)) as ->.
  { unfold clamp_page. simpl. destruct (page <? 1) eqn:E.
    - apply Z.ltb_lt in E. f_equal. lia.
    - apply Z.ltb_ge in E. f_equal. lia. }
  destruct (clamp_pageSize_range (Int pageSize)) as [H|(s & -> & Hs)].
  { destruct (clamp_pageSize_Int pageSize) as [z Hz]. congruence. }
  unfold Date_now, read, try_catch. unfold bind at 1 2. cbv beta iota.
  unfold bind at 1.
  destruct (database_query _ w) as [[res|e] w1]; [|discriminate].
  unfold bind at 1.
  destruct (getTotalCount_total sql w1) as (n & w2 & ->).
  unfold bind, ret. intros [= <- <-]. cbn.
  exists (Z.max 1 page), s. repeat split; try lia.
  intros n' -> _. unfold num_ceil_div.
  destruct (s =? 0) eqn:E; [apply Z.eqb_eq in E; lia|].
  pose proof (ceil_div_spec n' s ltac:(lia)) as Hc.
  exists (- (- n' / s)). split; [done|]. split; [lia|].
  rewrite Z.ltb_lt. nia.
Qed.

Lemma pagination_is_consistent_witness :
  exists page' size',
    pg_page (qr_pagination (uncounted_page (Int 0) (Int 500)
               (DbResult [JObj [(txt "id", JNum 1)]] None) 2)) = Int page' /\
    pg_pageSize (qr_pagination (uncounted_page (Int 0) (Int 500)
               (DbResult [JObj [(txt "id", JNum 1)]] None) 2)) = Int size' /\
    page' = Z.max 1 0 /\ 1 <= size' <= 100 /\
    md_rowCount (qr_metadata (uncounted_page (Int 0) (Int 500)
               (DbResult [JObj [(txt "id", JNum 1)]] None) 2))
    = Z.of_nat (length (qr_rows (uncounted_page (Int 0) (Int 500)
               (DbResult [JObj [(txt "id", JNum 1)]] None) 2))) /\
    (pg_hasPreviousPage (qr_pagination (uncounted_page (Int 0) (Int 500)
               (DbResult [JObj [(txt "id", JNum 1)]] None) 2)) = true
     <-> 1 < page') /\
    forall n,
      pg_totalRows (qr_pagination (uncounted_page (Int 0) (Int 500)
               (DbResult [JObj [(txt "id", JNum 1)]] None) 2)) = Int n ->
      safe_integer n ->
      exists pages,
        pg_totalPages (qr_pagination (uncounted_page (Int 0) (Int 500)
               (DbResult [JObj [(txt "id", JNum 1)]] None) 2)) = Int pages /\
        (pages - 1) * size' < n <= pages * size' /\
        (pg_hasNextPage (qr_pagination (uncounted_page (Int 0) (Int 500)
               (DbResult [JObj [(txt "id", JNum 1)]] None) 2)) = true
         <-> page' * size' < n).
Proof.
  apply (pagination_is_consistent (txt "SELECT id FROM users") 0 500
           (running no_count_driver ∅)
           (snd (executeWithPagination (txt "SELECT id FROM users")
                   (Int 0) (Int 500) (running no_count_driver ∅)))).
  - reflexivity.
  - reflexivity.
  - vm_compute. reflexivity.
Defined.

(** *** What the parts of a request leave alone *)

Lemma db_only_refl w : db_only w w.
Proof. by destruct w. Qed.

Lemma db_only_trans w1 w2 w3 : db_only w1 w2 -> db_only w2 w3 -> db_only w1 w3.
Proof.
  unfold db_only. intros H1 H2. rewrite H2. rewrite H1 at 1. by destruct w1.
Qed.

Lemma nothing_written_refl w : nothing_written w w.
Proof. by intros k v. Qed.

Lemma nothing_written_trans w1 w2 w3 :
  nothing_written w1 w2 -> nothing_written w2 w3 -> nothing_written w1 w3.
Proof. intros H1 H2 k v H. by apply H1, H2. Qed.

Lemma keeps_count_refl w : keeps_count w w.
Proof. by intros H. Qed.

Lemma keeps_count_trans w1 w2 w3 :
  keeps_count w1 w2 -> keeps_count w2 w3 -> keeps_count w1 w3.
Proof. intros H1 H2 H. by apply H2, H1. Qed.

Lemma same_cache_refl w : same_cache w w.
Proof. done. Qed.

Lemma same_cache_trans w1 w2 w3 :
  same_cache w1 w2 -> same_cache w2 w3 -> same_cache w1 w3.
Proof. unfold same_cache. intros [? ?] [? ?]. split; congruence. Qed.

Lemma db_only_same_cache w w' : db_only w w' -> same_cache w w'.
Proof. intros ->. done. Qed.

Lemma db_only_nothing_written w w' : db_only w w' -> nothing_written w w'.
Proof. intros -> k v. done. Qed.

Lemma db_only_keeps_count w w' : db_only w w' -> keeps_count w w'.
Proof. intros -> H. done. Qed.

Lemma db_only_redis_up w w' : db_only w w' -> redis_up w' = redis_up w.
Proof. intros ->. done. Qed.

Lemma same_sent_refl w : same_sent w w.
Proof. done. Qed.

Lemma same_sent_trans w1 w2 w3 :
  same_sent w1 w2 -> same_sent w2 w3 -> same_sent w1 w3.
Proof. unfold same_sent. congruence. Qed.

Ltac f_side :=
  solve [ apply db_only_refl | exact db_only_trans
        | apply nothing_written_refl | exact nothing_written_trans
        | apply keeps_count_refl | exact keeps_count_trans
        | apply same_cache_refl | exact same_cache_trans
        | apply same_sent_refl | exact same_sent_trans ].

Ltac f_step :=
  lazymatch goal with
  | |- forall _, _ => intro
  | |- preserves _ (ret _) => apply preserves_ret; f_side
  | |- preserves _ (throw _) => apply preserves_throw; f_side
  | |- preserves _ (lift _) => apply preserves_lift; f_side
  | |- preserves _ (read _) => apply preserves_read; f_side
  | |- preserves _ Date_now => apply preserves_read; f_side
  | |- preserves _ (bind _ _) => apply preserves_bind; [f_side| |]
  | |- preserves _ (try_catch _ _) => apply preserves_try_catch; [f_side| |]
  | |- preserves _ (when _ _) => apply preserves_when; [f_side|]
  | |- preserves _ (match ?x with _ => _ end) => destruct x
  end.

Lemma database_query_db_only statement :
  preserves db_only (database_query statement).
Proof.
  intros w. unfold database_query.
  destruct (_ || _); [done|apply db_only_refl].
Qed.

Lemma getTotalCount_db_only sql : preserves db_only (getTotalCount sql).
Proof.
  unfold getTotalCount. repeat f_step. apply database_query_db_only.
Qed.

Lemma executeWithPagination_db_only sql page pageSize :
  preserves db_only (executeWithPagination sql page pageSize).
Proof.
  unfold executeWithPagination. repeat f_step.
  - apply database_query_db_only.
  - apply getTotalCount_db_only.
Qed.

Lemma explainQuery_db_only sql : preserves db_only (explainQuery sql).
Proof.
  unfold explainQuery. repeat f_step. apply database_query_db_only.
Qed.

Lemma redis_get_nothing_written key :
  preserves nothing_written (redis_get key).
Proof.
  intros w k v. rewrite redis_get_cases.
  destruct (isConnected w && client_up w); [|done].
  destruct (store w !! key) as [[|c s]|]; try done.
  destruct (JSON_parse (c :: s)); [done|]. cbn [snd store with_store].
  intros H. apply lookup_delete_Some in H. tauto.
Qed.

Lemma bump_frame (m : M unit) w :
  m = bump_hits \/ m = bump_misses \/ m = bump_errors \/ m = bump_totalRequests ->
  exists ms, snd (m w) = with_metrics w ms.
Proof. intros [->|[->|[->| ->]]]; eexists; reflexivity. Qed.

Lemma bump_nothing_written (m : M unit) :
  m = bump_hits \/ m = bump_misses \/ m = bump_errors \/ m = bump_totalRequests ->
  preserves nothing_written m.
Proof. intros H w. destruct (bump_frame m w H) as [ms ->]. by intros k v. Qed.

Lemma cache_get_nothing_written key options :
  preserves nothing_written (cache_get key options).
Proof.
  unfold cache_get, this_del. repeat f_step.
  all: try (apply bump_nothing_written; tauto).
  apply redis_get_nothing_written.
Qed.

Lemma redis_set_metrics key value ttl w :
  cache_metrics (snd (redis_set key value ttl w)) = cache_metrics w /\
  redis_up (snd (redis_set key value ttl w)) = redis_up w /\
  sent (snd (redis_set key value ttl w)) = sent w.
Proof.
  rewrite redis_set_cases.
  destruct (isConnected w && client_up w); [|done].
  by destruct (stringify value).
Qed.

Lemma redis_set_keeps_count key value ttl :
  preserves keeps_count (redis_set key value ttl).
Proof.
  intros w H. by rewrite (proj1 (redis_set_metrics key value ttl w)).
Qed.

Lemma cache_get_keeps_count key options :
  trackMetrics options = true ->
  preserves keeps_count (cache_get key options).
Proof.
  intros Ht w. unfold keeps_count, counted, cache_get. rewrite Ht. run.
  rewrite redis_get_cases. simpl.
  destruct (isConnected w && client_up w); simpl; [|lia].
  destruct (store w !! key) as [[|c s]|]; simpl; try lia.
  destruct (JSON_parse (c :: s)) as [v|]; simpl; try lia.
  destruct (parseJSON options), v as [| |b|z| |s'|items|props]; simpl; try lia.
  destruct (JSON_parse s'); simpl; lia.
Qed.

Section Executor.

Variable gzip_base64 : text -> text.

Lemma cache_set_keeps_count key value ttl options :
  preserves keeps_count (cache_set gzip_base64 key value ttl options).
Proof.
  unfold cache_set. repeat f_step. all: apply redis_set_keeps_count.
Qed.

(** The course of a request, by what its parts return. *)
Lemma executeQuery_cases sql options w :
  executeQuery gzip_base64 sql options w =
  match validateQuery sql with
  | Throw e => (Throw e, w)
  | Ok _ =>
      if default true (opt_useCache options)
         && negb (default false (opt_dryRun options)) then
        match cache_get (request_key sql options) get_defaults w with
        | (Ok v, w0) =>
            if truthy v
            then (Ok (Cached (JObj (set_assoc (txt "fromCache") (JBool true)
                                      (own_props v)))), w0)
            else past_the_cache gzip_base64 sql options w0
        | (Throw e, w0) => (Throw e, w0)
        end
      else past_the_cache gzip_base64 sql options w
  end.
Proof.
  unfold executeQuery. cbv zeta.
  fold (request_page options). fold (request_pageSize options).
  fold (request_key sql options).
  unfold try_catch at 1. unfold bind at 1. unfold lift.
  destruct (validateQuery sql) as [[]|e]; [|done].
  assert (Hun : forall w0,
    (if default false (opt_dryRun options)
     then e <- explainQuery sql;; ret (Explained e)
     else
       result <- executeWithPagination sql (request_page options)
                   (request_pageSize options);;
       when (default true (opt_useCache options)
             && (0 <? Z.of_nat (length (qr_rows result))))
            (cache_set gzip_base64 (request_key sql options)
               (js_of_result result) cacheTTL set_defaults;;; ret tt);;;
       ret (Fresh result)) w0
    = past_the_cache gzip_base64 sql options w0).
  { intros w0. unfold past_the_cache.
    destruct (default false (opt_dryRun options)).
    - unfold bind, ret. by destruct (explainQuery sql w0) as [[e|e] w1].
    - unfold bind at 1.
      destruct (executeWithPagination _ _ _ w0) as [[r|e] w1]; [|done].
      unfold bind at 1, when.
      destruct (default true (opt_useCache options) && _); [|done].
      unfold bind at 1.
      destruct (cache_set_total gzip_base64 (request_key sql options)
                  (js_of_result r) cacheTTL set_defaults w1) as (b & w2 & ->).
      done. }
  destruct (default true (opt_useCache options)
            && negb (default false (opt_dryRun options))).
  - unfold bind at 1.
    destruct (cache_get _ _ w) as [[v|e] w0]; [|done].
    destruct (truthy v); [done|]. rewrite Hun. unfold throw.
    by destruct (past_the_cache _ _ _ w0) as [[?|?] ?].
  - rewrite Hun. unfold throw.
    by destruct (past_the_cache _ _ _ w) as [[?|?] ?].
Qed.

Lemma past_the_cache_db_only sql options w0 :
  default true (opt_useCache options)
  && negb (default false (opt_dryRun options)) = false ->
  db_only w0 (snd (past_the_cache gzip_base64 sql options w0)).
Proof.
  intros H. unfold past_the_cache.
  destruct (default false (opt_dryRun options)).
  - pose proof (explainQuery_db_only sql w0) as Hd.
    by destruct (explainQuery sql w0) as [[?|?] ?].
  - rewrite andb_true_r in H. rewrite H. cbn [andb].
    pose proof (executeWithPagination_db_only sql (request_page options)
                  (request_pageSize options) w0) as Hd.
    by destruct (executeWithPagination _ _ _ w0) as [[?|?] ?].
Qed.

(** X10.  A request that asks for no caching, and a dry run, go past
    the cache: whatever the outcome, the entries of the store and the
    counters of the cache are as they were. *)
Theorem cache_bypassed (sql : text) (options : query_options) (w : world) :
  default true (opt_useCache options)
  && negb (default false (opt_dryRun options)) = false ->
  same_cache w (snd (executeQuery gzip_base64 sql options w)).
Proof.
  intros H. rewrite executeQuery_cases, H.
  destruct (validateQuery sql); [|done].
  by apply db_only_same_cache, past_the_cache_db_only.
Qed.

Lemma past_the_cache_writes sql options w0 :
  nothing_written w0 (snd (past_the_cache gzip_base64 sql options w0)) \/
  exists r,
    fst (past_the_cache gzip_base64 sql options w0) = Ok (Fresh r) /\
    qr_rows r <> [] /\ default true (opt_useCache options) = true.
Proof.
  unfold past_the_cache.
  destruct (default false (opt_dryRun options)).
  - left. apply db_only_nothing_written.
    pose proof (explainQuery_db_only sql w0) as Hd.
    by destruct (explainQuery sql w0) as [[?|?] ?].
  - pose proof (executeWithPagination_db_only sql (request_page options)
                  (request_pageSize options) w0) as Hd.
    destruct (executeWithPagination _ _ _ w0) as [[r|e] w1];
      [|left; by apply db_only_nothing_written].
    destruct (default true (opt_useCache options)); cbn [andb];
      [|left; by apply db_only_nothing_written].
    destruct (qr_rows r) as [|row rows] eqn:Hrows;
      [left; by apply db_only_nothing_written|].
    right. exists r. cbn [fst]. rewrite Hrows. done.
Qed.

(** X11.  An entry is written only for a page that has rows: unless the
    request returns a fresh result with at least one row, with caching
    on, the store holds afterwards nothing that it did not hold before.
    A failed request, a dry run, an answer from the cache and an empty
    page leave no entry. *)
Theorem writes_only_a_page_with_rows (sql : text) (options : query_options)
    (w : world) :
  nothing_written w (snd (executeQuery gzip_base64 sql options w)) \/
  exists r,
    fst (executeQuery gzip_base64 sql options w) = Ok (Fresh r) /\
    qr_rows r <> [] /\ default true (opt_useCache options) = true.
Proof.
  rewrite executeQuery_cases.
  destruct (validateQuery sql); [|left; apply nothing_written_refl].
  destruct (_ && _); [|apply past_the_cache_writes].
  pose proof (cache_get_nothing_written (request_key sql options)
                get_defaults w) as Hg.
  destruct (cache_get _ _ w) as [[v|e] w0]; [|by left].
  destruct (truthy v); [by left|]. cbn [snd] in Hg.
  destruct (past_the_cache_writes sql options w0) as [H|H]; [|by right].
  left. by eapply nothing_written_trans.
Qed.

Lemma database_query_fails statement w w0 e w1 :
  database_query statement w = (Throw e, w1) ->
  DB_TYPE w0 = DB_TYPE w -> driver w0 = driver w -> sent w0 = sent w ->
  exists w2, database_query statement w0 = (Throw e, w2) /\ sent w2 = sent w1.
Proof.
  unfold database_query. intros H H1 H2 H3. rewrite H1, H2, H3.
  destruct (_ || _).
  - injection H as H <-. rewrite H. eexists. split; [done|]. done.
  - injection H as <- <-. eexists. split; [done|]. done.
Qed.

Lemma executeWithPagination_fails sql page pageSize w e w1 :
  database_query (paginatedSQL (DB_TYPE w) sql page pageSize) w
  = (Throw e, w1) ->
  executeWithPagination sql page pageSize w
  = (Throw (Error (txt "Query execution failed: " ++ exn_message e)), w1).
Proof.
  intros H. unfold executeWithPagination, paginatedSQL in *.
  fold (clamp_page page). fold (clamp_pageSize pageSize).
  unfold Date_now, try_catch, read. unfold bind at 1 2. cbv beta iota.
  unfold bind at 1. by rewrite H.
Qed.

(** X12.  When the database rejects the statement of the page, the
    request fails with [Query execution failed: ] before the message of
    the database; the count query is not sent. *)
Theorem failed_page_fails_the_request (sql : text) (options : query_options)
    (w w1 : world) (e : exn) :
  validateQuery sql = Ok tt ->
  default false (opt_dryRun options) = false ->
  served_from_cache sql options w = false ->
  database_query (paginatedSQL (DB_TYPE w) sql (request_page options)
                    (request_pageSize options)) w = (Throw e, w1) ->
  exists w',
    executeQuery gzip_base64 sql options w
    = (Throw (Error (txt "Query execution failed: " ++ exn_message e)), w') /\
    sent w' = sent w1.
Proof.
  intros Hv Hdry Hserved Hdb. rewrite executeQuery_cases, Hv.
  assert (Hrun : forall w0,
    DB_TYPE w0 = DB_TYPE w -> driver w0 = driver w -> sent w0 = sent w ->
    exists w',
      past_the_cache gzip_base64 sql options w0
      = (Throw (Error (txt "Query execution failed: " ++ exn_message e)), w')
      /\ sent w' = sent w1).
  { intros w0 H1 H2 H3. unfold past_the_cache. rewrite Hdry.
    destruct (database_query_fails _ w w0 e w1 Hdb H1 H2 H3) as (w2 & Hq & Hs).
    rewrite <- H1 in Hq.
    rewrite (executeWithPagination_fails _ _ _ _ _ _ Hq). eauto. }
  unfold served_from_cache in Hserved. rewrite Hdry in Hserved.
  rewrite Hdry. cbn [negb] in *. rewrite andb_true_r in *.
  destruct (default true (opt_useCache options)); cbn [andb] in Hserved;
    [|by apply Hrun].
  destruct (cache_get_frame (request_key sql options) get_defaults w)
    as (v & w0 & Hget & H1 & H2 & H3 & _).
  rewrite Hget in *. cbn [fst] in Hserved. rewrite Hserved. by apply Hrun.
Qed.

(** X13.  The same request again is answered from the cache.  When a
    request has returned a fresh result with rows, with caching on and a
    server that answers, and the result is one JSON can carry, within
    the size [set] accepts, then the same request returns this result
    with [fromCache] set, and sends nothing to the database. *)
Theorem second_request_from_cache (sql : text) (options : query_options)
    (w w1 : world) (r : QueryResult) :
  default true (opt_useCache options) = true ->
  executeQuery gzip_base64 sql options w = (Ok (Fresh r), w1) ->
  qr_rows r <> [] ->
  is_json (js_of_result r) = true ->
  json_size (js_of_result r) <= 1024 * 1024 ->
  redis_up w1 = true ->
  exists w2,
    executeQuery gzip_base64 sql options w1
    = (Ok (Cached (js_of_result (from_cache r))), w2) /\
    sent w2 = sent w1.
Proof.
  intros Hcache Hrun Hrows Hj Hfit Hup.
  rewrite executeQuery_cases in Hrun. rewrite executeQuery_cases.
  destruct (validateQuery sql); [|discriminate].
  rewrite Hcache in *. cbn [andb] in *.
  assert (Hpast : forall w0,
    past_the_cache gzip_base64 sql options w0 = (Ok (Fresh r), w1) ->
    default false (opt_dryRun options) = false /\
    store w1 !! request_key sql options = Some (json_quote (str (js_of_result r)))).
  { intros w0. unfold past_the_cache.
    destruct (default false (opt_dryRun options)).
    { by destruct (explainQuery sql w0) as [[?|?] ?]. }
    destruct (executeWithPagination _ _ _ w0) as [[r'|?] wa]; [|discriminate].
    rewrite Hcache. cbn [andb]. intros [= -> <-]. split; [done|].
    destruct (qr_rows r) as [|row rows] eqn:Hr; [done|].
    assert (Hpos : (0 <? Z.of_nat (length (row :: rows))) = true)
      by reflexivity.
    rewrite Hpos in *. clear Hpos.
    rewrite (cache_set_fits gzip_base64 _ _ _ set_defaults wa Hj eq_refl Hfit)
      in *.
    cbn [snd] in *.
    destruct (redis_set_metrics (request_key sql options)
                (JStr (str (js_of_result r))) cacheTTL wa) as (_ & Hup' & _).
    rewrite Hup in Hup'. revert Hup'. rewrite redis_set_cases.
    fold (redis_up wa). intros <-. cbn [snd store with_store].
    apply lookup_insert_eq. }
  assert (Hdry : default false (opt_dryRun options) = false
          /\ store w1 !! request_key sql options
             = Some (json_quote (str (js_of_result r)))).
  { destruct (default false (opt_dryRun options)) eqn:Hd;
      cbn [negb andb] in Hrun.
    - by apply (Hpast w).
    - destruct (cache_get _ _ w) as [[v|?] w0]; [|discriminate].
      destruct (truthy v); [discriminate|]. by apply (Hpast w0). }
  destruct Hdry as [Hdry Hstored]. rewrite Hdry. cbn [negb].
  destruct (cache_get_stored (request_key sql options) get_defaults
              (js_of_result r) w1 Hj eq_refl Hup Hstored) as (Hv & _).
  destruct (cache_get_frame (request_key sql options) get_defaults w1)
    as (v & w2 & Hget & _ & _ & Hsent & _).
  rewrite Hget in *. cbn [fst] in Hv. injection Hv as ->.
  exists w2. split; [|done]. reflexivity.
Qed.

(** X14.  A request keeps the counters of the cache in step: if every
    request counted so far is a hit or a miss, and errors were counted on
    hits only, the same holds after [executeQuery], whatever its
    outcome. *)
Theorem executeQuery_keeps_count (sql : text) (options : query_options)
    (w : world) :
  counted (cache_metrics w) ->
  counted (cache_metrics (snd (executeQuery gzip_base64 sql options w))).
Proof.
  change (keeps_count w (snd (executeQuery gzip_base64 sql options w))).
  revert w. change (preserves keeps_count (executeQuery gzip_base64 sql options)).
  unfold executeQuery. cbv zeta. repeat f_step.
  all: try (apply cache_get_keeps_count; reflexivity).
  all: try apply cache_set_keeps_count.
  all: apply (preserves_weaken db_only); [apply db_only_keeps_count|].
  all: apply explainQuery_db_only || apply executeWithPagination_db_only.
Qed.

End Executor.

Lemma cache_bypassed_witness :
  same_cache (running one_row_driver ∅)
    (snd (executeQuery some_gzip (txt "SELECT id FROM users")
            (QueryOptions None None (Some false) None)
            (running one_row_driver ∅))).
Proof.
  apply (cache_bypassed some_gzip (txt "SELECT id FROM users")
           (QueryOptions None None (Some false) None)
           (running one_row_driver ∅)).
  reflexivity.
Defined.

Lemma failed_page_fails_the_request_witness :
  exists w',
    executeQuery some_gzip (txt "SELECT id FROM users") no_options
      (running failing_driver ∅)
    = (Throw (Error (txt "Query execution failed: "
                       ++ exn_message (Error (txt "relation does not exist")))),
       w') /\
    sent w'
    = sent (snd (database_query
                   (paginatedSQL None (txt "SELECT id FROM users")
                      (Int 1) (Int 50)) (running failing_driver ∅))).
Proof.
  apply (failed_page_fails_the_request some_gzip (txt "SELECT id FROM users")
           no_options (running failing_driver ∅)
           (snd (database_query
                   (paginatedSQL None (txt "SELECT id FROM users")
                      (Int 1) (Int 50)) (running failing_driver ∅)))
           (Error (txt "relation does not exist"))).
  - vm_compute. reflexivity.
  - reflexivity.
  - vm_compute. reflexivity.
  - vm_compute. reflexivity.
Defined.

Lemma second_request_from_cache_witness :
  exists w2,
    executeQuery some_gzip (txt "SELECT id FROM users") no_options
      (snd (executeQuery some_gzip (txt "SELECT id FROM users") no_options
              (running one_row_driver ∅)))
    = (Ok (Cached (js_of_result (from_cache one_row_page))), w2) /\
    sent w2
    = sent (snd (executeQuery some_gzip (txt "SELECT id FROM users")
                   no_options (running one_row_driver ∅))).
Proof.
  apply (second_request_from_cache some_gzip (txt "SELECT id FROM users")
           no_options (running one_row_driver ∅)
           (snd (executeQuery some_gzip (txt "SELECT id FROM users")
                   no_options (running one_row_driver ∅)))
           one_row_page).
  - reflexivity.
  - vm_compute. reflexivity.
  - discriminate.
  - vm_compute. reflexivity.
  - vm_compute. discriminate.
  - vm_compute. reflexivity.
Defined.

Lemma executeQuery_keeps_count_witness :
  counted (cache_metrics
             (snd (executeQuery some_gzip (txt "SELECT id FROM users")
                     no_options (running one_row_driver ∅)))).
Proof.
  apply (executeQuery_keeps_count some_gzip (txt "SELECT id FROM users")
           no_options (running one_row_driver ∅)).
  vm_compute. split; [reflexivity|discriminate].
Defined.

(** ** More of the executor *)

Section MoreOfTheExecutor.

Variable gzip_base64 : text -> text.

(** X15.  Validation comes before everything: a text [validateQuery]
    rejects, for whatever reason, reaches neither the cache nor the
    database, and [executeQuery] fails with the error of the
    validator. *)
Theorem rejected_text_runs_nothing (sql : text) (options : query_options)
    (w : world) (e : exn) :
  validateQuery sql = Throw e ->
  executeQuery gzip_base64 sql options w = (Throw e, w).
Proof. intros H. rewrite executeQuery_cases. by rewrite H. Qed.

Lemma parseInt_show_pos p : parseInt (show_Z (Z.pos p)) = Int (Z.pos p).
Proof.
  rewrite parseInt_digits, show_Z_pos_value; [done|].
  rewrite show_Z_pos. split; [|apply uint_chars_digits].
  destruct (pos_chars p) as (c & ds & -> & _). done.
Qed.

(** X16.  The count is read as the database gives it: when the first
    row of the answer to the count query has a [total_count] that is a
    positive number, or a string of decimal digits, and the count is a
    safe integer, [getTotalCount] returns that number. *)
Theorem count_is_read (sql : text) (w : world) (result : dbresult)
    (props : list (text * jsval)) (c : jsval) (n : Z) :
  safe_integer n ->
  supported (DB_TYPE w) = true ->
  driver w (countSQL sql) = Ok result ->
  hd JUndef (db_rows result) = JObj props ->
  assoc (txt "total_count") props = Some c ->
  (c = JNum n /\ 0 < n) \/
  (exists ds, c = JStr ds /\ digits ds /\ n = digits_value ds) ->
  fst (getTotalCount sql w) = Ok (Int n).
Proof.
  intros _ Hs Hd Hrow Hc Hn.
  unfold getTotalCount, try_catch, database_query. unfold bind at 1.
  fold (supported (DB_TYPE w)). rewrite Hs, Hd, Hrow.
  unfold bind at 1, lift, get_prop. rewrite Hc.
  destruct Hn as [[-> Hpos]|(ds & -> & Hds & ->)].
  - assert (truthy (JNum n) = true) as ->.
    { simpl. destruct (n =? 0) eqn:E; [apply Z.eqb_eq in E; lia|done]. }
    unfold bind, ret. cbn [fst].
    change (to_string (JNum n)) with (show_Z n).
    destruct n as [|p|p]; try lia. by rewrite parseInt_show_pos.
  - assert (truthy (JStr ds) = true) as ->.
    { destruct Hds as [Hne _]. by destruct ds. }
    unfold bind, ret. cbn [fst].
    change (to_string (JStr ds)) with ds. by rewrite parseInt_digits.
Qed.

(** X17.  The cost is the same whether the database gives the plan as
    an object or as its JSON text. *)
Theorem plan_text_or_object (plan : jsval) (rest : list jsval) :
  is_json plan = true ->
  (forall s, plan <> JStr s) ->
  extractCostFromPlan (JStr (str plan) :: rest)
  = extractCostFromPlan (plan :: rest).
Proof.
  intros Hj Hs. unfold extractCostFromPlan.
  rewrite (JSON_parse_str plan Hj).
  destruct plan; try done. by destruct (Hs s).
Qed.

Lemma sent_first w w1 w2 statement :
  sent w1 = sent w ++ [statement] -> sent_extends w1 w2 ->
  exists more, sent w2 = sent w ++ statement :: more.
Proof.
  intros H [more Hm]. exists more. by rewrite Hm, H, <- app_assoc.
Qed.

(** X18.  A page or a page size that is not a number is not clamped:
    [NaN] is neither less than 1 nor more than 100, so it reaches the
    text of the statement.  In the PostgreSQL dialect the statement the
    database receives ends with [OFFSET NaN]. *)
Theorem NaN_reaches_the_database (sql : text) (page pageSize : num)
    (w : world) :
  supported (DB_TYPE w) = true ->
  postgresql (DB_TYPE w) = true ->
  page = NaN \/ pageSize = NaN ->
  exists body more,
    sent (snd (executeWithPagination sql page pageSize w))
    = sent w ++ (body ++ txt " OFFSET NaN") :: more.
Proof.
  intros Hs Hpg Hnan.
  assert (Hoff : num_mul (num_sub (clamp_page page) (Int 1))
                   (clamp_pageSize pageSize) = NaN).
  { destruct Hnan as [-> | ->]; [done|].
    unfold clamp_pageSize. cbn. by destruct (num_sub _ _). }
  assert (exists body,
    paginatedSQL (DB_TYPE w) sql page pageSize = body ++ txt " OFFSET NaN")
    as [body Hbody].
  { unfold paginatedSQL, addPaginationToSQL. rewrite Hoff.
    fold (postgresql (DB_TYPE w)). rewrite Hpg.
    destruct (exec limitRegex _) as [m|].
    - exists (replace_empty limitRegex
                (replace_empty semicolonsRegex (trim sql))
              ++ txt " LIMIT "
              ++ show_num (num_min (parseInt (nth 0 (m_groups m) []))
                             (clamp_pageSize pageSize))).
      rewrite <- !app_assoc. reflexivity.
    - exists (replace_empty semicolonsRegex (trim sql)
              ++ txt " LIMIT " ++ show_num (clamp_pageSize pageSize)).
      rewrite <- !app_assoc. reflexivity. }
  exists body. unfold paginatedSQL in Hbody.
  unfold executeWithPagination.
  fold (clamp_page page). fold (clamp_pageSize pageSize).
  unfold Date_now, try_catch, read. unfold bind at 1 2. cbv beta iota.
  rewrite Hbody.
  unfold bind at 1. unfold database_query at 1.
  fold (supported (DB_TYPE w)). rewrite Hs.
  set (w1 := with_sent w _ _).
  assert (H1 : sent w1 = sent w ++ [body ++ txt " OFFSET NaN"]) by done.
  destruct (driver w _) as [res|e].
  - unfold bind at 1.
    pose proof (getTotalCount_sent sql w1) as Hc.
    destruct (getTotalCount sql w1) as [[n|e] w2]; cbn [snd] in *.
    + unfold bind, read, ret. cbn [snd]. by eapply sent_first.
    + unfold throw. cbn [snd]. by eapply sent_first.
  - unfold throw. cbn [snd]. exists []. done.
Qed.

End MoreOfTheExecutor.

Lemma rejected_text_runs_nothing_witness :
  executeQuery some_gzip (txt "SELECT (1") no_options (running one_row_driver ∅)
  = (Throw (Error (txt "Unbalanced parentheses in query")),
     running one_row_driver ∅).
Proof.
  apply (rejected_text_runs_nothing some_gzip (txt "SELECT (1") no_options
           (running one_row_driver ∅)).
  vm_compute. reflexivity.
Defined.

Lemma count_is_read_witness :
  fst (getTotalCount (txt "SELECT id FROM users")
         (running (fun _ => Ok (DbResult
                      [JObj [(txt "total_count", JStr (txt "42"))]] None)) ∅))
  = Ok (Int 42).
Proof.
  apply (count_is_read (txt "SELECT id FROM users")
           (running (fun _ => Ok (DbResult
                      [JObj [(txt "total_count", JStr (txt "42"))]] None)) ∅)
           (DbResult [JObj [(txt "total_count", JStr (txt "42"))]] None)
           [(txt "total_count", JStr (txt "42"))] (JStr (txt "42")) 42).
  - reflexivity.
  - reflexivity.
  - reflexivity.
  - reflexivity.
  - reflexivity.
  - right. exists (txt "42"). split; [reflexivity|]. split; [|reflexivity].
    split; [discriminate|reflexivity].
Defined.

Lemma plan_text_or_object_witness :
  extractCostFromPlan
    [JStr (str (JObj [(txt "Plan", JObj [(txt "Total Cost", JNum 8)])]))]
  = extractCostFromPlan
      [JObj [(txt "Plan", JObj [(txt "Total Cost", JNum 8)])]].
Proof.
  apply (plan_text_or_object
           (JObj [(txt "Plan", JObj [(txt "Total Cost", JNum 8)])]) []).
  - reflexivity.
  - discriminate.
Defined.

Lemma NaN_reaches_the_database_witness :
  exists body more,
    sent (snd (executeWithPagination (txt "SELECT id FROM users") NaN (Int 10)
                 (running one_row_driver ∅)))
    = sent (running one_row_driver ∅) ++ (body ++ txt " OFFSET NaN") :: more.
Proof.
  apply (NaN_reaches_the_database (txt "SELECT id FROM users") NaN (Int 10)
           (running one_row_driver ∅)).
  - reflexivity.
  - reflexivity.
  - by left.
Defined.

(** ** Removing entries *)

Lemma redis_del_cases key w :
  redis_del key w =
  if isConnected w && client_up w
  then (Ok true, with_store w (delete key (store w)))
  else (Ok false, w).
Proof.
  unfold redis_del. run.
  destruct (isConnected w); simpl; [|done]. by destruct (client_up w).
Qed.

Lemma redis_flush_cases w :
  redis_flush w =
  if isConnected w && client_up w then (Ok true, with_store w ∅)
  else (Ok false, w).
Proof.
  unfold redis_flush, client_flushAll. run.
  destruct (isConnected w); simpl; [|done]. by destruct (client_up w).
Qed.

(** X19.  What the wrapper has removed is gone: on a server that
    answers, [redis.del] answers [true], a [redis.get] of the key then
    finds nothing and every other entry is as it was; [redis.flush]
    answers [true], and a [redis.get] of any key then finds nothing. *)
Theorem removed_is_gone (key : text) (w : world) :
  redis_up w = true ->
  fst (redis_del key w) = Ok true /\
  redis_get key (snd (redis_del key w)) = (Ok JNull, snd (redis_del key w)) /\
  (forall k, k <> key -> store (snd (redis_del key w)) !! k = store w !! k) /\
  fst (redis_flush w) = Ok true /\
  forall k, redis_get k (snd (redis_flush w)) = (Ok JNull, snd (redis_flush w)).
Proof.
  intros Hup. rewrite redis_del_cases, redis_flush_cases.
  fold (redis_up w). rewrite Hup. cbn [fst snd].
  split; [done|]. split; [|split; [|split; [done|]]].
  - rewrite redis_get_cases. cbn [isConnected client_up store with_store].
    fold (redis_up w). by rewrite Hup, lookup_delete_eq.
  - intros k Hk. cbn [store with_store]. by apply lookup_delete_ne.
  - intros k. rewrite redis_get_cases.
    cbn [isConnected client_up store with_store].
    fold (redis_up w). by rewrite Hup, lookup_empty.
Qed.

Lemma removed_is_gone_witness :
  fst (redis_del (txt "k") (running one_row_driver {[ txt "k" := txt "1" ]}))
  = Ok true /\
  redis_get (txt "k")
    (snd (redis_del (txt "k")
            (running one_row_driver {[ txt "k" := txt "1" ]})))
  = (Ok JNull,
     snd (redis_del (txt "k")
            (running one_row_driver {[ txt "k" := txt "1" ]}))) /\
  (forall k, k <> txt "k" ->
     store (snd (redis_del (txt "k")
                   (running one_row_driver {[ txt "k" := txt "1" ]}))) !! k
     = store (running one_row_driver {[ txt "k" := txt "1" ]}) !! k) /\
  fst (redis_flush (running one_row_driver {[ txt "k" := txt "1" ]}))
  = Ok true /\
  forall k,
    redis_get k
      (snd (redis_flush (running one_row_driver {[ txt "k" := txt "1" ]})))
    = (Ok JNull,
       snd (redis_flush (running one_row_driver {[ txt "k" := txt "1" ]}))).
Proof.
  apply (removed_is_gone (txt "k")
           (running one_row_driver {[ txt "k" := txt "1" ]})).
  reflexivity.
Defined.

Section Invalidation.

Variable gzip_base64 : text -> text.
Variable glob : text -> text -> bool.

(** X20.  Invalidation by pattern does not reach every cached result:
    [delPattern] removes one entry at most, so of two requests with
    different keys that are served from the cache, one at least is still
    served from it afterwards, whatever the pattern matches. *)
Theorem invalidation_leaves_a_result (pattern : text) (w : world)
    (sql1 sql2 : text) (options1 options2 : query_options) :
  request_key sql1 options1 <> request_key sql2 options2 ->
  served_from_cache sql1 options1 w = true ->
  served_from_cache sql2 options2 w = true ->
  served_from_cache sql1 options1 (snd (delPattern glob pattern w)) = true \/
  served_from_cache sql2 options2 (snd (delPattern glob pattern w)) = true.
Proof.
  intros Hne H1 H2.
  destruct (delPattern_frame glob pattern w) as (m & -> & Hm).
  assert (Hsame : forall sql options,
    m !! request_key sql options = store w !! request_key sql options ->
    served_from_cache sql options (with_store w m)
    = served_from_cache sql options w).
  { intros sql options Hk. unfold served_from_cache.
    by rewrite (cache_get_result (request_key sql options) get_defaults
                  (with_store w m) w eq_refl eq_refl Hk). }
  destruct (Hm _ _ Hne) as [Hk|Hk]; [left|right]; by rewrite Hsame.
Qed.

(** X21.  A dry run only explains: for a text that passes validation
    [executeQuery] returns what [explainQuery] returns for the text, in
    the state [explainQuery] leaves, and the one statement the database
    receives, where its type is supported, is the EXPLAIN of the text;
    the query itself is never run. *)
Theorem dry_run_only_explains (sql : text) (options : query_options)
    (w : world) :
  validateQuery sql = Ok tt ->
  default false (opt_dryRun options) = true ->
  exists e w',
    explainQuery sql w = (Ok e, w') /\
    executeQuery gzip_base64 sql options w = (Ok (Explained e), w') /\
    sent w' = sent w ++ (if supported (DB_TYPE w)
                         then [explainSQL (DB_TYPE w) sql] else []).
Proof.
  intros Hv Hdry. rewrite executeQuery_cases, Hv, Hdry.
  rewrite andb_false_r. unfold past_the_cache. rewrite Hdry.
  rewrite explainQuery_cases.
  destruct (supported (DB_TYPE w)).
  - destruct (driver w _); eexists _, _; repeat split; done.
  - eexists _, _. repeat split; [done..|]. by rewrite app_nil_r.
Qed.

End Invalidation.

Lemma invalidation_leaves_a_result_witness :
  let w :=
    snd (executeQuery some_gzip (txt "SELECT name FROM users") no_options
           (snd (executeQuery some_gzip (txt "SELECT id FROM users")
                   no_options (running one_row_driver ∅)))) in
  served_from_cache (txt "SELECT id FROM users") no_options
    (snd (delPattern prefix_glob (txt "query:result:*") w)) = true \/
  served_from_cache (txt "SELECT name FROM users") no_options
    (snd (delPattern prefix_glob (txt "query:result:*") w)) = true.
Proof.
  apply (invalidation_leaves_a_result prefix_glob (txt "query:result:*")
           (snd (executeQuery some_gzip (txt "SELECT name FROM users")
                   no_options
                   (snd (executeQuery some_gzip (txt "SELECT id FROM users")
                           no_options (running one_row_driver ∅)))))
           (txt "SELECT id FROM users") (txt "SELECT name FROM users")
           no_options no_options).
  - vm_compute. discriminate.
  - vm_compute. reflexivity.
  - vm_compute. reflexivity.
Defined.

Lemma dry_run_only_explains_witness :
  exists e w',
    explainQuery (txt "SELECT id FROM users") (running one_row_driver ∅)
    = (Ok e, w') /\
    executeQuery some_gzip (txt "SELECT id FROM users")
      (QueryOptions None None None (Some true)) (running one_row_driver ∅)
    = (Ok (Explained e), w') /\
    sent w'
    = sent (running one_row_driver ∅)
      ++ (if supported (DB_TYPE (running one_row_driver ∅))
          then [explainSQL (DB_TYPE (running one_row_driver ∅))
                  (txt "SELECT id FROM users")]
          else []).
Proof.
  apply (dry_run_only_explains some_gzip (txt "SELECT id FROM users")
           (QueryOptions None None None (Some true))
           (running one_row_driver ∅)).
  - vm_compute. reflexivity.
  - reflexivity.
Defined.

(** ** What a request asks of the database *)

Lemma redis_set_same_sent key value ttl :
  preserves same_sent (redis_set key value ttl).
Proof. intros w. apply redis_set_metrics. Qed.

Lemma getTotalCount_sent_exact sql w :
  supported (DB_TYPE w) = true ->
  sent (snd (getTotalCount sql w)) = sent w ++ [countSQL sql].
Proof.
  intros Hs. unfold getTotalCount, try_catch, database_query.
  unfold bind at 1. fold (supported (DB_TYPE w)). rewrite Hs.
  destruct (driver w (countSQL sql)) as [res|e]; [|done].
  unfold bind, lift, ret.
  destruct (get_prop _ _); [|done].
  destruct (truthy _); [done|]. by destruct (get_prop _ _).
Qed.

Lemma executeWithPagination_sent sql page pageSize w :
  exists more,
    sent (snd (executeWithPagination sql page pageSize w)) = sent w ++ more /\
    In more [ []; [paginatedSQL (DB_TYPE w) sql page pageSize];
              [paginatedSQL (DB_TYPE w) sql page pageSize; countSQL sql] ].
Proof.
  unfold executeWithPagination, paginatedSQL.
  fold (clamp_page page). fold (clamp_pageSize pageSize).
  unfold Date_now, try_catch, read. unfold bind at 1 2. cbv beta iota.
  unfold bind at 1. unfold database_query at 1.
  fold (supported (DB_TYPE w)).
  destruct (supported (DB_TYPE w)) eqn:Hs.
  - destruct (driver w _) as [res|e].
    + unfold bind at 1.
      set (w1 := with_sent w _ _).
      pose proof (getTotalCount_sent_exact sql w1 Hs) as Hc.
      destruct (getTotalCount_total sql w1) as (n & w2 & Hn).
      rewrite Hn in *. cbn [snd] in Hc.
      eexists. split; [|right; right; left; reflexivity].
      unfold bind, ret. cbn [snd]. rewrite Hc. unfold w1. cbn [sent with_sent].
      by rewrite <- app_assoc.
    + eexists. split; [|right; left; reflexivity]. done.
  - exists []. split; [|by left]. unfold throw. cbn [snd]. by rewrite app_nil_r.
Qed.

Section Traffic.

Variable gzip_base64 : text -> text.

Lemma cache_set_same_sent key value ttl options :
  preserves same_sent (cache_set gzip_base64 key value ttl options).
Proof.
  unfold cache_set. repeat f_step. all: apply redis_set_same_sent.
Qed.

(** X22.  What one request asks of the database: nothing; or the
    EXPLAIN of the text; or the statement of the page; or the statement
    of the page and then the count query. *)
Theorem database_traffic (sql : text) (options : query_options) (w : world) :
  exists more,
    sent (snd (executeQuery gzip_base64 sql options w)) = sent w ++ more /\
    In more (traffic (DB_TYPE w) sql options).
Proof.
  assert (Hpast : forall w0,
    DB_TYPE w0 = DB_TYPE w -> sent w0 = sent w ->
    exists more,
      sent (snd (past_the_cache gzip_base64 sql options w0)) = sent w ++ more /\
      In more (traffic (DB_TYPE w) sql options)).
  { intros w0 Hdb Hsent. unfold past_the_cache, traffic.
    destruct (default false (opt_dryRun options)).
    - rewrite explainQuery_cases, Hdb.
      destruct (supported (DB_TYPE w)).
      + exists [explainSQL (DB_TYPE w) sql]. split; [|right; by left].
        destruct (driver w0 _); cbn [snd sent with_sent]; by rewrite Hsent.
      + exists []. split; [|by left]. cbn [snd]. by rewrite Hsent, app_nil_r.
    - destruct (executeWithPagination_sent sql (request_page options)
                  (request_pageSize options) w0) as (more & Hm & Hin).
      rewrite Hdb, Hsent in *.
      exists more. split.
      + destruct (executeWithPagination _ _ _ w0) as [[r|e] w1];
          cbn [snd] in *; [|done].
        destruct (_ && _); [|done].
        rewrite <- Hm. apply cache_set_same_sent.
      + destruct Hin as [<-|[<-|[<-|[]]]]; cbn; tauto. }
  rewrite executeQuery_cases.
  destruct (validateQuery sql).
  - destruct (_ && _); [|by apply Hpast].
    destruct (cache_get_frame (request_key sql options) get_defaults w)
      as (v & w0 & -> & Hdb & _ & Hsent & _).
    destruct (truthy v); [|by apply Hpast].
    exists []. split; [|by left]. cbn [snd]. by rewrite Hsent, app_nil_r.
  - exists []. split; [|by left]. cbn [snd]. by rewrite app_nil_r.
Qed.

End Traffic.

(** ** The cache key *)

Lemma digit_no_colon c : is_digit c = true -> negb (ascii_eqb c ":") = true.
Proof. char_cases c. Qed.

Lemma digits_no_colon ds : forallb is_digit ds = true -> no_colon ds = true.
Proof.
  unfold no_colon. rewrite !forallb_forall. intros H c Hc.
  by apply digit_no_colon, H.
Qed.

Lemma show_num_no_colon n : no_colon (show_num n) = true.
Proof.
  destruct n as [[|p|p]|]; try reflexivity.
  - cbn [show_num]. rewrite show_Z_pos. apply digits_no_colon, uint_chars_digits.
  - cbn [show_num]. rewrite show_Z_neg, show_Z_pos.
    change (no_colon (?c :: ?t)) with (negb (ascii_eqb c ":") && no_colon t).
    cbn [andb]. apply digits_no_colon, uint_chars_digits.
Qed.

Lemma parseInt_minus ds :
  digits ds -> parseInt ("-"%char :: ds) = Int (- digits_value ds).
Proof.
  intros [Hne Hall]. destruct ds as [|c ds]; [done|].
  pose proof Hall as Hall'. simpl in Hall'.
  apply andb_true_iff in Hall' as [Hc Hds].
  unfold parseInt.
  change (trimStart ("-"%char :: c :: ds)) with ("-"%char :: c :: ds).
  cbv beta iota. rewrite ascii_eqb_refl. cbv beta iota zeta.
  assert (parse_digits 10 dec_digit_value (c :: ds) None
          = Some (digits_value (c :: ds))) as Hdec.
  { by rewrite parse_digits_decimal. }
  destruct ds as [|x ds]; [by rewrite Hdec|].
  simpl in Hds. apply andb_true_iff in Hds as [Hx _].
  rewrite (digit_not_x x Hx), andb_false_r. by rewrite Hdec.
Qed.

(** [parseInt] reads a number back from its decimal form. *)
Lemma parseInt_show_num n : parseInt (show_num n) = n.
Proof.
  destruct n as [[|p|p]|]; try reflexivity.
  - apply parseInt_show_pos.
  - cbn [show_num]. rewrite show_Z_neg, parseInt_minus, show_Z_pos_value; [done|].
    rewrite show_Z_pos. split; [|apply uint_chars_digits].
    destruct (pos_chars p) as (c & ds & -> & _). done.
Qed.

Lemma split_at_colon u :
  forall u' r r',
    no_colon u = true -> no_colon u' = true ->
    u ++ ":"%char :: r = u' ++ ":"%char :: r' -> u = u' /\ r = r'.
Proof.
  induction u as [|c u IH]; intros [|c' u'] r r' Hu Hu' E; simpl in *.
  - by injection E.
  - injection E as <- _. by apply andb_true_iff in Hu' as [? _].
  - injection E as -> _. by apply andb_true_iff in Hu as [? _].
  - injection E as <- E.
    apply andb_true_iff in Hu as [_ Hu]. apply andb_true_iff in Hu' as [_ Hu'].
    destruct (IH u' r r' Hu Hu' E) as [<- <-]. done.
Qed.

Lemma no_colon_rev t : no_colon t = true -> no_colon (rev t) = true.
Proof.
  unfold no_colon. rewrite !forallb_forall. intros H c Hc.
  apply H. by apply in_rev.
Qed.

Lemma generateCacheKey_hashes sql page pageSize :
  generateCacheKey sql page pageSize
  = cachePrefix ++ md5_hex (hashed_text sql page pageSize).
Proof. reflexivity. Qed.

(** X23.  The text hashed into a cache key tells the requests apart:
    since a page and a page size are written without a colon, two
    requests give the same text only when they have the same statement,
    page and page size.  Keys of different requests differ unless MD5
    collides. *)
Theorem hashed_text_unambiguous (sql1 sql2 : text) (p1 s1 p2 s2 : num) :
  hashed_text sql1 p1 s1 = hashed_text sql2 p2 s2 ->
  sql1 = sql2 /\ p1 = p2 /\ s1 = s2.
Proof.
  intros E. unfold hashed_text in E.
  apply (f_equal (@rev ascii)) in E.
  repeat rewrite ?rev_app_distr, <- ?app_assoc in E.
  change (rev (txt ":")) with [":"%char] in E. cbn [app] in E.
  apply split_at_colon in E as [Es E];
    try (apply no_colon_rev, show_num_no_colon).
  apply split_at_colon in E as [Ep E];
    try (apply no_colon_rev, show_num_no_colon).
  apply (f_equal (@rev ascii)) in Es, Ep, E. rewrite !rev_involutive in *.
  split; [done|].
  split; [rewrite <- (parseInt_show_num p1), <- (parseInt_show_num p2)
         |rewrite <- (parseInt_show_num s1), <- (parseInt_show_num s2)];
    congruence.
Qed.

Lemma hashed_text_unambiguous_witness :
  txt "SELECT 1" = txt "SELECT 1" /\ Int 2 = Int 2 /\ Int 50 = Int 50.
Proof.
  apply (hashed_text_unambiguous (txt "SELECT 1") (txt "SELECT 1")
           (Int 2) (Int 50) (Int 2) (Int 50)).
  reflexivity.
Defined.
